(** * opensearch-pi: collections, indexing, fusion search and embeddings

    A shallow embedding of the JavaScript sources: the database manager
    ([DatabaseManager]) and the collection manager ([CollectionManager]),
    the search engine ([src/search.js]) and the embedding engine
    ([src/embeddings.js]), followed by the properties established about
    them.

    Conventions of the embedding:
    - JavaScript strings are [string]s of 8-bit characters, meant to be
      ASCII; a string handed to a hash is hashed as the bytes of its
      characters.
    - Scores of the search engine are exact rationals ([Q]); the feature
      vectors of the embedding engine, which need a square root, are reals
      ([R]).  Rounding of IEEE doubles is not modelled there; where a
      property depends on it, the function is given on binary64 numbers as
      well.
    - A function that can throw returns a [result]; an object that a method
      changes is passed in and returned.
    - An SQLite table is the list of its rows in rowid order; a statement is a
      function on these lists.
    - Library code that is not part of the repository (SQLite's FTS5
      functions and comparisons, the [natural] stemmer and TF-IDF, MD5)
      enters through type classes, with concrete instances used for
      evaluation. *)

From Stdlib Require Import ZArith List String Ascii Bool Arith Lia.
From Stdlib Require Import DecimalString DecimalZ.
From Stdlib Require Import QArith Qminmax Qround.
From Stdlib Require Import Reals Psatz.
From Stdlib Require Import Permutation Sorted.
From Stdlib Require Floats.
Import ListNotations.

Local Open Scope string_scope.
Local Open Scope list_scope.
Local Open Scope Z_scope.

(* ================================================================== *)
(** * Part I: the embedding *)
(* ================================================================== *)

(** ** SHA-256 (FIPS 180-4), the digest behind [crypto.createHash('sha256')] *)

Module Sha256.

Definition mask32 : Z := 0xFFFFFFFF.

(** 32-bit words are integers in [0, 2^32); sums wrap around. *)
Definition wrap (x : Z) : Z := Z.land x mask32.
Definition plus32 (x y : Z) : Z := wrap (x + y).

Definition rotr (n x : Z) : Z :=
  Z.lor (Z.shiftr x n) (wrap (Z.shiftl x (32 - n))).

Definition ch (x y z : Z) : Z :=
  Z.lxor (Z.land x y) (Z.land (Z.lxor x mask32) z).
Definition maj (x y z : Z) : Z :=
  Z.lxor (Z.lxor (Z.land x y) (Z.land x z)) (Z.land y z).

Definition bsig0 (x : Z) : Z :=
  Z.lxor (Z.lxor (rotr 2 x) (rotr 13 x)) (rotr 22 x).
Definition bsig1 (x : Z) : Z :=
  Z.lxor (Z.lxor (rotr 6 x) (rotr 11 x)) (rotr 25 x).
Definition ssig0 (x : Z) : Z :=
  Z.lxor (Z.lxor (rotr 7 x) (rotr 18 x)) (Z.shiftr x 3).
Definition ssig1 (x : Z) : Z :=
  Z.lxor (Z.lxor (rotr 17 x) (rotr 19 x)) (Z.shiftr x 10).

(** The constants are defined as the standard defines them: the first 32
    bits of the fractional parts of the cube roots (round constants) and of
    the square roots (initial chaining value) of the first primes. *)
Definition first_primes : list Z :=
  [ 2; 3; 5; 7; 11; 13; 17; 19; 23; 29; 31; 37; 41; 43; 47; 53;
    59; 61; 67; 71; 73; 79; 83; 89; 97; 101; 103; 107; 109; 113; 127; 131;
    137; 139; 149; 151; 157; 163; 167; 173; 179; 181; 191; 193; 197; 199;
    211; 223; 227; 229; 233; 239; 241; 251; 257; 263; 269; 271; 277; 281;
    283; 293; 307; 311 ].

(** Integer cube root by bisection on the bits, from [bit] downwards. *)
Fixpoint cube_root_from (bit : nat) (x r : Z) : Z :=
  let r' := r + 2 ^ Z.of_nat bit in
  let r := if r' * r' * r' <=? x then r' else r in
  match bit with
  | O => r
  | S b => cube_root_from b x r
  end.

Definition frac_cube_root (p : Z) : Z :=
  wrap (cube_root_from 35 (p * 2 ^ 96) 0).

Definition frac_square_root (p : Z) : Z :=
  wrap (Z.sqrt (p * 2 ^ 64)).

Definition round_constants : list Z :=
  Eval vm_compute in map frac_cube_root first_primes.

(** The eight working variables, also the chaining value. *)
Record regs : Type := Regs
  { ra : Z; rb : Z; rc : Z; rd : Z; re : Z; rf : Z; rg : Z; rh : Z }.

Definition initial_regs : regs :=
  Eval vm_compute in
    let h (i : nat) := frac_square_root (nth i first_primes 0) in
    Regs (h 0%nat) (h 1%nat) (h 2%nat) (h 3%nat)
         (h 4%nat) (h 5%nat) (h 6%nat) (h 7%nat).

(** Padding: a one bit, zero bits up to 56 mod 64 bytes, then the message
    length in bits as a 64-bit big-endian integer. *)
Fixpoint be_bytes (n : nat) (x : Z) : list Z :=
  match n with
  | O => []
  | S k => Z.land (Z.shiftr x (8 * Z.of_nat k)) 0xFF :: be_bytes k x
  end.

Definition pad (msg : list Z) : list Z :=
  let len := Z.of_nat (List.length msg) in
  let zeros := Z.to_nat ((55 - len) mod 64) in
  msg ++ [0x80] ++ repeat 0 zeros ++ be_bytes 8 (8 * len).

Fixpoint be_words (n : nat) (bytes : list Z) : list Z :=
  match n, bytes with
  | S k, b0 :: b1 :: b2 :: b3 :: rest =>
      (Z.shiftl b0 24 + Z.shiftl b1 16 + Z.shiftl b2 8 + b3) :: be_words k rest
  | _, _ => []
  end.

(** Message schedule: the sixteen block words, extended to sixty-four. *)
Fixpoint extend (n : nat) (w : list Z) : list Z :=
  match n with
  | O => w
  | S k =>
      let t := List.length w in
      let at_ (i : nat) := nth (t - i) w 0 in
      let wt := plus32 (plus32 (ssig1 (at_ 2%nat)) (at_ 7%nat))
                       (plus32 (ssig0 (at_ 15%nat)) (at_ 16%nat)) in
      extend k (w ++ [wt])
  end.

Definition round (r : regs) (kw : Z * Z) : regs :=
  let (k, w) := kw in
  let t1 := plus32 (plus32 (plus32 (rh r) (bsig1 (re r)))
                           (plus32 (ch (re r) (rf r) (rg r)) k)) w in
  let t2 := plus32 (bsig0 (ra r)) (maj (ra r) (rb r) (rc r)) in
  Regs (plus32 t1 t2) (ra r) (rb r) (rc r)
       (plus32 (rd r) t1) (re r) (rf r) (rg r).

Definition compress (h : regs) (block : list Z) : regs :=
  let w := extend 48 (be_words 16 block) in
  let r := fold_left round (combine round_constants w) h in
  Regs (plus32 (ra h) (ra r)) (plus32 (rb h) (rb r))
       (plus32 (rc h) (rc r)) (plus32 (rd h) (rd r))
       (plus32 (re h) (re r)) (plus32 (rf h) (rf r))
       (plus32 (rg h) (rg r)) (plus32 (rh h) (rh r)).

Fixpoint absorb (blocks : nat) (h : regs) (bytes : list Z) : regs :=
  match blocks with
  | O => h
  | S k => absorb k (compress h (firstn 64 bytes)) (skipn 64 bytes)
  end.

Definition digest (msg : list Z) : regs :=
  let padded := pad msg in
  absorb (List.length padded / 64) initial_regs padded.

(** [digest('hex')]: lower-case hexadecimal, eight digits per word. *)
Definition hex_digit (x : Z) : ascii :=
  match String.get (Z.to_nat (Z.land x 0xF)) "0123456789abcdef" with
  | Some c => c
  | None => "0"%char
  end.

Fixpoint hex_word (n : nat) (x : Z) : string :=
  match n with
  | O => EmptyString
  | S k => String (hex_digit (Z.shiftr x (4 * Z.of_nat k))) (hex_word k x)
  end.

Definition hex_of_regs (r : regs) : string :=
  (hex_word 8 (ra r) ++ hex_word 8 (rb r) ++ hex_word 8 (rc r) ++
   hex_word 8 (rd r) ++ hex_word 8 (re r) ++ hex_word 8 (rf r) ++
   hex_word 8 (rg r) ++ hex_word 8 (rh r))%string.

Definition bytes_of_string (s : string) : list Z :=
  map (fun c => Z.of_nat (nat_of_ascii c)) (list_ascii_of_string s).

Definition hexdigest (s : string) : string :=
  hex_of_regs (digest (bytes_of_string s)).

End Sha256.

(** ** Helpers shared by the modules *)

(** A stable sort by insertion; [le a b] says that [a] may stand before [b].
    [Array.prototype.sort] is stable, and so is this model of [ORDER BY]:
    rows that compare equal keep the order they had. *)
Fixpoint insert_by {A : Type} (le : A -> A -> bool) (x : A) (l : list A) : list A :=
  match l with
  | [] => [x]
  | y :: t => if le x y then x :: l else y :: insert_by le x t
  end.

Definition sort_by {A : Type} (le : A -> A -> bool) (l : list A) : list A :=
  fold_right (insert_by le) [] l.

(** A JavaScript [Set] of strings: members in insertion order, no repeats. *)
Definition set_has (x : string) (s : list string) : bool :=
  existsb (String.eqb x) s.

Definition set_add (x : string) (s : list string) : list string :=
  if set_has x s then s else s ++ [x].

Definition set_of_list (l : list string) : list string :=
  fold_left (fun s x => set_add x s) l [].

(** A JavaScript [Map]: entries in insertion order; [set] on a present key
    replaces the value where it stands. *)
Section JsMap.
Context {K V : Type} (eqb : K -> K -> bool).

Fixpoint jsmap_get (k : K) (m : list (K * V)) : option V :=
  match m with
  | [] => None
  | (k', v) :: t => if eqb k' k then Some v else jsmap_get k t
  end.

Fixpoint jsmap_set (k : K) (v : V) (m : list (K * V)) : list (K * V) :=
  match m with
  | [] => [(k, v)]
  | (k', v') :: t =>
      if eqb k' k then (k, v) :: t else (k', v') :: jsmap_set k v t
  end.
End JsMap.

(** What a failing operation raises: [new Error(message)] of the collection
    manager, or the [TypeError] of the runtime for a call of something that
    is no function. *)
Inductive error : Type :=
| CollectionNotFound (name : string)
| TypeError (message : string).

Inductive result (A : Type) : Type :=
| Ok (a : A)
| Throw (e : error).
Arguments Ok {A} a.
Arguments Throw {A} e.

(** ** [DatabaseManager]: the store *)

Module Db.

(** Rows of the three tables.  The columns [created_at], [updated_at] and
    [indexed_at], filled by SQLite defaults and read by none of the
    operations below, are left out. *)
Record Collection : Type := mkCollection
  { col_name : string; col_path : string; col_mask : string }.

Record Document : Type := mkDocument
  { doc_id : string;
    doc_path : string;
    doc_title : string;
    doc_content : string;
    doc_collection : string;
    doc_size : Z;
    doc_modified_at : Z }.

(** [embedding] is the JSON text of the vector. *)
Record Embedding : Type := mkEmbedding
  { emb_document_id : string; emb_embedding : string }.

(** The database: each table is the list of its rows in rowid order.  The
    FTS5 table is an external-content table over [documents] kept in step by
    triggers, so it carries no state of its own.  [initialize] sets no
    [foreign_keys] pragma, and the manager removes orphaned rows itself
    ([cleanup]): the [ON DELETE CASCADE] clauses of the schema are taken
    not to be enforced, deletions cascade only through [cleanup]. *)
Record t : Type := mk
  { collections : list Collection;
    documents : list Document;
    embeddings : list Embedding }.

Definition empty : t := mk [] [] [].

(** [INSERT OR REPLACE INTO collections]: a row with the same primary key
    is deleted, the new row gets a fresh rowid. *)
Definition addCollection (db : t) (name path mask : string) : t :=
  mk (filter (fun c => negb (col_name c =? name)%string) (collections db)
        ++ [mkCollection name path mask])
     (documents db) (embeddings db).

(** [getCollections]: every collection with the number of its documents,
    [ORDER BY c.name]. *)
Definition file_count (db : t) (c : Collection) : nat :=
  List.length
    (filter (fun d => (doc_collection d =? col_name c)%string) (documents db)).

Definition getCollections (db : t) : list (Collection * nat) :=
  map (fun c => (c, file_count db c))
      (sort_by (fun a b => String.leb (col_name a) (col_name b))
               (collections db)).

(** [INSERT OR REPLACE INTO documents], primary key [id]. *)
Definition addDocument (db : t) (d : Document) : t :=
  mk (collections db)
     (filter (fun x => negb (doc_id x =? doc_id d)%string) (documents db) ++ [d])
     (embeddings db).

Definition getDocument (db : t) (id : string) : option Document :=
  find (fun d => (doc_id d =? id)%string) (documents db).

Definition getDocumentByPath (db : t) (path : string) : option Document :=
  find (fun d => (doc_path d =? path)%string) (documents db).

(** [DELETE FROM documents WHERE id = ?] *)
Definition removeDocument (db : t) (id : string) : t :=
  mk (collections db)
     (filter (fun x => negb (doc_id x =? id)%string) (documents db))
     (embeddings db).

(** [SELECT * FROM documents WHERE collection = ? ORDER BY path] *)
Definition getDocumentsByCollection (db : t) (collection : string)
  : list Document :=
  sort_by (fun a b => String.leb (doc_path a) (doc_path b))
          (filter (fun d => (doc_collection d =? collection)%string)
                  (documents db)).

(** [INSERT OR REPLACE INTO embeddings], primary key [document_id]. *)
Definition addEmbedding (db : t) (e : Embedding) : t :=
  mk (collections db) (documents db)
     (filter (fun x => negb (emb_document_id x =? emb_document_id e)%string)
             (embeddings db) ++ [e]).

(** [removeOrphanedDocuments] and [removeOrphanedEmbeddings] *)
Definition has_collection (cols : list Collection) (name : string) : bool :=
  existsb (fun c => (col_name c =? name)%string) cols.

Definition has_document (docs : list Document) (id : string) : bool :=
  existsb (fun d => (doc_id d =? id)%string) docs.

Definition removeOrphanedDocuments (db : t) : t :=
  mk (collections db)
     (filter (fun d => has_collection (collections db) (doc_collection d))
             (documents db))
     (embeddings db).

Definition removeOrphanedEmbeddings (db : t) : t :=
  mk (collections db) (documents db)
     (filter (fun e => has_document (documents db) (emb_document_id e))
             (embeddings db)).

(** [cleanup]: the two deletions; rebuilding the FTS index and [VACUUM]
    change no row. *)
Definition cleanup (db : t) : t :=
  removeOrphanedEmbeddings (removeOrphanedDocuments db).

(** [removeCollection]: the [DELETE], then [cleanup]; the result carries
    [changes], the number of rows the [DELETE] removed. *)
Definition removeCollection (db : t) (name : string) : t * nat :=
  let doomed := filter (fun c => (col_name c =? name)%string) (collections db) in
  let db1 := mk (filter (fun c => negb (col_name c =? name)%string)
                        (collections db))
                (documents db) (embeddings db) in
  (cleanup db1, List.length doomed).

(** Primary keys are unique in every table. *)
Definition wf (db : t) : Prop :=
  NoDup (map col_name (collections db)) /\
  NoDup (map doc_id (documents db)) /\
  NoDup (map emb_document_id (embeddings db)).

End Db.

(** ** [CollectionManager]: collections and their indexing *)

Module Collections.
Import Db.

(** [fs.statSync]: the two fields read by the indexer. *)
Record Stats : Type := mkStats { mtimeMs : Q; size : Z }.

(** The file system and the glob library, as seen by one indexing pass.
    [None] stands for a thrown exception.  [parseMarkdownFile], a pure
    string function of the file's text and path that no property below
    looks into, is kept abstract with the rest; it may throw as well. *)
Class FileSystem : Type :=
  { glob : string -> list string;
    statSync : string -> option Stats;
    readFileSync : string -> option string;
    parseMarkdownFile : string -> string -> option (string * string) }.

(** [path.join(collection.path, collection.mask)] *)
Definition path_join (a b : string) : string := (a ++ "/" ++ b)%string.

(** [Number.prototype.toString] of an integer (below 1e21 in magnitude). *)
Definition toString (z : Z) : string := NilZero.string_of_int (Z.to_int z).

(** [generateDocumentId]: the first eight hex digits of the SHA-256 of the
    path followed by the decimal modification time. *)
Definition generateDocumentId (filePath : string) (modifiedTime : Z) : string :=
  substring 0 8 (Sha256.hexdigest (filePath ++ toString modifiedTime)%string).

(** State of the loop over the matched files. *)
Record pass : Type := mkPass
  { p_db : Db.t;
    processedPaths : list string;
    p_indexed : nat;
    p_skipped : nat }.

(** Outcome of the [try] block for one file; [None] is the [catch]. *)
Definition tryIndex `{FileSystem} (collection : Collection)
           (existingDocs : list Document) (filePath : string)
  : option (Document + unit) :=
  match statSync filePath with
  | None => None
  | Some stat =>
      let modifiedTime := Qfloor (mtimeMs stat) in
      let existingDoc :=
        find (fun doc => (doc_path doc =? filePath)%string) existingDocs in
      let current :=
        match existingDoc with
        | Some doc => (doc_modified_at doc >=? modifiedTime)%Z
        | None => false
        end in
      if current then Some (inr tt)
      else
        match readFileSync filePath with
        | None => None
        | Some content =>
            match parseMarkdownFile content filePath with
            | None => None
            | Some (title, cleanContent) =>
                let docId := generateDocumentId filePath modifiedTime in
                Some (inl (mkDocument docId filePath title cleanContent
                                      (col_name collection) (size stat)
                                      modifiedTime))
            end
        end
  end.

(** One iteration of the loop.  The path is recorded as processed before
    anything can throw; a caught error changes nothing else. *)
Definition indexFile `{FileSystem} (collection : Collection)
           (existingDocs : list Document) (st : pass) (filePath : string)
  : pass :=
  let seen := set_add filePath (processedPaths st) in
  match tryIndex collection existingDocs filePath with
  | None => mkPass (p_db st) seen (p_indexed st) (p_skipped st)
  | Some (inr _) => mkPass (p_db st) seen (p_indexed st) (S (p_skipped st))
  | Some (inl doc) =>
      mkPass (addDocument (p_db st) doc) seen (S (p_indexed st)) (p_skipped st)
  end.

(** The removal transaction: for every stored path that was not processed,
    the first stored document with that path is deleted. *)
Definition removeOne (existingDocs : list Document) (db : Db.t)
           (filePath : string) : Db.t :=
  match find (fun d => (doc_path d =? filePath)%string) existingDocs with
  | Some doc => removeDocument db (doc_id doc)
  | None => db
  end.

Record counts : Type := mkCounts
  { indexed : nat; skipped : nat; removed : nat }.

(** [collections.find(c => c.name === collectionName)] on the rows of
    [getCollections]. *)
Definition findCollection (db : Db.t) (collectionName : string)
  : option Collection :=
  option_map fst
    (find (fun c => (col_name (fst c) =? collectionName)%string)
          (getCollections db)).

(** The indexing transaction: the loop over the matched files. *)
Definition scanFiles `{FileSystem} (collection : Collection)
           (existingDocs : list Document) (files : list string) (db : Db.t)
  : pass :=
  fold_left (indexFile collection existingDocs) files
            (mkPass db [] 0%nat 0%nat).

Definition indexCollection `{FileSystem} (db : Db.t) (collectionName : string)
  : result (Db.t * counts) :=
  match findCollection db collectionName with
  | None => Throw (CollectionNotFound collectionName)
  | Some collection =>
      let files := glob (path_join (col_path collection) (col_mask collection)) in
      let existingDocs := getDocumentsByCollection db (col_name collection) in
      let existingPaths := set_of_list (map doc_path existingDocs) in
      let st := scanFiles collection existingDocs files db in
      let removedPaths :=
        filter (fun p => negb (set_has p (processedPaths st))) existingPaths in
      let db' := fold_left (removeOne existingDocs) removedPaths (p_db st) in
      Ok (db', mkCounts (p_indexed st) (p_skipped st)
                        (List.length removedPaths))
  end.

(** [remove]: the deletion and the cleanup run first, the check of
    [changes] afterwards; nothing is rolled back when it throws. *)
Definition remove (db : Db.t) (name : string) : Db.t * result nat :=
  let (db', changes) := removeCollection db name in
  if (changes =? 0)%nat then (db', Throw (CollectionNotFound name))
  else (db', Ok changes).

End Collections.

(** ** embeddings.js: the feature-vector embedding engine *)

Module Embeddings.

Local Open Scope R_scope.

(** The [natural] package and MD5 as the engine calls them: the Porter
    stemmer, [TfIdf.tfidf] as a function of the documents array, and
    [hashFeature] ([parseInt] of the first eight hex digits of the MD5). *)
Class Natural : Type :=
  { stem : string -> string;
    tfidf : list (list string) -> string -> nat -> R;
    hashFeature : string -> nat }.

(** [natural.WordTokenizer.tokenize], the value [embed] calls.
    [WordTokenizer] is a class of the package and [tokenize] a method of
    its instances ([new natural.WordTokenizer().tokenize(text)]); the
    class object itself has no property of that name, so the expression
    evaluates to [undefined], here [None]. *)
Definition WordTokenizer_tokenize : option (string -> list string) := None.

(** The [TypeError] raised by calling [undefined]. *)
Definition not_a_function : error :=
  TypeError "natural.WordTokenizer.tokenize is not a function".

Definition dimensions : nat := 384.

(** The engine: the documents array of its [TfIdf] and the flag set by
    [initialize].  The [vocabulary] map is never read. *)
Record engine : Type := mkEngine
  { documents : list (list string); initialized : bool }.

Definition fresh : engine := mkEngine [] false.

Definition initialize (e : engine) : engine := mkEngine (documents e) true.

(** Character classes of the regular expressions, on ASCII. *)
Definition code (c : ascii) : nat := nat_of_ascii c.
Definition between (lo hi : nat) (c : ascii) : bool :=
  (lo <=? code c)%nat && (code c <=? hi)%nat.
Definition is_upper (c : ascii) : bool := between 65 90 c.
Definition is_lower (c : ascii) : bool := between 97 122 c.
Definition is_digit (c : ascii) : bool := between 48 57 c.
Definition is_word (c : ascii) : bool :=
  is_upper c || is_lower c || is_digit c || (code c =? 95)%nat.
Definition is_space (c : ascii) : bool :=
  between 9 13 c || (code c =? 32)%nat.

Definition toLowerCase (c : ascii) : ascii :=
  if is_upper c then ascii_of_nat (code c + 32) else c.

(** [replace(/\s+/g, ' ')] *)
Fixpoint collapse_spaces (in_run : bool) (l : list ascii) : list ascii :=
  match l with
  | [] => []
  | c :: t =>
      if is_space c
      then if in_run then collapse_spaces true t
           else " "%char :: collapse_spaces true t
      else c :: collapse_spaces false t
  end.

Fixpoint trim_start (l : list ascii) : list ascii :=
  match l with
  | c :: t => if is_space c then trim_start t else l
  | [] => []
  end.

Definition trim (l : list ascii) : list ascii :=
  rev (trim_start (rev (trim_start l))).

Definition preprocessText (text : string) : string :=
  let lower := map toLowerCase (list_ascii_of_string text) in
  let no_punct :=
    map (fun c => if is_word c || is_space c then c else " "%char) lower in
  string_of_list_ascii (trim (collapse_spaces false no_punct)).

(** Arrays of numbers; [set_at] writes inside the array only (every index
    written below is smaller than [dimensions]). *)
Fixpoint set_at (i : nat) (f : R -> R) (v : list R) : list R :=
  match v, i with
  | [], _ => []
  | x :: t, O => f x :: t
  | x :: t, S j => x :: set_at j f t
  end.

(** Writes the features [fs] at consecutive indices from [start]. *)
Fixpoint write_from (start : nat) (fs : list R) (v : list R) : list R :=
  match fs with
  | [] => v
  | x :: t => write_from (S start) t (set_at start (fun _ => x) v)
  end.

(** Counting into a [Map], keys in order of first occurrence. *)
Definition count_into {K : Type} (eqb : K -> K -> bool)
           (m : list (K * nat)) (k : K) : list (K * nat) :=
  match jsmap_get eqb k m with
  | Some n => jsmap_set eqb k (n + 1)%nat m
  | None => jsmap_set eqb k 1%nat m
  end.

Definition frequencies {K : Type} (eqb : K -> K -> bool) (l : list K)
  : list (K * nat) :=
  fold_left (count_into eqb) l [].

(** [generateNGrams]: the windows of [n] consecutive tokens, joined by a
    space, for every start [i] with [i <= tokens.length - n]. *)
Definition generateNGrams (tokens : list string) (n : nat) : list string :=
  map (fun i => String.concat " " (firstn n (skipn i tokens)))
      (seq 0 (List.length tokens + 1 - n)).

Definition count_if {A : Type} (p : A -> bool) (l : list A) : nat :=
  List.length (filter p l).

Definition ratio (n d : nat) : R := INR n / INR d.

Definition generateCharFeatures (text : string) : list R :=
  let chars := list_ascii_of_string text in
  let charFreq := frequencies Ascii.eqb chars in
  let totalChars := List.length chars in
  let sortedChars :=
    sort_by (fun a b => (snd b <=? snd a)%nat) charFreq in
  map (fun e => ratio (snd e) totalChars) (firstn 32 sortedChars)
      ++ [ INR (String.length text) / 1000;
           ratio (count_if is_upper chars) totalChars;
           ratio (count_if is_digit chars) totalChars;
           ratio (count_if is_space chars) totalChars ].

Definition endsWith (s suffix : string) : bool :=
  let n := String.length s in
  let k := String.length suffix in
  (k <=? n)%nat && (substring (n - k) k s =? suffix)%string.

Inductive pos : Type := Noun | Verb | Adj | Other.

Definition tag (token : string) : pos :=
  if endsWith token "ing" || endsWith token "ed" || endsWith token "s"
  then Verb
  else if endsWith token "ly" || endsWith token "al" || endsWith token "ful"
  then Adj
  else if (4 <? String.length token)%nat && negb (endsWith token "ly")
  then Noun
  else Other.

Definition is_pos (p : pos) (token : string) : bool :=
  match p, tag token with
  | Noun, Noun | Verb, Verb | Adj, Adj | Other, Other => true
  | _, _ => false
  end.

Definition sum (l : list R) : R := fold_left Rplus l 0.

Definition mean (arr : list R) : R := sum arr / INR (List.length arr).

Definition stddev (arr : list R) : R :=
  let avg := mean arr in
  let variance :=
    fold_left (fun acc val => acc + (val - avg) ^ 2) arr 0
    / INR (List.length arr) in
  sqrt variance.

Definition generateSemanticFeatures (tokens : list string) : list R :=
  let totalTokens := List.length tokens in
  let lengths := map (fun t => INR (String.length t)) tokens in
  let longWords := count_if (fun t => (6 <? String.length t)%nat) tokens in
  let uniqueWords := List.length (set_of_list tokens) in
  [ ratio (count_if (is_pos Noun) tokens) totalTokens;
    ratio (count_if (is_pos Verb) tokens) totalTokens;
    ratio (count_if (is_pos Adj) tokens) totalTokens;
    ratio (count_if (is_pos Other) tokens) totalTokens;
    mean lengths / 10;
    stddev lengths / 10;
    ratio longWords totalTokens;
    ratio uniqueWords totalTokens ].

Definition createFeatureVector `{Natural} (docs : list (list string))
           (tokens : list string) (docIndex : nat) : list R :=
  let vector := repeat 0 dimensions in
  let termFreq := frequencies String.eqb (map stem tokens) in
  (* 1. TF-IDF features *)
  let vector :=
    write_from 0 (map (fun e => tfidf docs (fst e) docIndex)
                      (firstn 128 termFreq)) vector in
  (* 2. N-gram features *)
  let bigrams := generateNGrams tokens 2 in
  let vector :=
    fold_left
      (fun v bigram =>
         set_at (128 + hashFeature bigram mod 128)
                (fun x => x + 1 / INR (List.length bigrams)) v)
      bigrams vector in
  (* 3. Character-level features *)
  let charFeatures := generateCharFeatures (String.concat " " tokens) in
  let vector := write_from 256 (firstn 64 charFeatures) vector in
  (* 4. Semantic features *)
  let semanticFeatures := generateSemanticFeatures tokens in
  write_from 320 (firstn 64 semanticFeatures) vector.

Definition magnitude (vector : list R) : R :=
  sqrt (fold_left (fun acc val => acc + val * val) vector 0).

Definition normalizeVector (vector : list R) : list R :=
  if Req_dec_T (magnitude vector) 0 then vector
  else map (fun val => val / magnitude vector) vector.

(** [array.splice(i, 1)] *)
Definition splice1 {A : Type} (i : nat) (l : list A) : list A :=
  firstn i l ++ skipn (S i) l.

(** [embed], returning its outcome and the engine it leaves behind.  The
    engine is initialized first; the call of [undefined] on the next line
    then throws, and nothing below it runs. *)
Definition embed `{Natural} (e : engine) (text : string)
  : result (list R) * engine :=
  let e := if initialized e then e else initialize e in
  let cleanText := preprocessText text in
  match WordTokenizer_tokenize with
  | None => (Throw not_a_function, e)
  | Some tokenize =>
      let tokens := tokenize cleanText in
      match tokens with
      | [] => (Ok (repeat 0 dimensions), e)
      | _ =>
          let docs := documents e ++ [tokens] in
          let docIndex := (List.length docs - 1)%nat in
          let vector := createFeatureVector docs tokens docIndex in
          (Ok (normalizeVector vector),
           mkEngine (splice1 docIndex docs) (initialized e))
      end
  end.

(** [embedBatch]: the texts embedded one after the other; an exception of
    [embed] ends the loop and is the outcome. *)
Fixpoint embedBatch `{Natural} (e : engine) (texts : list string)
  : result (list (list R)) * engine :=
  match texts with
  | [] => (Ok [], e)
  | text :: rest =>
      match embed e text with
      | (Throw err, e1) => (Throw err, e1)
      | (Ok v, e1) =>
          match embedBatch e1 rest with
          | (Throw err, e2) => (Throw err, e2)
          | (Ok vs, e2) => (Ok (v :: vs), e2)
          end
      end
  end.

End Embeddings.

(** ** search.js: keyword search, vector search and their fusion *)

Module Search.
Import Db.

Local Open Scope Q_scope.

(** The options object [{limit, collection, minScore}]; [collection] is
    [null] by default. *)
Record options : Type := mkOptions
  { limit : nat; collection : option string; minScore : Q }.

Definition default_options : options := mkOptions 5 None 0.

(** Truthiness of the [collection] option: neither [null] nor empty. *)
Definition collection_filter (c : option string) (d : Document) : bool :=
  match c with
  | None => true
  | Some EmptyString => true
  | Some name => (doc_collection d =? name)%string
  end.

(** What SQLite and the helpers around it contribute.  For the keyword
    search: the FTS5 [MATCH] operator, its [bm25] and [highlight]
    functions, the rowid SQLite gave to the row of a document (the triggers
    give the same rowid to its row in the FTS table), and SQLite's verdict
    on [text = integer], the comparison behind [d.id = fts.rowid].  For the
    vector search: the registered [vector_distance_cosine] and
    [JSON.stringify] of a vector.  And the two snippet helpers, string
    functions no property below reads.  All of them are taken to return: a
    query that FTS5 rejects, or a query term that is no regular expression,
    makes a search throw before it has any result, and is not covered. *)
Class Backend : Type :=
  { fts_match : string -> Document -> bool;
    bm25 : list Document -> string -> Document -> Q;
    highlight : string -> Document -> string;
    rowid : Document -> Z;
    text_equals_integer : string -> Z -> bool;
    vector_distance_cosine : string -> string -> Q;
    stringify : list R -> string;
    cleanSnippet : string -> string;
    extractSnippet : string -> string -> string }.

Record SearchResult : Type := mkResult
  { id : string;
    path : string;
    title : string;
    r_collection : string;
    snippet : string;
    score : Q }.

Definition Qlt_bool (a b : Q) : bool := negb (Qle_bool b a).

(** [Math.max(0, Math.min(1, (-raw) / 10))] *)
Definition normalizeBm25 (raw : Q) : Q := Qmax 0 (Qmin 1 ((- raw) / 10)).

(** [documents_fts fts JOIN documents d ON d.id = fts.rowid]: the rows of
    the FTS table that match the query, each with the documents whose id,
    a TEXT, equals its rowid, an integer.  A row of the join is the
    document [d] and the document [f] behind the FTS row. *)
Definition joins `{Backend} (d f : Document) : bool :=
  text_equals_integer (doc_id d) (rowid f).

Definition joinFts `{Backend} (db : Db.t) (query : string)
  : list (Document * Document) :=
  flat_map
    (fun f => map (fun d => (d, f)) (filter (fun d => joins d f) (documents db)))
    (filter (fts_match query) (documents db)).

(** The rows selected by [textSearch], in the order SQLite returns them;
    the collection is tested on [d], [bm25] belongs to the FTS row. *)
Definition textRows `{Backend} (db : Db.t) (query : string) (o : options)
  : list (Document * Document) :=
  let raw := fun row => bm25 (documents db) query (snd row) in
  let in_collection :=
    filter (fun row => collection_filter (collection o) (fst row))
           (joinFts db query) in
  let above := filter (fun row => Qle_bool (- minScore o) (raw row)) in_collection in
  let ordered := sort_by (fun a b => Qle_bool (raw b) (raw a)) above in
  firstn (limit o) ordered.

Definition textSearch `{Backend} (db : Db.t) (query : string) (o : options)
  : list SearchResult :=
  map (fun row =>
         let d := fst row in
         mkResult (doc_id d) (doc_path d) (doc_title d) (doc_collection d)
                  (cleanSnippet (highlight query (snd row)))
                  (normalizeBm25 (bm25 (documents db) query (snd row))))
      (textRows db query o).

(** [embeddings e JOIN documents d ON d.id = e.document_id] *)
Definition joinEmbeddings (db : Db.t) : list (Embedding * Document) :=
  flat_map
    (fun e => map (fun d => (e, d))
                  (filter (fun d => (doc_id d =? emb_document_id e)%string)
                          (documents db)))
    (embeddings db).

Definition vectorScore_of `{Backend} (queryVector : string)
           (row : Embedding * Document) : Q :=
  1 / (1 + vector_distance_cosine (emb_embedding (fst row)) queryVector).

(** The statement of [vectorSearch], run with the JSON text of the query's
    vector. *)
Definition vectorRows `{Backend} (db : Db.t) (queryVector : string)
           (query : string) (o : options) : list SearchResult :=
  let sc := vectorScore_of queryVector in
  let above := filter (fun row => Qle_bool (minScore o) (sc row))
                      (joinEmbeddings db) in
  let in_collection :=
    filter (fun row => collection_filter (collection o) (snd row)) above in
  let ordered := sort_by (fun a b => Qle_bool (sc b) (sc a)) in_collection in
  map (fun row =>
         let d := snd row in
         mkResult (doc_id d) (doc_path d) (doc_title d) (doc_collection d)
                  (extractSnippet (doc_content d) query) (sc row))
      (firstn (limit o) ordered).

(** [vectorSearch]: the query is embedded first; an exception of [embed]
    is the outcome of the search. *)
Definition vectorSearch `{Backend} `{Embeddings.Natural} (db : Db.t)
           (e : Embeddings.engine) (query : string) (o : options)
  : result (list SearchResult) * Embeddings.engine :=
  match Embeddings.embed e query with
  | (Throw err, e') => (Throw err, e')
  | (Ok queryVector, e') =>
      (Ok (vectorRows db (stringify queryVector) query o), e')
  end.

(** An entry of [resultMap]: the result spread into it, and the rank and
    score fields added by the fusion. *)
Record fused : Type := mkFused
  { base : SearchResult;
    textRank : option nat;
    textScore : Q;
    vectorRank : option nat;
    vectorScore : Q;
    rrfScore : Q }.

Definition map_get {V : Type} := @jsmap_get string V String.eqb.
Definition map_set {V : Type} := @jsmap_set string V String.eqb.

(** [array.forEach((x, index) => ...)] threading a state. *)
Fixpoint forEach_from {A St : Type} (f : St -> A -> nat -> St)
         (index : nat) (l : list A) (s : St) : St :=
  match l with
  | [] => s
  | x :: t => forEach_from f (S index) t (f s x index)
  end.

Definition forEach {A St : Type} (f : St -> A -> nat -> St)
           (l : list A) (s : St) : St :=
  forEach_from f 0 l s.

Definition k_rrf : nat := 60.

(** [1 / (k + index + 1)] *)
Definition rrf (index : nat) : Q :=
  1 / inject_Z (Z.of_nat (k_rrf + index + 1)).

(** The entry set for a keyword result. *)
Definition textEntry (result : SearchResult) (index : nat) : fused :=
  mkFused result (Some (index + 1)%nat) (score result) None 0
          (rrf index * 2).

Definition addText (m : list (string * fused)) (result : SearchResult)
           (index : nat) : list (string * fused) :=
  map_set (id result) (textEntry result index) m.

(** The entry for a document found by the vector search only. *)
Definition vectorEntry (result : SearchResult) (index : nat) : fused :=
  mkFused result None 0 (Some (index + 1)%nat) (score result) (rrf index).

(** The entry already in the map, updated in place.  The snippet test
    reads [vectorScore] after it was overwritten with the result's score. *)
Definition mergeVector (existing : fused) (result : SearchResult)
           (index : nat) : fused :=
  let vscore := score result in
  let keep := base existing in
  let snip :=
    if Qlt_bool vscore (score result) || (snippet keep =? "")%string
    then snippet result else snippet keep in
  mkFused (mkResult (id keep) (path keep) (title keep) (r_collection keep)
                    snip (score keep))
          (textRank existing) (textScore existing)
          (Some (index + 1)%nat) vscore
          (rrfScore existing + rrf index).

Definition addVector (m : list (string * fused)) (result : SearchResult)
           (index : nat) : list (string * fused) :=
  match map_get (id result) m with
  | Some existing =>
      map_set (id result) (mergeVector existing result index) m
  | None =>
      map_set (id result) (vectorEntry result index) m
  end.

(** Truthiness of a rank: [null] and [0] are falsy. *)
Definition truthy (r : option nat) : bool :=
  match r with
  | Some (S _) => true
  | _ => false
  end.

Definition is_first (r : option nat) : bool :=
  match r with
  | Some 1%nat => true
  | _ => false
  end.

(** [finalScore] before it is clamped. *)
Definition boosted (result : fused) : Q :=
  let s0 := rrfScore result in
  let s1 := if truthy (textRank result) && truthy (vectorRank result)
            then s0 * 1.2 else s0 in
  if is_first (textRank result) || is_first (vectorRank result)
  then s1 * 1.1 else s1.

Definition computeFinalScore (result : fused) : Q :=
  Qmin 1 (Qmax 0 (boosted result)).

Definition resultMap (textResults vectorResults : list SearchResult)
  : list (string * fused) :=
  forEach addVector vectorResults (forEach addText textResults []).

(** The record returned for an entry. *)
Definition finalize (result : fused) : SearchResult :=
  let b := base result in
  mkResult (id b) (path b) (title b) (r_collection b) (snippet b)
           (computeFinalScore result).

Definition fuseResults (textResults vectorResults : list SearchResult)
           (query : string) : list SearchResult :=
  map finalize
      (sort_by (fun a b => Qle_bool (rrfScore b) (rrfScore a))
               (map snd (resultMap textResults vectorResults))).

(** [hybridSearch]: [Promise.all] of the two searches rejects when the
    vector search does. *)
Definition hybridSearch `{Backend} `{Embeddings.Natural} (db : Db.t)
           (e : Embeddings.engine) (query : string) (o : options)
  : result (list SearchResult) * Embeddings.engine :=
  let textResults :=
    textSearch db query (mkOptions (limit o * 2) (collection o) 0) in
  match vectorSearch db e query (mkOptions (limit o * 2) (collection o) 0) with
  | (Throw err, e') => (Throw err, e')
  | (Ok vectorResults, e') =>
      let combined := fuseResults textResults vectorResults query in
      (Ok (firstn (limit o)
                  (filter (fun result => Qle_bool (minScore o) (score result))
                          combined)),
       e')
  end.

(** [prepareTextForEmbedding]: the title, if any, on a line of its own
    before the content; at most 8000 characters. *)
Definition newline : string := String (ascii_of_nat 10) EmptyString.

Definition prepareTextForEmbedding (title content : string) : string :=
  let head := match title with
              | EmptyString => EmptyString
              | _ => (title ++ newline)%string
              end in
  substring 0 (80 * 100) (head ++ content)%string.

(** [generateEmbeddings]: for every document, or with [force = false] for
    every document that has no embedding, the [try] block embeds the text
    and stores the vector; the [catch] logs the error and the loop goes
    on. *)
Definition has_embedding (embs : list Embedding) (id : string) : bool :=
  existsb (fun e => (emb_document_id e =? id)%string) embs.

Definition embedDocument `{Backend} `{Embeddings.Natural}
           (st : Db.t * Embeddings.engine) (doc : Document)
  : Db.t * Embeddings.engine :=
  let text := prepareTextForEmbedding (doc_title doc) (doc_content doc) in
  match Embeddings.embed (snd st) text with
  | (Ok embedding, e') =>
      (addEmbedding (fst st) (mkEmbedding (doc_id doc) (stringify embedding)),
       e')
  | (Throw _, e') => (fst st, e')
  end.

Definition generateEmbeddings `{Backend} `{Embeddings.Natural} (db : Db.t)
           (e : Embeddings.engine) (force : bool)
  : Db.t * Embeddings.engine :=
  let todo :=
    if force then documents db
    else filter (fun d => negb (has_embedding (embeddings db) (doc_id d)))
                (documents db) in
  fold_left embedDocument todo (db, e).

End Search.

(** ** Notions used to state the properties *)

Module Notions.
Import Db.

Definition is_hex_char (c : ascii) : bool :=
  existsb (Ascii.eqb c) (list_ascii_of_string "0123456789abcdef").

(** Reading a hexadecimal numeral back. *)
Definition hex_value (c : ascii) : Z :=
  match index 0 (String c EmptyString) "0123456789abcdef" with
  | Some i => Z.of_nat i
  | None => 0
  end.

Fixpoint unhex_from (acc : Z) (s : string) : Z :=
  match s with
  | EmptyString => acc
  | String c rest => unhex_from (acc * 16 + hex_value c) rest
  end.

(** The first 32 bits of the digest behind a document id. *)
Definition first_digest_word (filePath : string) (modifiedTime : Z) : Z :=
  Sha256.ra
    (Sha256.digest
       (Sha256.bytes_of_string
          (filePath ++ Collections.toString modifiedTime)%string))
  mod 2 ^ 32.



(** A document as the loop of [indexCollection] builds it from one of the
    matched files. *)
Definition fresh_from `{Collections.FileSystem} (collection : Collection)
           (files : list string) (d : Document) : Prop :=
  doc_collection d = col_name collection /\
  In (doc_path d) files /\
  doc_id d = Collections.generateDocumentId (doc_path d) (doc_modified_at d) /\
  exists st, Collections.statSync (doc_path d) = Some st /\
             doc_modified_at d = Qfloor (Collections.mtimeMs st) /\
             doc_size d = Collections.size st.

(** The database a call leaves behind, [db] itself when it threw. *)
Definition db_after {A : Type} (db : Db.t) (r : result (Db.t * A)) : Db.t :=
  match r with
  | Ok (db', _) => db'
  | Throw _ => db
  end.

(** The first result with a given id, and its 0-based position. *)
Fixpoint lookup_from (index : nat) (d : string)
         (results : list Search.SearchResult)
  : option (nat * Search.SearchResult) :=
  match results with
  | [] => None
  | r :: rest =>
      if (Search.id r =? d)%string then Some (index, r)
      else lookup_from (S index) d rest
  end.

Definition lookup := lookup_from 0.

(** The 1-based rank of a document in a result list, if it is there. *)
Definition rank_in (d : string) (results : list Search.SearchResult)
  : option nat :=
  option_map (fun p => S (fst p)) (lookup d results).

(** The fused score in the words of the specification:
    [weight * 1/(60 + rank)] per list, times 1.2 in both lists, times 1.1
    at rank 1 of either, clamped to [0, 1]. *)
Definition contribution (weight : Q) (rank : option nat) : Q :=
  match rank with
  | Some r => (weight * (1 / inject_Z (Z.of_nat (60 + r))))%Q
  | None => 0%Q
  end.

Definition unclamped_spec (rt rv : option nat) : Q :=
  let total := (contribution 2 rt + contribution 1 rv)%Q in
  let both :=
    match rt, rv with
    | Some _, Some _ => (total * 1.2)%Q
    | _, _ => total
    end in
  match rt, rv with
  | Some 1%nat, _ | _, Some 1%nat => (both * 1.1)%Q
  | _, _ => both
  end.

Definition fused_spec (rt rv : option nat) : Q :=
  Qmin 1 (Qmax 0 (unclamped_spec rt rv)).

(** The entry of [resultMap] for a document, from its positions in the two
    lists. *)
Definition entry_of (T V : list Search.SearchResult) (d : string)
  : option Search.fused :=
  match lookup d V, lookup d T with
  | Some (j, rv), Some (i, rt) =>
      Some (Search.mergeVector (Search.textEntry rt i) rv j)
  | Some (j, rv), None => Some (Search.vectorEntry rv j)
  | None, Some (i, rt) => Some (Search.textEntry rt i)
  | None, None => None
  end.

(** [1/(60 + rank)] at the 0-based position [i], of rank [i + 1]. *)
Definition share (i : nat) : Q := (1 / inject_Z (Z.of_nat (60 + S i)))%Q.

(** The largest fused score: rank 1 in both lists. *)
Definition top_score : Q := ((3 # 61) * 1.2 * 1.1)%Q.


(** The engine after [embed] was called with each of the texts in turn. *)
Definition after_calls `{Embeddings.Natural} (e : Embeddings.engine)
           (texts : list string) : Embeddings.engine :=
  fold_left (fun e text => snd (Embeddings.embed e text)) texts e.

(** The stores the program reaches from an empty database: by registering
    a collection, indexing one, removing one, cleaning up (as [update] does
    after its indexing passes) and generating embeddings, whatever the
    files, the search backend and the text library are. *)
Inductive reachable : Db.t -> Prop :=
| reach_empty : reachable Db.empty
| reach_addCollection (db : Db.t) (name path mask : string) :
    reachable db -> reachable (addCollection db name path mask)
| reach_indexCollection (fs : Collections.FileSystem) (db : Db.t)
                        (name : string) :
    reachable db ->
    reachable (db_after db (Collections.indexCollection db name))
| reach_remove (db : Db.t) (name : string) :
    reachable db -> reachable (fst (Collections.remove db name))
| reach_cleanup (db : Db.t) : reachable db -> reachable (cleanup db)
| reach_generateEmbeddings (backend : Search.Backend)
                           (natural : Embeddings.Natural) (db : Db.t)
                           (e : Embeddings.engine) (force : bool) :
    reachable db ->
    reachable (fst (Search.generateEmbeddings db e force)).

(** The score a result list gives to a document. *)
Definition scoreOf (d : string) (results : list Search.SearchResult)
  : option Q :=
  option_map Search.score
             (find (fun r => (Search.id r =? d)%string) results).

End Notions.

(** ** Sample data *)

Module Fixtures.
Import Db Collections Notions.

(** A disk: for every matched path, what [statSync] and [readFileSync]
    return ([None]: they throw). *)
Definition disk : Type := list (string * (option Stats * option string)).

Definition disk_entry (d : disk) (filePath : string)
  : option (option Stats * option string) :=
  option_map snd (find (fun e => (fst e =? filePath)%string) d).

(** The file system of a disk, around any total parser, given by the title
    and the cleaned content it extracts. *)
Definition fs_of (title_of clean_of : string -> string -> string) (d : disk)
  : FileSystem :=
  {| glob := fun _ => map fst d;
     statSync := fun p => match disk_entry d p with
                          | Some (st, _) => st
                          | None => None
                          end;
     readFileSync := fun p => match disk_entry d p with
                              | Some (_, text) => text
                              | None => None
                              end;
     parseMarkdownFile :=
       fun content p => Some (title_of content p, clean_of content p) |}.

Definition file (p : string) (mtime : Z) (text : string)
  : string * (option Stats * option string) :=
  (p, (Some (mkStats (inject_Z mtime) (Z.of_nat (String.length text))),
       Some text)).

Definition notes_db : Db.t :=
  addCollection Db.empty "notes" "/notes" "**/*.md".

(** One file, then the same file touched (content unchanged). *)
Definition disk_v1 : disk := [file "/notes/a.md" 100 "hello"].
Definition disk_v2 : disk := [file "/notes/a.md" 200 "hello"].


(** A store with one collection, one document and its embedding. *)
Definition one_doc_db : Db.t :=
  Db.mk [mkCollection "notes" "/notes" "**/*.md"]
        [mkDocument "0a1b2c3d" "/notes/a.md" "A" "hello" "notes" 5 100]
        [mkEmbedding "0a1b2c3d" "[0.6,0.8]"].

(** Two synthetic result lists sharing the id ["b"]. *)
Definition hit (d : string) (s : Q) : Search.SearchResult :=
  Search.mkResult d ("/notes/" ++ d)%string d "notes" "" s.

Definition keyword_hits : list Search.SearchResult :=
  [hit "a" 0.9; hit "b" 0.5].

Definition vector_hits : list Search.SearchResult :=
  [hit "b" 0.8; hit "c" 0.7].

(** Three notes that all match the query, with the raw [bm25] values below
    (negative, smaller is better, as FTS5 reports them), the weakest
    stored first.  In [search_db] the ids are words, as little numerals as
    the hash ids of the indexer are; in [numbered_db] the id of a note is
    the numeral of its rowid. *)
Definition note (d title : string) : Document :=
  mkDocument d ("/notes/" ++ title ++ ".md")%string title "api key rotation"
             "notes" 16 100.

Definition search_db : Db.t :=
  Db.mk [mkCollection "notes" "/notes" "**/*.md"]
        [note "weak" "weak"; note "fair" "fair"; note "strong" "strong"]
        [].

Definition numbered_db : Db.t :=
  Db.mk [mkCollection "notes" "/notes" "**/*.md"]
        [note "1" "weak"; note "2" "fair"; note "3" "strong"]
        [].

Definition sample_raw (d : Document) : Q :=
  if (doc_title d =? "weak")%string then - (2 # 10)
  else if (doc_title d =? "fair")%string then - (4 # 10)
  else - (8 # 1).

Definition sample_rowid (d : Document) : Z :=
  if (doc_title d =? "weak")%string then 1
  else if (doc_title d =? "fair")%string then 2
  else 3.

(** The sample backend decides [text = integer] for the ids of the two
    sample stores, strings of decimal digits and words: a string of digits
    equals the integer it denotes, a word equals no integer (SQLite reads
    a TEXT as a number, where it is one, before it compares it with an
    integer). *)
Definition digit_value (c : ascii) : option Z :=
  let n := nat_of_ascii c in
  if ((48 <=? n) && (n <=? 57))%nat then Some (Z.of_nat (n - 48)) else None.

Fixpoint numeral_from (acc : Z) (s : string) : option Z :=
  match s with
  | EmptyString => Some acc
  | String c rest =>
      match digit_value c with
      | Some v => numeral_from (acc * 10 + v) rest
      | None => None
      end
  end.

Definition numeral (s : string) : option Z :=
  match s with
  | EmptyString => None
  | _ => numeral_from 0 s
  end.

Definition sample_backend : Search.Backend :=
  {| Search.fts_match := fun _ _ => true;
     Search.bm25 := fun _ _ d => sample_raw d;
     Search.highlight := fun _ d => doc_content d;
     Search.rowid := sample_rowid;
     Search.text_equals_integer :=
       fun text z => match numeral text with
                     | Some n => (n =? z)%Z
                     | None => false
                     end;
     Search.vector_distance_cosine :=
       fun stored _ => if (stored =? "[1,1]")%string then 1 # 10 else 1 # 2;
     Search.stringify := fun _ => "[]"%string;
     Search.cleanSnippet := fun s => s;
     Search.extractSnippet := fun content _ => content |}.

(** A file system whose parser takes the path as title and leaves the
    content as it is. *)
Definition plain_fs (d : disk) : FileSystem :=
  fs_of (fun _ filePath => filePath) (fun content _ => content) d.

(** An instance of the text library: stems are the tokens themselves, the
    TF-IDF weight follows the formula of [natural] (term frequency times
    [1 + ln (N / (1 + df))]), and features are hashed by their length. *)
Definition occurrences (term : string) (doc : list string) : nat :=
  List.length (filter (String.eqb term) doc).

Definition sample_tfidf (docs : list (list string)) (term : string)
           (d : nat) : R :=
  let df := List.length
              (filter (fun doc => negb (occurrences term doc =? 0)%nat) docs) in
  (INR (occurrences term (nth d docs []))
   * (1 + ln (INR (List.length docs) / (1 + INR df))))%R.

Definition sample_natural : Embeddings.Natural :=
  {| Embeddings.stem := fun token => token;
     Embeddings.tfidf := sample_tfidf;
     Embeddings.hashFeature := String.length |}.

End Fixtures.

(** ** [CollectionManager.update] *)

Module Maintenance.
Import Db Collections.

(** One turn of the loop over the rows of [getCollections]: an error of
    [indexCollection] ends the loop and is the error of [update]. *)
Definition indexNext `{FileSystem} (acc : result Db.t)
           (collection : Collection * nat) : result Db.t :=
  match acc with
  | Throw e => Throw e
  | Ok db =>
      match indexCollection db (col_name (fst collection)) with
      | Ok (db', _) => Ok db'
      | Throw e => Throw e
      end
  end.

(** [update]: every collection listed at the start is indexed again, then
    the store is cleaned up. *)
Definition update `{FileSystem} (db : Db.t) : result Db.t :=
  match fold_left indexNext (getCollections db) (Ok db) with
  | Ok db' => Ok (cleanup db')
  | Throw e => Throw e
  end.

End Maintenance.

(** ** Strings: the JavaScript and SQL string operations used below *)

Module Text.
Import Embeddings.

(** [String.prototype.toLowerCase] on ASCII. *)
Definition lower (s : string) : string :=
  string_of_list_ascii (map toLowerCase (list_ascii_of_string s)).

(** [s.includes(term)] *)
Fixpoint includes (s term : string) : bool :=
  prefix term s ||
  match s with
  | EmptyString => false
  | String _ rest => includes rest term
  end.

(** [s.split(/\s+/)]: the pieces between the maximal runs of white space;
    a run at either end leaves an empty piece there, and the result is never
    empty. *)
Fixpoint split_whitespace (l : list ascii) : list string :=
  match l with
  | [] => [EmptyString]
  | c :: t =>
      let pieces := split_whitespace t in
      if is_space c then
        match t with
        | d :: _ => if is_space d then pieces else EmptyString :: pieces
        | [] => EmptyString :: pieces
        end
      else
        match pieces with
        | piece :: rest => String c piece :: rest
        | [] => [String c EmptyString]
        end
  end.

(** [s.split(sep)] for a separator of one character. *)
Fixpoint split_on (sep : ascii) (s : string) : list string :=
  match s with
  | EmptyString => [EmptyString]
  | String c rest =>
      if Ascii.eqb c sep then EmptyString :: split_on sep rest
      else
        match split_on sep rest with
        | piece :: pieces => String c piece :: pieces
        | [] => [String c EmptyString]
        end
  end.

(** [array.slice(start, end)]: a negative index counts from the end, and
    both are brought into the array. *)
Definition slice_index (len i : Z) : Z :=
  if i <? 0 then Z.max (len + i) 0 else Z.min i len.

Definition slice {A : Type} (start end_ : Z) (l : list A) : list A :=
  let len := Z.of_nat (List.length l) in
  let k := slice_index len start in
  let final := slice_index len end_ in
  firstn (Z.to_nat (final - k)) (skipn (Z.to_nat k) l).

(** The SQL operator [text LIKE pattern] of SQLite: [%] stands for any run
    of characters, [_] for any one character, and letters match without
    regard to their ASCII case. *)
Definition same_letter (a b : ascii) : bool :=
  Ascii.eqb (toLowerCase a) (toLowerCase b).

Fixpoint like (pattern text : list ascii) : bool :=
  match pattern with
  | [] => match text with [] => true | _ :: _ => false end
  | p :: pattern' =>
      if Ascii.eqb p "%" then
        (fix any (text : list ascii) : bool :=
           like pattern' text ||
           match text with
           | [] => false
           | _ :: text' => any text'
           end) text
      else
        match text with
        | [] => false
        | c :: text' =>
            (Ascii.eqb p "_" || same_letter p c) && like pattern' text'
        end
  end.

End Text.

(** ** search.js: [getDocument] *)

Module Lookup.
Import Db Text.

(** The options [{maxLines, fromLine}]: [maxLines] is [null] by default,
    [fromLine] an integer. *)
Record getOptions : Type := mkGetOptions
  { maxLines : option Z; fromLine : Z }.

Definition default_get : getOptions := mkGetOptions None 1.

(** The object returned for a document. *)
Record view : Type := mkView
  { v_id : string;
    v_path : string;
    v_title : string;
    v_collection : string;
    v_content : string }.

(** Truthiness of [maxLines]: [null] and [0] are falsy. *)
Definition given (n : option Z) : bool :=
  match n with
  | Some n => negb (n =? 0)
  | None => false
  end.

(** [WHERE path = ? OR path LIKE ?] with the parameters [identifier] and
    ['%' + identifier]. *)
Definition path_matches (identifier : string) (d : Document) : bool :=
  (doc_path d =? identifier)%string ||
  like ("%"%char :: list_ascii_of_string identifier)
       (list_ascii_of_string (doc_path d)).

(** The row read by [.get]: the first in rowid order. *)
Definition findRow (db : Db.t) (identifier : string) : option Document :=
  match identifier with
  | String "#" rest => find (fun d => (doc_id d =? rest)%string) (documents db)
  | _ => find (path_matches identifier) (documents db)
  end.

(** The lines [fromLine .. fromLine + maxLines - 1] of the content. *)
Definition window (content : string) (o : getOptions) : string :=
  if given (maxLines o) || (1 <? fromLine o) then
    let lines := split_on (ascii_of_nat 10) content in
    let start := fromLine o - 1 in
    let end_ :=
      match maxLines o with
      | Some n => if n =? 0 then Z.of_nat (List.length lines) else start + n
      | None => Z.of_nat (List.length lines)
      end in
    String.concat Search.newline (slice start end_ lines)
  else content.

Definition getDocument (db : Db.t) (identifier : string) (o : getOptions)
  : option view :=
  match findRow db identifier with
  | None => None
  | Some doc =>
      Some (mkView (doc_id doc) (doc_path doc) (doc_title doc)
                   (doc_collection doc) (window (doc_content doc) o))
  end.

End Lookup.

(** ** The nearest candidates ([findSimilar]), with the cosine similarity
    taken over the reals *)

Module Similarity.

Local Open Scope R_scope.

(** The three sums of the loop: dot product and the two squared norms. *)
Definition sums : Type := (R * R * R)%type.

Definition accumulate (s : sums) (xy : R * R) : sums :=
  let '(dotProduct, normA, normB) := s in
  let (x, y) := xy in
  (dotProduct + x * y, normA + x * x, normB + y * y).

Definition cosineSimilarity (vecA vecB : list R) : R :=
  if negb (List.length vecA =? List.length vecB)%nat then 0
  else
    let '(dotProduct, normA, normB) :=
      fold_left accumulate (combine vecA vecB) (0, 0, 0) in
    if Req_dec_T normA 0 then 0
    else if Req_dec_T normB 0 then 0
    else dotProduct / (sqrt normA * sqrt normB).




End Similarity.

(** ** Cosine similarity and normalization on binary64 numbers

    The functions whose results depend on the rounding of the doubles they
    compute with, on the numbers of JavaScript and SQLite themselves. *)

Module Binary64.
Import Floats.

Local Open Scope float_scope.

(** The three sums of the loop of [cosineSimilarity]. *)
Definition sums : Type := (float * float * float)%type.

Definition accumulate (s : sums) (xy : float * float) : sums :=
  let '(dotProduct, normA, normB) := s in
  let (x, y) := xy in
  (dotProduct + x * y, normA + x * x, normB + y * y).

(** [cosineSimilarity], the same function in [embeddings.js] and in
    [db.js]. *)
Definition cosineSimilarity (vecA vecB : list float) : float :=
  if negb (List.length vecA =? List.length vecB)%nat then 0
  else
    let '(dotProduct, normA, normB) :=
      fold_left accumulate (combine vecA vecB) (0, 0, 0) in
    if (normA =? 0) || (normB =? 0) then 0
    else dotProduct / (sqrt normA * sqrt normB).

(** The SQL function [vector_distance_cosine] registered by
    [registerVectorFunctions], on the outcome of the two [JSON.parse]
    calls ([None]: the text is no JSON). *)
Definition vector_distance_cosine (a b : option (list float)) : float :=
  match a, b with
  | Some vecA, Some vecB => 1 - cosineSimilarity vecA vecB
  | _, _ => 1
  end.

(** The score column of [vectorSearch]:
    [1.0 / (1.0 + vector_distance_cosine(e.embedding, ?))]. *)
Definition vectorScore (distance : float) : float := 1 / (1 + distance).

(** [normalizeVector] and the magnitude it divides by. *)
Definition magnitude (vector : list float) : float :=
  sqrt (fold_left (fun sum val => sum + val * val) vector 0).

Definition normalizeVector (vector : list float) : list float :=
  if magnitude vector =? 0 then vector
  else map (fun val => val / magnitude vector) vector.

(** [x === 0]: a zero of either sign. *)
Definition is_zero (x : float) : bool := x =? 0.

End Binary64.

(** ** [SimpleSearchEngine]: scoring of the matches of [grep] *)

Module Grep.
Import Text.

Local Open Scope Q_scope.

(** A match as [parseSearchResult] builds it. *)
Record hit : Type := mkHit
  { h_id : string;
    h_path : string;
    h_fullPath : string;
    h_line : Z;
    h_title : string;
    h_content : string;
    h_collection : string;
    h_score : Q }.

Definition with_score (result : hit) (s : Q) : hit :=
  mkHit (h_id result) (h_path result) (h_fullPath result) (h_line result)
        (h_title result) (h_content result) (h_collection result) s.

(** The points of one term: 10 in the title, 1 in the content. *)
Definition addTerm (title content : string) (score : nat) (term : string)
  : nat :=
  let score := if includes title term then (score + 10)%nat else score in
  if includes content term then (score + 1)%nat else score.

Definition points (queryTerms : list string) (result : hit) : nat :=
  let content := lower (h_content result) in
  let title := lower (h_title result) in
  let score := fold_left (addTerm title content) queryTerms 0%nat in
  let matchedTerms := List.length (filter (includes content) queryTerms) in
  (score + matchedTerms * 2)%nat.

Definition queryTerms_of (query : string) : list string :=
  split_whitespace (list_ascii_of_string (lower query)).

Definition scoreResults (results : list hit) (query : string) : list hit :=
  let queryTerms := queryTerms_of query in
  sort_by (fun a b => Qle_bool (h_score b) (h_score a))
          (map (fun result =>
                  with_score result
                    (Qmin 1 (inject_Z (Z.of_nat (points queryTerms result))
                             / inject_Z (Z.of_nat (List.length queryTerms * 5)))))
               results).

(** [generateId]: the last eight characters of the path followed by the
    line number. *)
Definition generateId (filePath : string) (lineNumber : Z) : string :=
  let hash := (filePath ++ Collections.toString lineNumber)%string in
  let start := (String.length hash - 8)%nat in
  substring start (String.length hash - start) hash.

End Grep.
(** ** [CollectionManager.parseMarkdownFile] *)

Module Markdown.
Import Embeddings Text.

(** [path.basename(filePath, path.extname(filePath))], from Node's [path]
    module. *)
Class PathLib : Type := { stem_of : string -> string }.

(** [s.trim()] *)
Definition trimmed (s : string) : string :=
  string_of_list_ascii (trim (list_ascii_of_string s)).

(** Line terminators of the regular expressions, blanks ([[ \t]]) and the
    two quotes. *)
Definition is_line_end (c : ascii) : bool :=
  (code c =? 10)%nat || (code c =? 13)%nat.
Definition is_blank (c : ascii) : bool :=
  (code c =? 32)%nat || (code c =? 9)%nat.
Definition is_quote (c : ascii) : bool :=
  (code c =? 39)%nat || (code c =? 34)%nat.

(** [line.match(/^=+$/)] *)
Definition is_underline (line : string) : bool :=
  match list_ascii_of_string line with
  | [] => false
  | l => forallb (Ascii.eqb "=") l
  end.

(** [line.match(/^title:\s*(.+)$/i)] on a trimmed line, and the title,
    which is the line without that beginning and without single and double
    quotes: the line starts with the word title and a colon, in either
    case, and what follows the white space after it is not empty and holds
    no line terminator. *)
Definition frontmatter_title (line : string) : option string :=
  let l := list_ascii_of_string line in
  let head := firstn 6 l in
  if (List.length head =? 6)%nat
     && forallb (fun pc => same_letter (fst pc) (snd pc))
                (combine (list_ascii_of_string "title:") head)
  then
    match trim_start (skipn 6 l) with
    | [] => None
    | rest =>
        if existsb is_line_end rest then None
        else Some (string_of_list_ascii
                     (filter (fun c => negb (is_quote c)) rest))
    end
  else None.

(** The loop over the first five lines: the title found, if any, and
    [contentStart]. *)
Fixpoint findTitle (lines : list string) (i : nat) (title : option string)
  : option string * nat :=
  match lines with
  | [] => (title, 0%nat)
  | raw :: rest =>
      if (5 <=? i)%nat then (title, 0%nat)
      else
        let line := trimmed raw in
        if prefix "# " line
        then (Some (trimmed (substring 2 (String.length line) line)),
              (i + 1)%nat)
        else if match rest with
                | next :: _ => is_underline (trimmed next)
                | [] => false
                end
        then (Some line, (i + 2)%nat)
        else findTitle rest (i + 1)
                       (match frontmatter_title line with
                        | Some t => Some t
                        | None => title
                        end)
  end.

(** The title made from the file name: [replace(/[-_]/g, ' ')] and
    [replace(/\b\w/g, l => l.toUpperCase())]. *)
Definition toUpperCase (c : ascii) : ascii :=
  if is_lower c then ascii_of_nat (code c - 32) else c.

Fixpoint capitalize (after_word : bool) (l : list ascii) : list ascii :=
  match l with
  | [] => []
  | c :: t =>
      (if is_word c && negb after_word then toUpperCase c else c)
        :: capitalize (is_word c) t
  end.

Definition fallbackTitle (stem : string) : string :=
  string_of_list_ascii
    (capitalize false
       (map (fun c => if (code c =? 45)%nat || (code c =? 95)%nat
                      then " "%char else c)
            (list_ascii_of_string stem))).

(** The front matter: a content that starts with three hyphens loses
    everything up to and including the first line feed followed by three
    hyphens, looked for from the fourth character on. *)
Definition dropFrontmatter (s : string) : string :=
  if prefix "---" s then
    match index 3 (Search.newline ++ "---") s with
    | Some endIndex => substring (endIndex + 4) (String.length s) s
    | None => s
    end
  else s.

(** [replace(/\r\n/g, '\n')] *)
Fixpoint unix_lines (l : list ascii) : list ascii :=
  match l with
  | [] => []
  | c :: t =>
      if (code c =? 13)%nat
         && match t with
            | d :: _ => (code d =? 10)%nat
            | [] => false
            end
      then unix_lines t
      else c :: unix_lines t
  end.

(** [replace(/\n{3,}/g, '\n\n')]; [run] counts the line feeds already
    written for the run at hand. *)
Fixpoint squeeze (run : nat) (l : list ascii) : list ascii :=
  match l with
  | [] => []
  | c :: t =>
      if (code c =? 10)%nat
      then if (run <? 2)%nat then c :: squeeze (S run) t else squeeze run t
      else c :: squeeze 0 t
  end.

(** [replace(/[ \t]+$/gm, '')]: the blanks that stand before a line
    terminator or at the end go. *)
Fixpoint strip_blanks (l : list ascii) : list ascii :=
  match l with
  | [] => []
  | c :: t =>
      let rest := strip_blanks t in
      if is_blank c
         && match rest with
            | d :: _ => is_line_end d
            | [] => true
            end
      then rest
      else c :: rest
  end.

Definition cleanUp (s : string) : string :=
  string_of_list_ascii
    (trim (strip_blanks
             (squeeze 0 (unix_lines (list_ascii_of_string (dropFrontmatter s)))))).

Definition parseMarkdownFile `{PathLib} (content filePath : string)
  : string * string :=
  let lines := split_on (ascii_of_nat 10) content in
  let (found, contentStart) := findTitle lines 0 None in
  let title :=
    match found with
    | Some (String c t) => String c t
    | _ => fallbackTitle (stem_of filePath)
    end in
  (title, cleanUp (String.concat Search.newline (skipn contentStart lines))).

End Markdown.

(** ** Further notions used to state the properties *)

Module Terms.
Import Db Collections.




(** The lines of a text. *)
Definition lines_of (content : string) : list string :=
  Text.split_on (ascii_of_nat 10) content.

(** The characters that [preprocessText] keeps: lower-case letters, digits
    and the underscore. *)
Definition plain (c : ascii) : bool :=
  Embeddings.is_lower c || Embeddings.is_digit c
  || (Embeddings.code c =? 95)%nat.

(** Runs of kept characters separated by single blanks; [after_blank]
    says that a blank may not come next.  [loose] lets the text end, and
    with [after_blank = false] begin, with a blank; [spaced] does not. *)
Fixpoint loose (after_blank : bool) (l : list ascii) : bool :=
  match l with
  | [] => true
  | c :: t =>
      if Ascii.eqb c " " then negb after_blank && loose true t
      else plain c && loose false t
  end.

Fixpoint spaced (after_blank : bool) (l : list ascii) : bool :=
  match l with
  | [] => negb after_blank
  | c :: t =>
      if Ascii.eqb c " " then negb after_blank && spaced true t
      else plain c && spaced false t
  end.

(** A normalized text: empty, or words of kept characters with one blank
    between neighbours and none at either end. *)
Definition normal (s : string) : bool :=
  match list_ascii_of_string s with
  | [] => true
  | l => spaced true l
  end.

(** Dropping the white space at the end of a text. *)
Fixpoint strip_end (l : list ascii) : list ascii :=
  match l with
  | [] => []
  | c :: t =>
      match strip_end t with
      | [] => if Embeddings.is_space c then [] else [c]
      | rest => c :: rest
      end
  end.

(** No blank stands right before a line terminator or at the end. *)
Fixpoint tidy (l : list ascii) : bool :=
  match l with
  | [] => true
  | c :: t =>
      negb (Markdown.is_blank c
            && match t with
               | d :: _ => Markdown.is_line_end d
               | [] => true
               end)
      && tidy t
  end.

(** None of the first [n] lines is a heading, is followed by an underline
    of equal signs, or gives a front-matter title. *)
Fixpoint silent (n : nat) (lines : list string) : bool :=
  match n, lines with
  | O, _ => true
  | _, [] => true
  | S k, raw :: rest =>
      negb (prefix "# " (Markdown.trimmed raw))
      && negb (match rest with
               | next :: _ => Markdown.is_underline (Markdown.trimmed next)
               | [] => false
               end)
      && match Markdown.frontmatter_title (Markdown.trimmed raw) with
         | Some _ => false
         | None => true
         end
      && silent k rest
  end.

(** A text of ASCII characters only. *)
Definition ascii_text (s : string) : bool :=
  forallb (fun c => (nat_of_ascii c <? 128)%nat) (list_ascii_of_string s).

End Terms.
(** ** Further sample data *)

Module Samples.
Import Db Collections Notions Fixtures.


End Samples.

(* ================================================================== *)
(** * Part II: properties *)
(* ================================================================== *)

(** ** Document ids *)

Module DocumentIdFacts.
Import Collections Notions.

Example sha256_abc :
  Sha256.hexdigest "abc" =
  "ba7816bf8f01cfea414140de5dae2223b00361a396177a9cb410ff61f20015ad".
Proof. vm_compute. reflexivity. Qed.

Example sha256_empty :
  Sha256.hexdigest "" =
  "e3b0c44298fc1c149afbf4c8996fb92427ae41e4649b934ca495991b7852b855".
Proof. vm_compute. reflexivity. Qed.

(** A message of two blocks. *)
Example sha256_two_blocks :
  Sha256.hexdigest
    "abcdbcdecdefdefgefghfghighijhijkijkljklmklmnlmnomnopnopq" =
  "248d6a61d20638b8e5c026930c3e6039a33ce45964ff2167f6ecedd419db06c1".
Proof. vm_compute. reflexivity. Qed.

Lemma hex_digit_is_hex (x : Z) : is_hex_char (Sha256.hex_digit x) = true.
Proof.
  unfold Sha256.hex_digit.
  assert (Hk : (Z.to_nat (Z.land x 0xF) < 16)%nat).
  { change 0xF with (Z.ones 4). rewrite Z.land_ones by lia.
    pose proof (Z.mod_pos_bound x (2 ^ 4) ltac:(lia)). lia. }
  set (k := Z.to_nat (Z.land x 0xF)) in *. clearbody k.
  do 16 (destruct k as [|k]; [reflexivity|]). lia.
Qed.

Lemma substring_8_hex_of_regs (r : Sha256.regs) :
  substring 0 8 (Sha256.hex_of_regs r) = Sha256.hex_word 8 (Sha256.ra r).
Proof. destruct r. reflexivity. Qed.

Lemma hex_word_length (n : nat) (x : Z) :
  String.length (Sha256.hex_word n x) = n.
Proof. induction n; simpl; congruence. Qed.

Lemma hex_word_is_hex (n : nat) (x : Z) :
  forallb is_hex_char (list_ascii_of_string (Sha256.hex_word n x)) = true.
Proof.
  induction n as [|n IH]; simpl; [reflexivity|].
  rewrite hex_digit_is_hex. exact IH.
Qed.

(** The id is the hexadecimal form of the first digest word. *)
Lemma generateDocumentId_first_word (filePath : string) (m : Z) :
  generateDocumentId filePath m =
  Sha256.hex_word 8
    (Sha256.ra (Sha256.digest
                  (Sha256.bytes_of_string (filePath ++ toString m)%string))).
Proof.
  unfold generateDocumentId, Sha256.hexdigest.
  apply substring_8_hex_of_regs.
Qed.

Lemma append_inj_l (p a b : string) : (p ++ a = p ++ b)%string -> a = b.
Proof.
  induction p as [|c p IH]; simpl; intros E; [exact E|].
  injection E as E. auto.
Qed.

Lemma to_int_not_nil (z : Z) :
  Z.to_int z <> Decimal.Pos Decimal.Nil /\ Z.to_int z <> Decimal.Neg Decimal.Nil.
Proof.
  destruct z; simpl; split; try discriminate; intros E; injection E as E;
    exact (DecimalPos.Unsigned.to_uint_nonnil _ E).
Qed.

Lemma toString_inj (a b : Z) : toString a = toString b -> a = b.
Proof.
  unfold toString. intros E.
  apply DecimalZ.to_int_inj.
  destruct (to_int_not_nil a) as [Ha1 Ha2].
  destruct (to_int_not_nil b) as [Hb1 Hb2].
  pose proof (NilZero.isi _ Ha1 Ha2) as Ia.
  pose proof (NilZero.isi _ Hb1 Hb2) as Ib.
  rewrite E in Ia. congruence.
Qed.

(** C5, as stated, fails: the id keeps 32 bits of the digest, and two
    modification times of one path can share them. *)
Lemma generateDocumentId_collision :
  ~ (forall (filePath : string) (m1 m2 : Z),
        m1 <> m2 ->
        generateDocumentId filePath m1 <> generateDocumentId filePath m2).
Proof.
  intros H.
  apply (H "/notes/a.md" 1700000012523 1700000130523); [lia|].
  vm_compute. reflexivity.
Qed.

Lemma hex_value_digit (x : Z) : hex_value (Sha256.hex_digit x) = x mod 16.
Proof.
  unfold Sha256.hex_digit.
  change 0xF with (Z.ones 4). rewrite Z.land_ones by lia.
  change (2 ^ 4) with 16.
  pose proof (Z.mod_pos_bound x 16 ltac:(lia)) as Hb.
  set (k := x mod 16) in *.
  assert (Hk : k = Z.of_nat (Z.to_nat k)) by lia.
  rewrite Hk at 2.
  assert (Hlt : (Z.to_nat k < 16)%nat) by lia.
  generalize dependent (Z.to_nat k). intros n _ Hlt.
  do 16 (destruct n as [|n]; [reflexivity|]). lia.
Qed.

(** Reading back the [n] digits of a word gives its [4 n] low bits. *)
Lemma unhex_hex_word (n : nat) (x : Z) :
  forall acc, unhex_from acc (Sha256.hex_word n x)
              = acc * 16 ^ Z.of_nat n + x mod 16 ^ Z.of_nat n.
Proof.
  induction n as [|n IH]; intros acc.
  - simpl. rewrite Z.mod_1_r. lia.
  - cbn [Sha256.hex_word unhex_from]. rewrite IH, hex_value_digit.
    rewrite Z.shiftr_div_pow2 by lia.
    replace (2 ^ (4 * Z.of_nat n)) with (16 ^ Z.of_nat n)
      by (rewrite Z.pow_mul_r by lia; reflexivity).
    rewrite Nat2Z.inj_succ, Z.pow_succ_r by lia.
    assert (Hp : 0 < 16 ^ Z.of_nat n) by (apply Z.pow_pos_nonneg; lia).
    rewrite (Z.mul_comm 16 (16 ^ Z.of_nat n)).
    rewrite (Z.rem_mul_r x (16 ^ Z.of_nat n) 16) by lia.
    ring.
Qed.

Lemma generateDocumentId_reads_back (filePath : string) (m : Z) :
  unhex_from 0 (generateDocumentId filePath m) = first_digest_word filePath m.
Proof.
  rewrite generateDocumentId_first_word, unhex_hex_word.
  unfold first_digest_word. reflexivity.
Qed.

(** C5 (amended): the id is the first eight lower-case hex digits of the
    SHA-256 of the path followed by the decimal modification time; equal
    (path, modified-at) pairs give equal ids; for a fixed path, another
    modification time gives another hashed text, and the ids differ unless
    the two digests agree on their first 32 bits. *)
Theorem generateDocumentId_hash_of_path_and_mtime :
  forall (filePath : string) (m m' : Z),
    generateDocumentId filePath m =
      substring 0 8 (Sha256.hexdigest (filePath ++ toString m)%string) /\
    String.length (generateDocumentId filePath m) = 8%nat /\
    forallb is_hex_char
            (list_ascii_of_string (generateDocumentId filePath m)) = true /\
    (m = m' -> generateDocumentId filePath m = generateDocumentId filePath m') /\
    (m <> m' ->
       (filePath ++ toString m)%string <> (filePath ++ toString m')%string) /\
    (first_digest_word filePath m <> first_digest_word filePath m' ->
       generateDocumentId filePath m <> generateDocumentId filePath m').
Proof.
  intros filePath m m'. split; [reflexivity|].
  split; [rewrite generateDocumentId_first_word; apply hex_word_length|].
  split; [rewrite generateDocumentId_first_word; apply hex_word_is_hex|].
  split; [intros ->; reflexivity|].
  split.
  - intros Hne E. apply Hne.
    apply toString_inj. exact (append_inj_l _ _ _ E).
  - intros Hne E. apply Hne.
    rewrite <- !generateDocumentId_reads_back, E. reflexivity.
Qed.

Lemma generateDocumentId_hash_of_path_and_mtime_witness :
  100 <> 200 /\
  ("/notes/a.md" ++ toString 100)%string
    <> ("/notes/a.md" ++ toString 200)%string /\
  first_digest_word "/notes/a.md" 100 <> first_digest_word "/notes/a.md" 200 /\
  generateDocumentId "/notes/a.md" 100 <> generateDocumentId "/notes/a.md" 200.
Proof.
  assert (Hm : 100 <> 200) by lia.
  assert (Hw : first_digest_word "/notes/a.md" 100
               <> first_digest_word "/notes/a.md" 200)
    by (vm_compute; discriminate).
  pose proof (generateDocumentId_hash_of_path_and_mtime "/notes/a.md" 100 200)
    as [_ [_ [_ [_ [Htext Hid]]]]].
  split; [exact Hm|]. split; [exact (Htext Hm)|].
  split; [exact Hw|exact (Hid Hw)].
Defined.

End DocumentIdFacts.
(** ** Lists, sorting and maps *)

Module ListFacts.

Lemma filter_keeps_all {A : Type} (f : A -> bool) (l : list A) :
  (forall x, In x l -> f x = true) -> filter f l = l.
Proof.
  induction l as [|a l IH]; simpl; intros Hall; [reflexivity|].
  rewrite (Hall a) by (left; reflexivity).
  f_equal. apply IH. intros x Hx. apply Hall. right. exact Hx.
Qed.

Lemma filter_drops_all {A : Type} (f : A -> bool) (l : list A) :
  (forall x, In x l -> f x = false) -> filter f l = [].
Proof.
  induction l as [|a l IH]; simpl; intros Hall; [reflexivity|].
  rewrite (Hall a) by (left; reflexivity).
  apply IH. intros x Hx. apply Hall. right. exact Hx.
Qed.

Lemma existsb_false_forall {A : Type} (f : A -> bool) (l : list A) :
  existsb f l = false -> forall x, In x l -> f x = false.
Proof.
  induction l as [|a l IH]; simpl; intros E x Hx; [contradiction|].
  apply orb_false_iff in E. destruct E as [Ea El].
  destruct Hx as [<-|Hx]; auto.
Qed.

Lemma insert_by_perm {A : Type} (le : A -> A -> bool) (x : A) (l : list A) :
  Permutation (x :: l) (insert_by le x l).
Proof.
  induction l as [|y l IH]; simpl; [apply Permutation_refl|].
  destruct (le x y); [apply Permutation_refl|].
  eapply perm_trans; [apply perm_swap|]. apply perm_skip. exact IH.
Qed.

Lemma sort_by_perm {A : Type} (le : A -> A -> bool) (l : list A) :
  Permutation l (sort_by le l).
Proof.
  induction l as [|x l IH]; simpl; [apply perm_nil|].
  eapply perm_trans; [|apply insert_by_perm]. apply perm_skip. exact IH.
Qed.

Lemma sort_by_In {A : Type} (le : A -> A -> bool) (l : list A) (x : A) :
  In x (sort_by le l) <-> In x l.
Proof.
  split; apply Permutation_in;
    [apply Permutation_sym|]; apply sort_by_perm.
Qed.

Lemma sort_by_length {A : Type} (le : A -> A -> bool) (l : list A) :
  List.length (sort_by le l) = List.length l.
Proof. symmetry. apply Permutation_length, sort_by_perm. Qed.

Lemma In_firstn {A : Type} (n : nat) (l : list A) (x : A) :
  In x (firstn n l) -> In x l.
Proof.
  intros Hin. rewrite <- (firstn_skipn n l). apply in_or_app. left. exact Hin.
Qed.

(** Sorting by a total and transitive comparison sorts. *)
Section Sorting.
Context {A : Type} (le : A -> A -> bool).
Hypothesis le_total : forall a b, le a b = true \/ le b a = true.
Hypothesis le_trans : forall a b c, le a b = true -> le b c = true -> le a c = true.

Lemma insert_by_sorted (x : A) (l : list A) :
  StronglySorted (fun a b => le a b = true) l -> StronglySorted (fun a b => le a b = true) (insert_by le x l).
Proof.
  induction 1 as [|y l Hl IH Hy]; simpl.
  - constructor; constructor.
  - destruct (le x y) eqn:E.
    + constructor; [constructor; assumption|].
      constructor; [exact E|].
      eapply Forall_impl; [|exact Hy]. intros z Hz.
      exact (le_trans _ _ _ E Hz).
    + constructor; [exact IH|].
      assert (Hyx : le y x = true).
      { destruct (le_total x y) as [H|H]; [congruence|exact H]. }
      eapply (Permutation_Forall (insert_by_perm le x l)).
      constructor; assumption.
Qed.

Lemma sort_by_sorted (l : list A) : StronglySorted (fun a b => le a b = true) (sort_by le l).
Proof.
  induction l as [|x l IH]; simpl; [constructor|].
  apply insert_by_sorted. exact IH.
Qed.
End Sorting.

Lemma StronglySorted_firstn {A : Type} (R : A -> A -> Prop) (n : nat) (l : list A) :
  StronglySorted R l -> StronglySorted R (firstn n l).
Proof.
  intros Hs. revert n. induction Hs as [|x l Hl IH Hx]; intros [|n]; simpl;
    try constructor.
  - apply IH.
  - rewrite Forall_forall in *. intros y Hy. apply Hx.
    exact (In_firstn _ _ _ Hy).
Qed.

Lemma StronglySorted_map {A B : Type} (R : A -> A -> Prop) (R' : B -> B -> Prop)
      (f : A -> B) (l : list A) :
  (forall a b, R a b -> R' (f a) (f b)) ->
  StronglySorted R l -> StronglySorted R' (map f l).
Proof.
  intros Hf. induction 1 as [|x l Hl IH Hx]; simpl; constructor.
  - exact IH.
  - rewrite Forall_forall in *. intros y Hy. apply in_map_iff in Hy.
    destruct Hy as [z [<- Hz]]. apply Hf, Hx, Hz.
Qed.

End ListFacts.
(** ** The embedding engine *)

Module EmbeddingFacts.
Import Embeddings Notions ListFacts.

Local Open Scope R_scope.

(** *** Arrays *)

Lemma set_at_length (i : nat) (f : R -> R) (v : list R) :
  List.length (set_at i f v) = List.length v.
Proof.
  revert i. induction v as [|x v IH]; intros [|i]; simpl; auto.
Qed.

Lemma write_from_length (fs : list R) :
  forall start v, List.length (write_from start fs v) = List.length v.
Proof.
  induction fs as [|x fs IH]; intros start v; simpl; [reflexivity|].
  rewrite IH. apply set_at_length.
Qed.

Lemma nth_set_at_other (i j : nat) (f : R -> R) (v : list R) :
  i <> j -> nth j (set_at i f v) 0 = nth j v 0.
Proof.
  revert i j. induction v as [|x v IH]; intros [|i] [|j] Hne; simpl;
    try reflexivity; try contradiction.
  apply IH. intros E. apply Hne. f_equal. exact E.
Qed.

Lemma nth_write_from_before (fs : list R) :
  forall start v j,
    (j < start)%nat -> nth j (write_from start fs v) 0 = nth j v 0.
Proof.
  induction fs as [|x fs IH]; intros start v j Hlt; simpl; [reflexivity|].
  rewrite IH by lia. apply nth_set_at_other. lia.
Qed.

Lemma fold_set_at_length {A : Type} (g : A -> nat) (h : A -> R -> R) (l : list A) :
  forall v,
    List.length (fold_left (fun v a => set_at (g a) (h a) v) l v)
    = List.length v.
Proof.
  induction l as [|a l IH]; intros v; simpl; [reflexivity|].
  rewrite IH. apply set_at_length.
Qed.

(** *** Counting into a map *)

Section Counting.
Context {K : Type} (eqb : K -> K -> bool).

Lemma jsmap_set_In (k : K) (n : nat) (m : list (K * nat)) (kv : K * nat) :
  In kv (jsmap_set eqb k n m) -> kv = (k, n) \/ In kv m.
Proof.
  induction m as [|[k0 n0] m IH]; simpl.
  - intuition.
  - destruct (eqb k0 k); simpl; intuition.
Qed.

Lemma jsmap_set_nonempty (k : K) (n : nat) (m : list (K * nat)) :
  jsmap_set eqb k n m <> [].
Proof.
  destruct m as [|[k0 n0] m]; simpl; [discriminate|].
  destruct (eqb k0 k); discriminate.
Qed.

Lemma count_into_positive (m : list (K * nat)) (k : K) :
  (forall kv, In kv m -> (1 <= snd kv)%nat) ->
  count_into eqb m k <> [] /\
  (forall kv, In kv (count_into eqb m k) -> (1 <= snd kv)%nat).
Proof.
  intros Hm. unfold count_into.
  destruct (jsmap_get eqb k m) as [n|];
    (split; [apply jsmap_set_nonempty|]);
    intros kv Hin; apply jsmap_set_In in Hin;
    (destruct Hin as [->|Hin]; [simpl; lia|apply Hm; exact Hin]).
Qed.

Lemma frequencies_positive (l : list K) :
  forall m,
    (forall kv, In kv m -> (1 <= snd kv)%nat) ->
    (l <> [] \/ m <> []) ->
    fold_left (count_into eqb) l m <> [] /\
    (forall kv, In kv (fold_left (count_into eqb) l m) -> (1 <= snd kv)%nat).
Proof.
  induction l as [|k l IH]; intros m Hm Hne; simpl.
  - split; [|exact Hm]. destruct Hne as [Hl|Hmne]; [contradiction|exact Hmne].
  - destruct (count_into_positive m k Hm) as [H1 H2].
    apply IH; [exact H2|right; exact H1].
Qed.
End Counting.

Lemma createFeatureVector_length `{Natural} (docs : list (list string))
      (tokens : list string) (docIndex : nat) :
  List.length (createFeatureVector docs tokens docIndex) = dimensions.
Proof.
  unfold createFeatureVector.
  rewrite !write_from_length, fold_set_at_length, write_from_length.
  apply repeat_length.
Qed.

(** *** The call of the tokenizer *)

(** What a call of [embed] comes to: it throws, and leaves the engine
    initialized with the documents it had. *)
Lemma embed_outcome `{Natural} (e : engine) (text : string) :
  embed e text = (Throw not_a_function, mkEngine (documents e) true).
Proof.
  unfold embed, WordTokenizer_tokenize. destruct e as [docs [|]]; reflexivity.
Qed.

Lemma after_calls_documents `{Natural} (texts : list string) :
  forall e, documents (after_calls e texts) = documents e.
Proof.
  unfold after_calls.
  induction texts as [|t texts IH]; intros e; cbn [fold_left];
    [reflexivity|].
  rewrite IH, embed_outcome. reflexivity.
Qed.

Lemma embedBatch_outcome `{Natural} (e : engine) (text : string)
      (rest : list string) :
  embedBatch e (text :: rest) = (Throw not_a_function, mkEngine (documents e) true).
Proof. cbn [embedBatch]. rewrite embed_outcome. reflexivity. Qed.

(** C7, the divergence: [embed] returns no vector.  Whatever the engine
    and the text, with tokens or without, the call of
    [natural.WordTokenizer.tokenize] throws the [TypeError] before the text
    is tokenized: neither the unit vector nor the all-zero vector is
    produced. *)
Theorem embed_throws `{Natural} (e : engine) (text : string) :
  fst (embed e text) = Throw not_a_function /\
  (forall vector, fst (embed e text) <> Ok vector).
Proof.
  rewrite embed_outcome. split; [reflexivity|]. intros vector E. discriminate E.
Qed.

(** C8, the divergence: two calls of [embed] with the same text, with any
    texts embedded before the first and between the two, return no vector
    to compare: both throw.  No temporary document is put into the TF-IDF
    corpus or taken out of it: after every call the documents array is the
    one the engine started with. *)
Theorem embed_never_touches_the_corpus `{Natural}
        (e : engine) (before between : list string) (text : string) :
  let e1 := after_calls e before in
  let first := embed e1 text in
  let e2 := after_calls (snd first) between in
  let second := embed e2 text in
  fst first = Throw not_a_function /\
  fst second = Throw not_a_function /\
  documents (snd first) = documents e /\
  documents (snd second) = documents e.
Proof.
  cbv zeta. rewrite !embed_outcome. cbn [fst snd documents].
  rewrite ?after_calls_documents. cbn [documents].
  rewrite ?after_calls_documents. repeat split; reflexivity.
Qed.

End EmbeddingFacts.
(** ** The store keeps its primary keys unique *)

Module StoreFacts.
Import Db Collections Notions ListFacts.

Lemma NoDup_map_filter {Row Key : Type} (key : Row -> Key)
      (keep : Row -> bool) (rows : list Row) :
  NoDup (map key rows) -> NoDup (map key (filter keep rows)).
Proof.
  induction rows as [|x rows IH]; simpl; intros Hnd; [constructor|].
  inversion Hnd as [|? ? Hnotin Hnd']; subst.
  destruct (keep x); simpl; [|apply IH; exact Hnd'].
  constructor; [|apply IH; exact Hnd'].
  intros Hin. apply Hnotin. apply in_map_iff in Hin.
  destruct Hin as [y [Ey Hy]]. apply filter_In in Hy.
  apply in_map_iff. exists y. tauto.
Qed.

(** [INSERT OR REPLACE] on a table with unique keys. *)
Lemma replace_row_NoDup {Row : Type} (key : Row -> string) (r : Row)
      (rows : list Row) :
  NoDup (map key rows) ->
  NoDup (map key (filter (fun x => negb (key x =? key r)%string) rows ++ [r])).
Proof.
  intros Hnd. rewrite map_app. simpl. apply NoDup_app.
  - apply NoDup_map_filter. exact Hnd.
  - constructor; [intros []|constructor].
  - intros k Hk [<-|[]]. apply in_map_iff in Hk.
    destruct Hk as [x [Ex Hx]]. apply filter_In in Hx. destruct Hx as [_ Hx].
    rewrite Ex, String.eqb_refl in Hx. discriminate.
Qed.

Lemma wf_empty : wf Db.empty.
Proof. repeat split; constructor. Qed.

Lemma wf_addCollection (db : Db.t) (name path mask : string) :
  wf db -> wf (addCollection db name path mask).
Proof.
  intros [Hc [Hd He]]. repeat split; simpl; try assumption.
  exact (replace_row_NoDup col_name (mkCollection name path mask) _ Hc).
Qed.

Lemma wf_addDocument (db : Db.t) (d : Document) : wf db -> wf (addDocument db d).
Proof.
  intros [Hc [Hd He]]. repeat split; simpl; try assumption.
  exact (replace_row_NoDup doc_id d _ Hd).
Qed.

Lemma wf_addEmbedding (db : Db.t) (e : Embedding) :
  wf db -> wf (addEmbedding db e).
Proof.
  intros [Hc [Hd He]]. repeat split; simpl; try assumption.
  exact (replace_row_NoDup emb_document_id e _ He).
Qed.

Lemma wf_removeDocument (db : Db.t) (id : string) :
  wf db -> wf (removeDocument db id).
Proof.
  intros [Hc [Hd He]]. repeat split; simpl; try assumption.
  apply NoDup_map_filter. exact Hd.
Qed.

Lemma wf_cleanup (db : Db.t) : wf db -> wf (cleanup db).
Proof.
  intros [Hc [Hd He]]. repeat split; simpl; try assumption;
    apply NoDup_map_filter; assumption.
Qed.

Lemma wf_removeCollection (db : Db.t) (name : string) :
  wf db -> wf (fst (removeCollection db name)).
Proof.
  intros [Hc [Hd He]]. unfold removeCollection. simpl fst.
  apply wf_cleanup. repeat split; simpl; try assumption.
  apply NoDup_map_filter. exact Hc.
Qed.

Create HintDb store discriminated.
#[local] Hint Resolve wf_empty wf_addCollection wf_addDocument wf_addEmbedding
  wf_removeDocument wf_cleanup : store.

Lemma wf_indexCollection `{FileSystem} (db : Db.t) (name : string) :
  wf db -> wf (db_after db (indexCollection db name)).
Proof.
  intros Hwf. unfold indexCollection.
  destruct (findCollection db name) as [c|]; [|exact Hwf]. simpl.
  set (existing := getDocumentsByCollection db (col_name c)).
  assert (Hscan : forall files st,
             wf (p_db st) ->
             wf (p_db (fold_left (indexFile c existing) files st))).
  { induction files as [|f files IH]; intros st Hst; simpl; [exact Hst|].
    apply IH. unfold indexFile.
    destruct (tryIndex c existing f) as [[d|u]|]; simpl; auto with store. }
  assert (Hdel : forall paths db0,
             wf db0 -> wf (fold_left (removeOne existing) paths db0)).
  { induction paths as [|q paths IH]; intros db0 H0; simpl; [exact H0|].
    apply IH. unfold removeOne.
    destruct (find (fun d => (doc_path d =? q)%string) existing);
      auto with store. }
  apply Hdel, Hscan. exact Hwf.
Qed.

(** Every [try] block of [generateEmbeddings] ends in its [catch]: the
    store is left as it was. *)
Lemma embedDocument_outcome `{Search.Backend} `{Embeddings.Natural}
      (st : Db.t * Embeddings.engine) (doc : Document) :
  Search.embedDocument st doc
  = (fst st, Embeddings.mkEngine (Embeddings.documents (snd st)) true).
Proof.
  unfold Search.embedDocument. rewrite EmbeddingFacts.embed_outcome.
  reflexivity.
Qed.

Lemma generateEmbeddings_store `{Search.Backend} `{Embeddings.Natural}
      (db : Db.t) (e : Embeddings.engine) (force : bool) :
  fst (Search.generateEmbeddings db e force) = db.
Proof.
  unfold Search.generateEmbeddings.
  generalize (if force then documents db
              else filter (fun d => negb (Search.has_embedding (embeddings db)
                                                               (doc_id d)))
                          (documents db)).
  intros todo. generalize e. clear e.
  induction todo as [|d todo IH]; intros e; cbn [fold_left]; [reflexivity|].
  rewrite embedDocument_outcome. cbn [fst snd]. apply IH.
Qed.

Lemma wf_generateEmbeddings `{Search.Backend} `{Embeddings.Natural}
      (db : Db.t) (e : Embeddings.engine) (force : bool) :
  wf db -> wf (fst (Search.generateEmbeddings db e force)).
Proof.
  intros Hwf. rewrite generateEmbeddings_store. exact Hwf.
Qed.

End StoreFacts.
(** ** Removing a collection *)

Module RemoveFacts.
Import Db Collections Notions Fixtures ListFacts.




Lemma cleanup_collections (db : Db.t) : collections (cleanup db) = collections db.
Proof. reflexivity. Qed.





End RemoveFacts.
(** ** Indexing a collection *)

Module IndexFacts.
Import Db Collections Notions Fixtures ListFacts.

Lemma findCollection_registered (db : Db.t) (name : string) :
  has_collection (collections db) name = true ->
  exists c, findCollection db name = Some c /\ col_name c = name.
Proof.
  unfold has_collection, findCollection, getCollections. intros Hp.
  apply existsb_exists in Hp. destruct Hp as [c0 [Hc0 Hn0]].
  destruct (find (fun c => (col_name (fst c) =? name)%string)
                 (map (fun c => (c, file_count db c))
                      (sort_by (fun a b => String.leb (col_name a) (col_name b))
                               (collections db)))) as [[c n]|] eqn:Ef.
  - exists c. split; [reflexivity|].
    apply find_some in Ef. apply String.eqb_eq. exact (proj2 Ef).
  - exfalso.
    pose proof (find_none _ _ Ef (c0, file_count db c0)) as Hnone.
    simpl in Hnone. rewrite Hn0 in Hnone.
    assert (Hin : In (c0, file_count db c0)
                     (map (fun c => (c, file_count db c))
                          (sort_by (fun a b => String.leb (col_name a) (col_name b))
                                   (collections db)))).
    { apply (in_map (fun c => (c, file_count db c))).
      apply sort_by_In. exact Hc0. }
    specialize (Hnone Hin). discriminate.
Qed.



Section Scan.
Context `{FileSystem}.
Variables (c : Collection) (existing : list Document).






End Scan.






(** C6 at a failing input: a file is indexed, touched and indexed again;
    the store then holds two documents for its path.  A further pass over
    the unchanged file finds the older one first and indexes the file once
    more instead of skipping it; and once the file is deleted, a pass
    removes one of the two documents and leaves the other retrievable by
    the path. *)
Theorem reindex_after_touch_indexes_again
        (title_of clean_of : string -> string -> string) :
  let fs1 := fs_of title_of clean_of disk_v1 in
  let fs2 := fs_of title_of clean_of disk_v2 in
  let gone := fs_of title_of clean_of [] in
  let db1 := db_after notes_db (@indexCollection fs1 notes_db "notes") in
  let db2 := db_after db1 (@indexCollection fs2 db1 "notes") in
  map doc_modified_at (getDocumentsByCollection db2 "notes") = [100; 200] /\
  (exists db3, @indexCollection fs2 db2 "notes" = Ok (db3, mkCounts 1 0 0)) /\
  (exists db4, @indexCollection gone db2 "notes" = Ok (db4, mkCounts 0 0 1) /\
               option_map doc_modified_at
                          (getDocumentByPath db4 "/notes/a.md") = Some 200).
Proof.
  cbv zeta. split; [vm_compute; reflexivity|]. split.
  - eexists. vm_compute. reflexivity.
  - eexists. split; vm_compute; reflexivity.
Qed.

(** *** What an indexing pass touches *)

Section Pass.
Context `{FileSystem}.
Variables (c : Collection) (existing : list Document).

Lemma tryIndex_fresh (f : string) (d : Document) :
  tryIndex c existing f = Some (inl d) -> fresh_from c [f] d.
Proof.
  unfold tryIndex. destruct (statSync f) as [st|] eqn:Est; [|discriminate].
  destruct (match find _ existing with Some _ => _ | None => _ end);
    [discriminate|].
  destruct (readFileSync f) as [content|]; [|discriminate].
  destruct (parseMarkdownFile content f) as [[title clean]|]; [|discriminate].
  intros E. injection E as <-. unfold fresh_from. simpl.
  repeat split; auto. exists st. auto.
Qed.

Lemma indexFile_tables (st : pass) (f : string) :
  collections (p_db (indexFile c existing st f)) = collections (p_db st) /\
  embeddings (p_db (indexFile c existing st f)) = embeddings (p_db st) /\
  forall d, In d (documents (p_db (indexFile c existing st f))) ->
            In d (documents (p_db st)) \/ fresh_from c [f] d.
Proof.
  unfold indexFile.
  destruct (tryIndex c existing f) as [[d|u]|] eqn:E; simpl; auto.
  repeat split; auto. intros x Hx. apply in_app_or in Hx.
  destruct Hx as [Hx|[<-|[]]].
  - left. apply filter_In in Hx. exact (proj1 Hx).
  - right. apply tryIndex_fresh. exact E.
Qed.

Lemma fresh_from_incl (l l' : list string) (d : Document) :
  incl l l' -> fresh_from c l d -> fresh_from c l' d.
Proof.
  intros Hi [H1 [H2 H3]]. split; [exact H1|]. split; [apply Hi, H2|exact H3].
Qed.

Lemma scan_tables (files : list string) :
  forall st,
    let st' := fold_left (indexFile c existing) files st in
    collections (p_db st') = collections (p_db st) /\
    embeddings (p_db st') = embeddings (p_db st) /\
    forall d, In d (documents (p_db st')) ->
              In d (documents (p_db st)) \/ fresh_from c files d.
Proof.
  induction files as [|f files IH]; intros st; simpl; [auto|].
  destruct (IH (indexFile c existing st f)) as [Hc [He Hd]].
  destruct (indexFile_tables st f) as [Hc1 [He1 Hd1]].
  simpl in Hc, He, Hd. rewrite Hc, He. repeat split; auto.
  intros d Hin. destruct (Hd d Hin) as [Hold|Hnew].
  - destruct (Hd1 d Hold) as [Hold'|Hnew]; [left; exact Hold'|].
    right. apply (fresh_from_incl [f]); [|exact Hnew].
    intros x [<-|[]]. left. reflexivity.
  - right. apply (fresh_from_incl files); [|exact Hnew].
    intros x Hx. right. exact Hx.
Qed.

Lemma removal_tables (paths : list string) :
  forall db,
    let db' := fold_left (removeOne existing) paths db in
    collections db' = collections db /\
    embeddings db' = embeddings db /\
    forall d, In d (documents db') -> In d (documents db).
Proof.
  induction paths as [|q paths IH]; intros db; simpl; [auto|].
  destruct (IH (removeOne existing db q)) as [Hc [He Hd]].
  simpl in Hc, He, Hd. rewrite Hc, He. unfold removeOne in *.
  destruct (find (fun d => (doc_path d =? q)%string) existing); simpl; auto.
  repeat split; auto. intros x Hin. specialize (Hd x Hin). simpl in Hd.
  apply filter_In in Hd. exact (proj1 Hd).
Qed.
End Pass.

Lemma findCollection_name (db : Db.t) (name : string) (c : Collection) :
  findCollection db name = Some c ->
  col_name c = name /\ In c (collections db).
Proof.
  unfold findCollection, getCollections. intros E.
  destruct (find _ _) as [[c0 n]|] eqn:Ef; [|discriminate].
  simpl in E. injection E as ->.
  apply find_some in Ef. destruct Ef as [Hin Hn]. simpl in Hn.
  split; [apply String.eqb_eq; exact Hn|].
  apply in_map_iff in Hin. destruct Hin as [c1 [E1 Hc1]].
  injection E1 as -> _. apply sort_by_In in Hc1. exact Hc1.
Qed.

Lemma indexCollection_tables `{FileSystem}
      (db db' : Db.t) (name : string) (n : counts) :
  indexCollection db name = Ok (db', n) ->
  collections db' = collections db /\
  embeddings db' = embeddings db /\
  exists c, findCollection db name = Some c /\ col_name c = name /\
    forall d, In d (documents db') ->
      In d (documents db) \/
      fresh_from c (glob (path_join (col_path c) (col_mask c))) d.
Proof.
  unfold indexCollection. intros E.
  destruct (findCollection db name) as [c|] eqn:Ec; [|discriminate].
  injection E as <- _.
  set (existing := getDocumentsByCollection db (col_name c)).
  set (files := glob (path_join (col_path c) (col_mask c))).
  destruct (scan_tables c existing files (mkPass db [] 0%nat 0%nat))
    as [Hc [He Hd]].
  fold (scanFiles c existing files db) in Hc, He, Hd.
  set (st := scanFiles c existing files db) in *.
  destruct (removal_tables existing
              (filter (fun p => negb (set_has p (processedPaths st)))
                      (set_of_list (map doc_path existing)))
              (p_db st)) as [Hc' [He' Hd']].
  simpl in Hc, He, Hd, Hc', He', Hd'.
  rewrite Hc', He', Hc, He. repeat split.
  exists c. split; [reflexivity|].
  split; [exact (proj1 (findCollection_name db name c Ec))|].
  intros d Hin. apply Hd, Hd'. exact Hin.
Qed.

End IndexFacts.
(** ** The stores the program reaches *)

Module ReachFacts.
Import Db Collections Notions Fixtures ListFacts StoreFacts RemoveFacts IndexFacts.


Lemma has_collection_In (cols : list Collection) (c : Collection) :
  In c cols -> has_collection cols (col_name c) = true.
Proof.
  intros Hin. unfold has_collection. apply existsb_exists.
  exists c. split; [exact Hin|apply String.eqb_refl].
Qed.









End ReachFacts.
(** ** Fusion of the two result lists *)

Module FusionFacts.
Import Db Search Notions ListFacts.

Local Open Scope Q_scope.

(** *** The map *)

Section MapFacts.
Context {V : Type}.
Implicit Types (m : list (string * V)) (k : string) (v : V).

Lemma get_set_same m k v : map_get k (map_set k v m) = Some v.
Proof.
  unfold map_get, map_set.
  induction m as [|[k' v'] m IH]; simpl.
  - rewrite String.eqb_refl. reflexivity.
  - destruct (k' =? k)%string eqn:E; simpl.
    + rewrite String.eqb_refl. reflexivity.
    + rewrite E. exact IH.
Qed.

Lemma get_set_other m k k' v :
  k <> k' -> map_get k' (map_set k v m) = map_get k' m.
Proof.
  unfold map_get, map_set. intros Hne.
  induction m as [|[k0 v0] m IH]; simpl.
  - apply String.eqb_neq in Hne. rewrite Hne. reflexivity.
  - destruct (k0 =? k)%string eqn:E; simpl.
    + apply String.eqb_eq in E. subst k0.
      apply String.eqb_neq in Hne. rewrite Hne. reflexivity.
    + rewrite IH. reflexivity.
Qed.

Lemma keys_set m k v k' :
  In k' (map fst (map_set k v m)) <-> k' = k \/ In k' (map fst m).
Proof.
  unfold map_set.
  induction m as [|[k0 v0] m IH]; simpl.
  - intuition.
  - destruct (k0 =? k)%string eqn:E; simpl.
    + apply String.eqb_eq in E. subst k0. intuition.
    + rewrite IH. intuition.
Qed.

Lemma keys_set_NoDup m k v :
  NoDup (map fst m) -> NoDup (map fst (map_set k v m)).
Proof.
  unfold map_set.
  induction m as [|[k0 v0] m IH]; simpl; intros Hnd.
  - constructor; [intros []|constructor].
  - inversion Hnd as [|? ? Hnotin Hnd']; subst.
    destruct (k0 =? k)%string eqn:E; simpl.
    + apply String.eqb_eq in E. subst k0. constructor; assumption.
    + constructor; [|apply IH; exact Hnd'].
      intros Hin. apply (keys_set m k v k0) in Hin.
      destruct Hin as [->|Hin]; [|contradiction].
      rewrite String.eqb_refl in E. discriminate.
Qed.

Lemma get_of_In m k v :
  NoDup (map fst m) -> In (k, v) m -> map_get k m = Some v.
Proof.
  unfold map_get.
  induction m as [|[k0 v0] m IH]; simpl; intros Hnd Hin; [contradiction|].
  inversion Hnd as [|? ? Hnotin Hnd']; subst.
  destruct Hin as [E|Hin].
  - injection E as -> ->. rewrite String.eqb_refl. reflexivity.
  - destruct (k0 =? k)%string eqn:E.
    + apply String.eqb_eq in E. subst k0. exfalso. apply Hnotin.
      apply (in_map fst) in Hin. exact Hin.
    + apply IH; assumption.
Qed.

Lemma get_key_In m k v : map_get k m = Some v -> In k (map fst m).
Proof.
  unfold map_get.
  induction m as [|[k0 v0] m IH]; simpl; [discriminate|].
  destruct (k0 =? k)%string eqn:E.
  - apply String.eqb_eq in E. intros _. left. exact E.
  - intros Hg. right. apply IH. exact Hg.
Qed.
End MapFacts.

(** *** Positions in a result list *)

Lemma lookup_from_shift (i : nat) (d : string) (l : list SearchResult) :
  lookup_from (S i) d l =
  option_map (fun p => (S (fst p), snd p)) (lookup_from i d l).
Proof.
  revert i. induction l as [|r l IH]; intros i; simpl; [reflexivity|].
  destruct (id r =? d)%string; [reflexivity|]. apply IH.
Qed.

Lemma lookup_from_id (i : nat) (d : string) (l : list SearchResult)
      (j : nat) (r : SearchResult) :
  lookup_from i d l = Some (j, r) -> id r = d /\ In r l.
Proof.
  revert i. induction l as [|x l IH]; intros i; simpl; [discriminate|].
  destruct (id x =? d)%string eqn:E.
  - intros [= <- <-]. apply String.eqb_eq in E. auto.
  - intros Hl. destruct (IH _ Hl). auto.
Qed.

Lemma lookup_from_none (i : nat) (d : string) (l : list SearchResult) :
  lookup_from i d l = None <-> ~ In d (map id l).
Proof.
  revert i. induction l as [|x l IH]; intros i; simpl.
  - intuition.
  - destruct (id x =? d)%string eqn:E.
    + apply String.eqb_eq in E. split; [discriminate|]. intros Hn.
      exfalso. apply Hn. left. exact E.
    + apply String.eqb_neq in E. rewrite IH. intuition.
  Qed.

(** *** The entries of [resultMap] *)

Lemma text_phase (T : list SearchResult) :
  forall (i0 : nat) (m : list (string * fused)) (d : string),
    NoDup (map id T) ->
    map_get d (forEach_from addText i0 T m) =
    match lookup_from i0 d T with
    | Some (i, r) => Some (textEntry r i)
    | None => map_get d m
    end.
Proof.
  induction T as [|r T IH]; intros i0 m d Hnd; simpl; [reflexivity|].
  inversion Hnd as [|? ? Hnotin Hnd']; subst.
  rewrite (IH _ _ _ Hnd').
  destruct (id r =? d)%string eqn:E.
  - apply String.eqb_eq in E. subst d.
    apply (lookup_from_none (S i0)) in Hnotin. rewrite Hnotin.
    unfold addText. apply get_set_same.
  - apply String.eqb_neq in E.
    destruct (lookup_from (S i0) d T) as [[i r']|]; [reflexivity|].
    unfold addText. apply get_set_other. exact E.
Qed.

Lemma addVector_get_same (m : list (string * fused)) (r : SearchResult) (j : nat) :
  map_get (id r) (addVector m r j) =
  Some (match map_get (id r) m with
        | Some existing => mergeVector existing r j
        | None => vectorEntry r j
        end).
Proof.
  unfold addVector. destruct (map_get (id r) m); apply get_set_same.
Qed.

Lemma addVector_get_other (m : list (string * fused)) (r : SearchResult)
      (j : nat) (d : string) :
  id r <> d -> map_get d (addVector m r j) = map_get d m.
Proof.
  intros Hne. unfold addVector.
  destruct (map_get (id r) m); apply get_set_other; exact Hne.
Qed.

Lemma vector_phase (V : list SearchResult) :
  forall (j0 : nat) (m : list (string * fused)) (d : string),
    NoDup (map id V) ->
    map_get d (forEach_from addVector j0 V m) =
    match lookup_from j0 d V with
    | Some (j, r) =>
        Some (match map_get d m with
              | Some existing => mergeVector existing r j
              | None => vectorEntry r j
              end)
    | None => map_get d m
    end.
Proof.
  induction V as [|r V IH]; intros j0 m d Hnd; simpl; [reflexivity|].
  inversion Hnd as [|? ? Hnotin Hnd']; subst.
  rewrite (IH _ _ _ Hnd').
  destruct (id r =? d)%string eqn:E.
  - apply String.eqb_eq in E. subst d.
    apply (lookup_from_none (S j0)) in Hnotin. rewrite Hnotin.
    apply addVector_get_same.
  - apply String.eqb_neq in E.
    rewrite (addVector_get_other _ _ _ _ E). reflexivity.
Qed.

Lemma resultMap_get (T V : list SearchResult) (d : string) :
  NoDup (map id T) -> NoDup (map id V) ->
  map_get d (resultMap T V) = entry_of T V d.
Proof.
  intros HT HV. unfold resultMap, forEach, entry_of, lookup.
  rewrite (vector_phase V 0%nat _ d HV), (text_phase T 0%nat [] d HT).
  destruct (lookup_from 0 d V) as [[j rv]|];
    destruct (lookup_from 0 d T) as [[i rt]|]; reflexivity.
Qed.

(** Keys of the map: the ids of both lists, each once. *)
Lemma forEach_addText_keys (T : list SearchResult) :
  forall i0 m,
    NoDup (map fst m) ->
    NoDup (map fst (forEach_from addText i0 T m)) /\
    (forall d, In d (map fst (forEach_from addText i0 T m)) <->
               In d (map fst m) \/ In d (map id T)).
Proof.
  induction T as [|r T IH]; intros i0 m Hnd; simpl.
  - split; [exact Hnd|]. intuition.
  - destruct (IH (S i0) (addText m r i0)
                 (keys_set_NoDup _ _ _ Hnd)) as [H1 H2].
    split; [exact H1|]. intros d. rewrite H2.
    unfold addText. rewrite keys_set. intuition.
Qed.

Lemma addVector_keys (m : list (string * fused)) (r : SearchResult) (j : nat) :
  NoDup (map fst m) ->
  NoDup (map fst (addVector m r j)) /\
  (forall d, In d (map fst (addVector m r j)) <-> d = id r \/ In d (map fst m)).
Proof.
  intros Hnd. unfold addVector.
  destruct (map_get (id r) m); (split; [apply keys_set_NoDup; exact Hnd|]);
    intros d; apply keys_set.
Qed.

Lemma forEach_addVector_keys (V : list SearchResult) :
  forall j0 m,
    NoDup (map fst m) ->
    NoDup (map fst (forEach_from addVector j0 V m)) /\
    (forall d, In d (map fst (forEach_from addVector j0 V m)) <->
               In d (map fst m) \/ In d (map id V)).
Proof.
  induction V as [|r V IH]; intros j0 m Hnd; simpl.
  - split; [exact Hnd|]. intuition.
  - destruct (addVector_keys m r j0 Hnd) as [Ha1 Ha2].
    destruct (IH (S j0) (addVector m r j0) Ha1) as [H1 H2].
    split; [exact H1|]. intros d. rewrite H2, Ha2. intuition.
Qed.

Lemma resultMap_keys (T V : list SearchResult) :
  NoDup (map fst (resultMap T V)) /\
  (forall d, In d (map fst (resultMap T V)) <->
             In d (map id T) \/ In d (map id V)).
Proof.
  unfold resultMap, forEach.
  destruct (forEach_addText_keys T 0%nat [] (NoDup_nil _)) as [H1 H2].
  destruct (forEach_addVector_keys V 0%nat _ H1) as [H3 H4].
  split; [exact H3|]. intros d. rewrite H4, H2. simpl. intuition.
Qed.

(** *** Arithmetic of the scores *)

Lemma rrf_share (i : nat) : rrf i = share i.
Proof.
  unfold rrf, share, k_rrf.
  replace (60 + i + 1)%nat with (60 + S i)%nat by lia. reflexivity.
Qed.

Lemma share_bounds (i : nat) : 0 < share i /\ share i <= 1 # 61.
Proof.
  unfold share.
  destruct (Z.of_nat (60 + S i)) as [|p|p] eqn:E; try lia.
  assert (Hp : (61 <= Z.pos p)%Z) by lia.
  unfold Qdiv, Qmult, Qinv, inject_Z, Qlt, Qle. simpl. lia.
Qed.

Lemma unclamped_both (i j : nat) :
  0 < unclamped_spec (Some (S i)) (Some (S j)) <= top_score /\
  unclamped_spec (Some (S i)) None < unclamped_spec (Some (S i)) (Some (S j)) /\
  unclamped_spec None (Some (S j)) < unclamped_spec (Some (S i)) (Some (S j)).
Proof.
  destruct (share_bounds i) as [Hi1 Hi2]. destruct (share_bounds j) as [Hj1 Hj2].
  unfold unclamped_spec, contribution, top_score.
  fold (share i). fold (share j).
  set (a := share i) in *. set (b := share j) in *.
  destruct i as [|i]; destruct j as [|j]; cbv iota; repeat split; lra.
Qed.

Lemma unclamped_text (i : nat) :
  0 < unclamped_spec (Some (S i)) None <= top_score.
Proof.
  destruct (share_bounds i) as [Hi1 Hi2].
  unfold unclamped_spec, contribution, top_score. fold (share i).
  set (a := share i) in *.
  destruct i as [|i]; cbv iota; split; lra.
Qed.

Lemma unclamped_vector (j : nat) :
  0 < unclamped_spec None (Some (S j)) <= top_score.
Proof.
  destruct (share_bounds j) as [Hj1 Hj2].
  unfold unclamped_spec, contribution, top_score. fold (share j).
  set (b := share j) in *.
  destruct j as [|j]; cbv iota; split; lra.
Qed.

Lemma clamp_id (x : Q) : 0 <= x <= 1 -> Qmin 1 (Qmax 0 x) == x.
Proof.
  intros [H0 H1]. rewrite (Q.max_r 0 x) by exact H0.
  apply Q.min_r. exact H1.
Qed.

Lemma top_score_small : top_score < 65 # 1000.
Proof. unfold top_score. lra. Qed.

(** *** Entries and their scores *)

Lemma lookup_rank (d : string) (l : list SearchResult) (i : nat) (r : SearchResult) :
  lookup d l = Some (i, r) -> rank_in d l = Some (S i) /\ id r = d.
Proof.
  intros E. unfold rank_in. rewrite E. split; [reflexivity|].
  exact (proj1 (lookup_from_id _ _ _ _ _ E)).
Qed.

Lemma lookup_no_rank (d : string) (l : list SearchResult) :
  lookup d l = None -> rank_in d l = None.
Proof. intros E. unfold rank_in. rewrite E. reflexivity. Qed.

Lemma merged_boost (rt rv : SearchResult) (i j : nat) :
  boosted (mergeVector (textEntry rt i) rv j) ==
  unclamped_spec (Some (S i)) (Some (S j)).
Proof.
  unfold boosted, mergeVector, textEntry.
  cbn [textRank vectorRank rrfScore base].
  rewrite !Nat.add_1_r, !rrf_share.
  unfold unclamped_spec, contribution. fold (share i). fold (share j).
  set (a := share i). set (b := share j).
  destruct i as [|i]; destruct j as [|j]; cbn [truthy is_first andb orb]; ring.
Qed.

Lemma text_boost (rt : SearchResult) (i : nat) :
  boosted (textEntry rt i) == unclamped_spec (Some (S i)) None.
Proof.
  unfold boosted, textEntry. cbn [textRank vectorRank rrfScore].
  rewrite !Nat.add_1_r, !rrf_share.
  unfold unclamped_spec, contribution. fold (share i). set (a := share i).
  destruct i as [|i]; cbn [truthy is_first andb orb]; ring.
Qed.

Lemma vector_boost (rv : SearchResult) (j : nat) :
  boosted (vectorEntry rv j) == unclamped_spec None (Some (S j)).
Proof.
  unfold boosted, vectorEntry. cbn [textRank vectorRank rrfScore].
  rewrite !Nat.add_1_r, !rrf_share.
  unfold unclamped_spec, contribution. fold (share j). set (b := share j).
  destruct j as [|j]; cbn [truthy is_first andb orb]; ring.
Qed.

(** The four cases of a document's positions in the two lists, with its
    ranks rewritten accordingly (the case of no position is absurd). *)
Ltac by_positions d T V :=
  unfold entry_of;
  destruct (lookup d V) as [[? ?]|] eqn:?;
  destruct (lookup d T) as [[? ?]|] eqn:?;
  intros [= <-];
  repeat match goal with
         | E : lookup _ _ = Some _ |- _ =>
             let R := fresh "R" in
             let I := fresh "I" in
             destruct (lookup_rank _ _ _ _ E) as [R I]; rewrite R; clear E R
         | E : lookup _ _ = None |- _ =>
             rewrite (lookup_no_rank _ _ E); clear E
         end.

(** The entry of a document carries its id and the score of the
    specification, before clamping. *)
Lemma entry_of_spec (T V : list SearchResult) (d : string) (f : fused) :
  entry_of T V d = Some f ->
  id (base f) = d /\
  boosted f == unclamped_spec (rank_in d T) (rank_in d V).
Proof.
  by_positions d T V.
  - split; [assumption|apply merged_boost].
  - split; [assumption|apply vector_boost].
  - split; [assumption|apply text_boost].
Qed.

Lemma entry_of_ranked (T V : list SearchResult) (d : string) (f : fused) :
  entry_of T V d = Some f ->
  0 < unclamped_spec (rank_in d T) (rank_in d V) <= top_score.
Proof.
  by_positions d T V.
  - apply unclamped_both.
  - apply unclamped_vector.
  - apply unclamped_text.
Qed.

Lemma computeFinalScore_spec (T V : list SearchResult) (d : string) (f : fused) :
  entry_of T V d = Some f ->
  computeFinalScore f == fused_spec (rank_in d T) (rank_in d V) /\
  computeFinalScore f == boosted f /\
  0 < computeFinalScore f <= top_score.
Proof.
  intros E. destruct (entry_of_spec _ _ _ _ E) as [_ Hb].
  pose proof (entry_of_ranked _ _ _ _ E) as [Hpos Hle].
  pose proof top_score_small as Hsmall.
  assert (Hc : computeFinalScore f == boosted f).
  { unfold computeFinalScore. apply clamp_id. rewrite Hb. lra. }
  assert (Hs : fused_spec (rank_in d T) (rank_in d V)
               == unclamped_spec (rank_in d T) (rank_in d V)).
  { unfold fused_spec. apply clamp_id. lra. }
  split; [rewrite Hc, Hs; exact Hb|]. split; [exact Hc|].
  rewrite Hc, Hb. split; assumption.
Qed.

Lemma fuseResults_In (T V : list SearchResult) (q : string) (res : SearchResult) :
  NoDup (map id T) -> NoDup (map id V) ->
  In res (fuseResults T V q) ->
  exists f, entry_of T V (id res) = Some f /\ res = finalize f.
Proof.
  intros HT HV Hin. unfold fuseResults in Hin.
  apply in_map_iff in Hin. destruct Hin as [f [<- Hf]].
  apply sort_by_In in Hf. apply in_map_iff in Hf.
  destruct Hf as [[k f'] [Ef Hkf]]. simpl in Ef. subst f'.
  destruct (resultMap_keys T V) as [Hnd _].
  pose proof (get_of_In _ _ _ Hnd Hkf) as Hget.
  rewrite (resultMap_get T V k HT HV) in Hget.
  destruct (entry_of_spec _ _ _ _ Hget) as [Hid _].
  exists f. simpl. rewrite Hid. split; [exact Hget|reflexivity].
Qed.

Lemma fuseResults_ids (T V : list SearchResult) (q : string) :
  NoDup (map id T) -> NoDup (map id V) ->
  Permutation (map fst (resultMap T V)) (map id (fuseResults T V q)).
Proof.
  intros HT HV. unfold fuseResults. rewrite map_map. simpl.
  eapply perm_trans;
    [|apply Permutation_map, sort_by_perm].
  rewrite map_map.
  destruct (resultMap_keys T V) as [Hnd _].
  assert (Hext : forall kv, In kv (resultMap T V) -> fst kv = id (base (snd kv))).
  { intros [k f] Hkf. simpl.
    pose proof (get_of_In _ _ _ Hnd Hkf) as Hget.
    rewrite (resultMap_get T V k HT HV) in Hget.
    symmetry. exact (proj1 (entry_of_spec _ _ _ _ Hget)). }
  rewrite (map_ext_in _ _ _ Hext). apply Permutation_refl.
Qed.

Lemma find_by_id (d : string) (l : list SearchResult) :
  In d (map id l) ->
  exists r, find (fun r => (id r =? d)%string) l = Some r /\ id r = d /\ In r l.
Proof.
  induction l as [|x l IH]; simpl; [intros []|]. intros Hin.
  destruct (id x =? d)%string eqn:E.
  - apply String.eqb_eq in E. exists x. auto.
  - apply String.eqb_neq in E. destruct Hin as [Hx|Hin]; [contradiction|].
    destruct (IH Hin) as [r [Hf [Hid Hr]]]. exists r. auto.
Qed.

Lemma ranked_of_In (d : string) (l : list SearchResult) :
  In d (map id l) -> exists i, rank_in d l = Some (S i).
Proof.
  intros Hin. unfold rank_in.
  destruct (lookup d l) as [[i r]|] eqn:E.
  - exists i. reflexivity.
  - apply lookup_from_none in E. contradiction.
Qed.

Lemma fuseResults_NoDup (T V : list SearchResult) (q : string) :
  NoDup (map id T) -> NoDup (map id V) -> NoDup (map id (fuseResults T V q)).
Proof.
  intros HT HV.
  eapply Permutation_NoDup; [apply fuseResults_ids; assumption|].
  exact (proj1 (resultMap_keys T V)).
Qed.

Lemma fuseResults_members (T V : list SearchResult) (q : string) (d : string) :
  NoDup (map id T) -> NoDup (map id V) ->
  In d (map id (fuseResults T V q)) <-> In d (map id T) \/ In d (map id V).
Proof.
  intros HT HV. rewrite <- (proj2 (resultMap_keys T V) d).
  pose proof (fuseResults_ids T V q HT HV) as P. split.
  - apply Permutation_in, Permutation_sym, P.
  - apply Permutation_in, P.
Qed.

Lemma fuseResults_score (T V : list SearchResult) (q : string) (res : SearchResult) :
  NoDup (map id T) -> NoDup (map id V) ->
  In res (fuseResults T V q) ->
  score res == fused_spec (rank_in (id res) T) (rank_in (id res) V) /\
  0 < score res <= top_score /\
  exists f, In f (map snd (resultMap T V)) /\
            res = finalize f /\ score res == boosted f.
Proof.
  intros HT HV Hin.
  destruct (fuseResults_In T V q res HT HV Hin) as [f [Ef Eres]].
  destruct (computeFinalScore_spec _ _ _ _ Ef) as [Hs [Hb Hr]].
  assert (Escore : score res = computeFinalScore f) by (rewrite Eres; reflexivity).
  rewrite Escore. split; [exact Hs|]. split; [exact Hr|].
  exists f. split; [|split; [exact Eres|exact Hb]].
  unfold fuseResults in Hin. apply in_map_iff in Hin.
  destruct Hin as [f' [Ef' Hf']]. apply sort_by_In in Hf'.
  rewrite <- (resultMap_get T V (id res) HT HV) in Ef.
  apply in_map_iff in Hf'. destruct Hf' as [[k g] [Eg Hkg]]. simpl in Eg. subst g.
  pose proof (get_of_In _ _ _ (proj1 (resultMap_keys T V)) Hkg) as Hget.
  assert (Hk : k = id res).
  { rewrite (resultMap_get T V k HT HV) in Hget.
    rewrite <- Ef'. simpl. symmetry.
    exact (proj1 (entry_of_spec _ _ _ _ Hget)). }
  subst k. rewrite Ef in Hget. injection Hget as <-.
  apply in_map_iff. exists (id res, f). split; [reflexivity|exact Hkg].
Qed.

Lemma scoreOf_fused (T V : list SearchResult) (q : string) (d : string) :
  NoDup (map id T) -> NoDup (map id V) ->
  In d (map id T) \/ In d (map id V) ->
  exists s, scoreOf d (fuseResults T V q) = Some s /\
            s == fused_spec (rank_in d T) (rank_in d V).
Proof.
  intros HT HV Hd. apply (fuseResults_members T V q d HT HV) in Hd.
  destruct (find_by_id _ _ Hd) as [res [Hf [Hid Hres]]].
  exists (score res). unfold scoreOf. rewrite Hf. split; [reflexivity|].
  rewrite <- Hid. exact (proj1 (fuseResults_score T V q res HT HV Hres)).
Qed.

Lemma fused_spec_ranked (i j : nat) :
  fused_spec (Some (S i)) (Some (S j))
    == unclamped_spec (Some (S i)) (Some (S j)) /\
  fused_spec (Some (S i)) None == unclamped_spec (Some (S i)) None /\
  fused_spec None (Some (S j)) == unclamped_spec None (Some (S j)).
Proof.
  pose proof top_score_small.
  pose proof (unclamped_both i j) as [[? ?] _].
  pose proof (unclamped_text i) as [? ?].
  pose proof (unclamped_vector j) as [? ?].
  unfold fused_spec. repeat split; apply clamp_id; lra.
Qed.

(** C2: no id occurring twice in either list, the fusion returns every
    document of the two lists exactly once, with the score
    [2 * 1/(60 + r_text) + 1 * 1/(60 + r_vec)] over the lists it occurs in,
    times 1.2 if it occurs in both, times 1.1 if its rank is 1 in either,
    clamped to [0, 1]. *)
Theorem fuseResults_scores (T V : list SearchResult) (q : string) :
  NoDup (map id T) -> NoDup (map id V) ->
  let out := fuseResults T V q in
  NoDup (map id out) /\
  (forall d, In d (map id out) <-> In d (map id T) \/ In d (map id V)) /\
  (forall res, In res out ->
     score res == fused_spec (rank_in (id res) T) (rank_in (id res) V)).
Proof.
  intros HT HV. cbv zeta. split; [apply fuseResults_NoDup; assumption|].
  split.
  - intros d. apply fuseResults_members; assumption.
  - intros res Hin. exact (proj1 (fuseResults_score T V q res HT HV Hin)).
Qed.

(** C3: a document of both lists scores strictly higher than it does,
    at the same rank, with the keyword list alone, and with the vector list
    alone. *)
Theorem both_lists_score_higher (T V : list SearchResult) (q d : string) :
  NoDup (map id T) -> NoDup (map id V) ->
  In d (map id T) -> In d (map id V) ->
  exists both text_only vector_only,
    scoreOf d (fuseResults T V q) = Some both /\
    scoreOf d (fuseResults T [] q) = Some text_only /\
    scoreOf d (fuseResults [] V q) = Some vector_only /\
    text_only < both /\ vector_only < both.
Proof.
  intros HT HV HdT HdV.
  destruct (ranked_of_In d T HdT) as [i Ri].
  destruct (ranked_of_In d V HdV) as [j Rj].
  destruct (scoreOf_fused T V q d HT HV (or_introl HdT)) as [sb [Eb Hb]].
  destruct (scoreOf_fused T [] q d HT (NoDup_nil _) (or_introl HdT))
    as [st [Et Ht]].
  destruct (scoreOf_fused [] V q d (NoDup_nil _) HV (or_intror HdV))
    as [sv [Ev Hv]].
  exists sb, st, sv. repeat (split; [assumption|]).
  rewrite Ri, Rj in Hb. rewrite Ri in Ht. rewrite Rj in Hv.
  change (rank_in d []) with (@None nat) in Ht, Hv.
  destruct (fused_spec_ranked i j) as [Fb [Ft Fv]].
  destruct (unclamped_both i j) as [_ [Lt Lv]].
  rewrite Hb, Ht, Hv, Fb, Ft, Fv. split; assumption.
Qed.

Lemma NoDup_concrete_keyword : NoDup (map id Fixtures.keyword_hits).
Proof. repeat constructor; simpl; intuition discriminate. Qed.

Lemma NoDup_concrete_vector : NoDup (map id Fixtures.vector_hits).
Proof. repeat constructor; simpl; intuition discriminate. Qed.

Lemma fuseResults_scores_witness :
  NoDup (map id Fixtures.keyword_hits) /\
  NoDup (map id Fixtures.vector_hits) /\
  let out := fuseResults Fixtures.keyword_hits Fixtures.vector_hits "api" in
  NoDup (map id out) /\
  (forall d, In d (map id out) <->
             In d (map id Fixtures.keyword_hits) \/
             In d (map id Fixtures.vector_hits)) /\
  (forall res, In res out ->
     score res == fused_spec (rank_in (id res) Fixtures.keyword_hits)
                             (rank_in (id res) Fixtures.vector_hits)).
Proof.
  split; [exact NoDup_concrete_keyword|].
  split; [exact NoDup_concrete_vector|].
  exact (fuseResults_scores Fixtures.keyword_hits Fixtures.vector_hits
                            "api" NoDup_concrete_keyword
                            NoDup_concrete_vector).
Defined.

(** The scores of the two sample lists: the shared document comes first. *)
Example fuseResults_sample :
  map (fun res => (id res, score res))
      (fuseResults Fixtures.keyword_hits Fixtures.vector_hits "api")
  = [("b"%string, 24288 # 378200); ("a"%string, 22 # 610); ("c"%string, 1 # 62)].
Proof. vm_compute. reflexivity. Qed.

Lemma both_lists_score_higher_witness :
  In "b"%string (map id Fixtures.keyword_hits) /\
  In "b"%string (map id Fixtures.vector_hits) /\
  exists both text_only vector_only,
    scoreOf "b" (fuseResults Fixtures.keyword_hits Fixtures.vector_hits "api")
      = Some both /\
    scoreOf "b" (fuseResults Fixtures.keyword_hits [] "api") = Some text_only /\
    scoreOf "b" (fuseResults [] Fixtures.vector_hits "api") = Some vector_only /\
    text_only < both /\ vector_only < both.
Proof.
  assert (HT : In "b"%string (map id Fixtures.keyword_hits))
    by (simpl; auto).
  assert (HV : In "b"%string (map id Fixtures.vector_hits))
    by (simpl; auto).
  split; [exact HT|]. split; [exact HV|].
  exact (both_lists_score_higher _ _ "api" "b" NoDup_concrete_keyword
                                 NoDup_concrete_vector HT HV).
Defined.

(** With a repeated id in the vector list the entry accumulates a share per
    occurrence and keeps the last rank. *)
Example repeated_id_accumulates :
  map score (fuseResults [] [Fixtures.hit "a" 0.5; Fixtures.hit "a" 0.4] "api")
  = [123 # 3782].
Proof. vm_compute. reflexivity. Qed.

End FusionFacts.
(** ** The three searches *)

Module SearchFacts.
Import Db Search Notions ListFacts StoreFacts FusionFacts.

Local Open Scope Q_scope.


(** *** The vector side *)

(** [vectorSearch] gets no further than the embedding of its query. *)
Lemma vectorSearch_outcome `{Backend} `{Embeddings.Natural} (db : Db.t)
      (e : Embeddings.engine) (query : string) (o : options) :
  vectorSearch db e query o
  = (Throw Embeddings.not_a_function,
     Embeddings.mkEngine (Embeddings.documents e) true).
Proof.
  unfold vectorSearch. rewrite EmbeddingFacts.embed_outcome. reflexivity.
Qed.

Lemma hybridSearch_outcome `{Backend} `{Embeddings.Natural} (db : Db.t)
      (e : Embeddings.engine) (query : string) (o : options) :
  hybridSearch db e query o
  = (Throw Embeddings.not_a_function,
     Embeddings.mkEngine (Embeddings.documents e) true).
Proof.
  unfold hybridSearch. rewrite vectorSearch_outcome. reflexivity.
Qed.

(** A repeated id collects a share per occurrence: five occurrences in the
    vector list pass the largest score of a document that occurs once in
    each list. *)
Lemma repeated_id_passes_top_score :
  exists res,
    In res (fuseResults [] (repeat (Fixtures.hit "a" 0.5) 5) "api") /\
    top_score < score res.
Proof.
  exists (nth 0 (fuseResults [] (repeat (Fixtures.hit "a" 0.5) 5) "api")
              (Fixtures.hit "a" 0)).
  split; [vm_compute; left; reflexivity|vm_compute; reflexivity].
Qed.

(** C4, the divergence and what holds of the fusion.  [hybridSearch]
    returns no list, empty or not: whatever the store, the query and the
    options, the vector search throws and the hybrid search rejects with
    it.  Of the fusion itself: when no id occurs twice in either list,
    every fused score is at most (3/61) * 1.2 * 1.1, the clamp leaves it as
    it is, and no result passes a minimum score of 0.065 or more; with
    repeated ids the bound fails. *)
Theorem hybridSearch_returns_no_list :
  (forall (backend : Backend) (natural : Embeddings.Natural) (db : Db.t)
          (e : Embeddings.engine) (query : string) (o : options),
      (exists err, fst (hybridSearch db e query o) = Throw err) /\
      (forall results, fst (hybridSearch db e query o) <> Ok results)) /\
  (forall (T V : list SearchResult) (q : string),
      NoDup (map id T) -> NoDup (map id V) ->
      (forall res, In res (fuseResults T V q) ->
         score res <= (3 # 61) * 1.2 * 1.1 /\
         exists f, In f (map snd (resultMap T V)) /\
                   res = finalize f /\ score res == boosted f) /\
      (forall m, 0.065 <= m ->
         filter (fun result => Qle_bool m (score result))
                (fuseResults T V q) = [])) /\
  (exists res,
      In res (fuseResults [] (repeat (Fixtures.hit "a" 0.5) 5) "api") /\
      (3 # 61) * 1.2 * 1.1 < score res).
Proof.
  split; [|split].
  - intros backend natural db e query o. rewrite hybridSearch_outcome.
    split; [eexists; reflexivity|]. intros results E. discriminate E.
  - intros T V q HT HV. split.
    + intros res Hin.
      destruct (fuseResults_score T V q res HT HV Hin) as [_ [[_ Hle] Hf]].
      split; [exact Hle|exact Hf].
    + intros m Hm. apply filter_drops_all. intros res Hin.
      destruct (fuseResults_score _ _ _ res HT HV Hin) as [_ [[_ Hle] _]].
      pose proof top_score_small as Hsmall.
      destruct (Qle_bool m (score res)) eqn:E; [|reflexivity].
      apply Qle_bool_iff in E. lra.
  - exact repeated_id_passes_top_score.
Qed.

(** *** The keyword search *)

(** What the filter of [textSearch] lets through: results whose normalized
    score is at most a tenth of [minScore]. *)
Lemma textSearch_scores_below `{Backend} (db : Db.t) (query : string)
      (o : options) (res : SearchResult) :
  In res (textSearch db query o) ->
  score res <= Qmax 0 (minScore o / 10).
Proof.
  intros Hin. unfold textSearch in Hin. apply in_map_iff in Hin.
  destruct Hin as [row [<- Hrow]]. simpl.
  unfold textRows in Hrow. apply In_firstn in Hrow.
  apply sort_by_In in Hrow. apply filter_In in Hrow.
  destruct Hrow as [_ Hraw]. apply Qle_bool_iff in Hraw.
  set (raw := bm25 (documents db) query (snd row)) in *.
  unfold normalizeBm25, Qdiv. change (/ 10) with (1 # 10).
  apply Q.max_le_compat_l.
  eapply Qle_trans; [apply Q.le_min_r|]. lra.
Qed.

Lemma normalizeBm25_antitone (a b : Q) :
  b <= a -> normalizeBm25 a <= normalizeBm25 b.
Proof.
  intros Hle. unfold normalizeBm25, Qdiv. change (/ 10) with (1 # 10).
  apply Q.max_le_compat_l, Q.min_le_compat_l. lra.
Qed.

(** The order of the results of [textSearch]: normalized scores never
    decrease along the list, so the weakest of the returned matches comes
    first. *)
Lemma textSearch_ascending `{Backend} (db : Db.t) (query : string) (o : options) :
  StronglySorted (fun r1 r2 => score r1 <= score r2) (textSearch db query o).
Proof.
  unfold textSearch, textRows.
  set (raw := fun row : Document * Document =>
                bm25 (documents db) query (snd row)).
  apply (StronglySorted_map (fun a b => Qle_bool (raw b) (raw a) = true)).
  - intros a b Hab. simpl. apply normalizeBm25_antitone.
    apply Qle_bool_iff. exact Hab.
  - apply StronglySorted_firstn.
    apply (sort_by_sorted (fun a b => Qle_bool (raw b) (raw a))).
    + intros a b. rewrite !Qle_bool_iff.
      destruct (Qlt_le_dec (raw a) (raw b)) as [Hlt|Hle];
        [right; apply Qlt_le_weak; exact Hlt|left; exact Hle].
    + intros a b c. rewrite !Qle_bool_iff. intros H1 H2.
      exact (Qle_trans _ _ _ H2 H1).
Qed.

(** Rows with a negative raw value do not pass a minimum score of 0 or
    less. *)
Lemma negative_is_silent `{Backend} (db : Db.t) (query : string) (o : options) :
  (forall f, In f (documents db) -> fts_match query f = true ->
             bm25 (documents db) query f < 0) ->
  minScore o <= 0 -> textSearch db query o = [].
Proof.
  intros Hneg Hmin. unfold textSearch, textRows.
  rewrite (filter_drops_all
             (fun row : Document * Document =>
                Qle_bool (- minScore o) (bm25 (documents db) query (snd row))));
    [destruct (limit o); reflexivity|].
  intros [d f] Hrow. apply filter_In in Hrow. destruct Hrow as [Hrow _].
  unfold joinFts in Hrow. apply in_flat_map in Hrow.
  destruct Hrow as [f0 [Hf0 Hpair]]. apply in_map_iff in Hpair.
  destruct Hpair as [d0 [Epair _]]. injection Epair as -> ->.
  apply filter_In in Hf0. destruct Hf0 as [Hf Hmatch].
  specialize (Hneg f Hf Hmatch). simpl.
  destruct (Qle_bool (- minScore o) (bm25 (documents db) query f)) eqn:E;
    [|reflexivity].
  apply Qle_bool_iff in E. lra.
Qed.

(** The sample store whose ids are the numerals of the rowids, with any
    backend for which SQLite joins every note to its own FTS row and every
    note matches, and with any raw values in the order of the sample: the
    third note below -1/2, the other two above it, the first the nearest
    to 0.  With a minimum score of 1/2 the search returns the first two
    notes, the first, the weakest match, before the second. *)
Lemma textSearch_numbered `{Backend} (query : string) :
  let docs := documents Fixtures.numbered_db in
  let raw := bm25 docs query in
  let n1 := Fixtures.note "1" "weak" in
  let n2 := Fixtures.note "2" "fair" in
  let n3 := Fixtures.note "3" "strong" in
  (forall f, In f docs -> fts_match query f = true) ->
  (forall d f, In d docs -> In f docs ->
     text_equals_integer (doc_id d) (rowid f) = (doc_id d =? doc_id f)%string) ->
  raw n3 < - (1 # 2) -> - (1 # 2) <= raw n2 -> raw n2 < raw n1 ->
  let results :=
    textSearch Fixtures.numbered_db query (mkOptions 5 None (1 # 2)) in
  map id results = ["1"; "2"]%string /\
  map score results = [normalizeBm25 (raw n1); normalizeBm25 (raw n2)].
Proof.
  cbv zeta. intros Hmatch Hjoin H3 H2 H1.
  assert (Hin : forall i, (i < 3)%nat ->
            In (nth i (documents Fixtures.numbered_db) (Fixtures.note "" ""))
               (documents Fixtures.numbered_db)).
  { intros i Hi. apply nth_In. exact Hi. }
  pose proof (Hin 0%nat ltac:(lia)) as I1.
  pose proof (Hin 1%nat ltac:(lia)) as I2.
  pose proof (Hin 2%nat ltac:(lia)) as I3.
  cbn [nth Fixtures.numbered_db documents] in I1, I2, I3, H1, H2, H3.
  unfold textSearch, textRows, joinFts, joins.
  cbn [Fixtures.numbered_db documents filter].
  rewrite (Hmatch _ I1), (Hmatch _ I2), (Hmatch _ I3).
  cbn [flat_map filter].
  rewrite (Hjoin _ _ I1 I1), (Hjoin _ _ I2 I1), (Hjoin _ _ I3 I1),
          (Hjoin _ _ I1 I2), (Hjoin _ _ I2 I2), (Hjoin _ _ I3 I2),
          (Hjoin _ _ I1 I3), (Hjoin _ _ I2 I3), (Hjoin _ _ I3 I3).
  change (doc_id (Fixtures.note "1" "weak")) with "1"%string.
  change (doc_id (Fixtures.note "2" "fair")) with "2"%string.
  change (doc_id (Fixtures.note "3" "strong")) with "3"%string.
  cbn [String.eqb Ascii.eqb Bool.eqb andb map app filter
       collection_filter collection minScore limit fst snd].
  set (docs := [Fixtures.note "1" "weak"; Fixtures.note "2" "fair";
                Fixtures.note "3" "strong"]) in *.
  set (r1 := bm25 docs query (Fixtures.note "1" "weak")) in *.
  set (r2 := bm25 docs query (Fixtures.note "2" "fair")) in *.
  set (r3 := bm25 docs query (Fixtures.note "3" "strong")) in *.
  assert (E1 : Qle_bool (- (1 # 2)) r1 = true) by (apply Qle_bool_iff; lra).
  assert (E2 : Qle_bool (- (1 # 2)) r2 = true) by (apply Qle_bool_iff; lra).
  assert (E3 : Qle_bool (- (1 # 2)) r3 = false).
  { destruct (Qle_bool (- (1 # 2)) r3) eqn:E; [|reflexivity].
    apply Qle_bool_iff in E. lra. }
  assert (E21 : Qle_bool r2 r1 = true) by (apply Qle_bool_iff; lra).
  rewrite E1, E2, E3.
  cbn [sort_by fold_right insert_by fst snd]. fold r1 r2. rewrite E21.
  split; reflexivity.
Qed.

(** C1, the divergence.  The statement keeps the rows whose raw [bm25] is
    at least [-minScore] and orders them by the raw value, largest first,
    while the score it reports is [(-raw)/10], clamped.  So on every store,
    for every query and options, the reported scores never decrease along
    the list, the weakest match first, and every reported score is at
    most a tenth of [minScore], below [minScore] when that is positive.
    On the sample store whose ids are the numerals of the rowids, whatever
    the raw values of its three matching notes are, as long as the third
    is below -1/2, the other two are not, and the first is the nearest to
    0: a minimum score of 1/2 returns the first two notes, the weakest
    match first, both with a score below the minimum, and leaves out the
    third, the best match; when the raw values are negative, the default
    minimum of 0 returns nothing.  On the sample store whose ids are no
    numerals the join selects no row, and the search returns nothing
    although every note matches. *)
Theorem textSearch_returns_weakest_first :
  (forall (backend : Backend) (db : Db.t) (query : string) (o : options),
      StronglySorted (fun r1 r2 => score r1 <= score r2)
                     (textSearch db query o) /\
      forall res, In res (textSearch db query o) ->
        score res <= Qmax 0 (minScore o / 10) /\
        (0 < minScore o -> score res < minScore o)) /\
  (forall (backend : Backend) (query : string),
      let docs := documents Fixtures.numbered_db in
      let raw := bm25 docs query in
      let n1 := Fixtures.note "1" "weak" in
      let n2 := Fixtures.note "2" "fair" in
      let n3 := Fixtures.note "3" "strong" in
      (forall f, In f docs -> fts_match query f = true) ->
      (forall d f, In d docs -> In f docs ->
         text_equals_integer (doc_id d) (rowid f)
         = (doc_id d =? doc_id f)%string) ->
      raw n3 < - (1 # 2) -> - (1 # 2) <= raw n2 -> raw n2 < raw n1 ->
      raw n1 < 0 ->
      let results :=
        textSearch Fixtures.numbered_db query (mkOptions 5 None (1 # 2)) in
      map id results = ["1"; "2"]%string /\
      map score results = [normalizeBm25 (raw n1); normalizeBm25 (raw n2)] /\
      normalizeBm25 (raw n1) <= normalizeBm25 (raw n2) /\
      normalizeBm25 (raw n2) < 1 # 2 /\
      normalizeBm25 (raw n2) < normalizeBm25 (raw n3) /\
      textSearch Fixtures.numbered_db query default_options = []) /\
  (forall o : options,
      @textSearch Fixtures.sample_backend Fixtures.search_db "api" o = []).
Proof.
  split; [|split].
  - intros backend db query o. split; [apply textSearch_ascending|].
    intros res Hin. pose proof (textSearch_scores_below db query o res Hin) as Hle.
    split; [exact Hle|]. intros Hpos.
    eapply Qle_lt_trans; [exact Hle|].
    apply Q.max_lub_lt; [exact Hpos|].
    unfold Qdiv. change (/ 10) with (1 # 10). lra.
  - intros backend query. cbv zeta. intros Hmatch Hjoin H3 H2 H1 H0.
    destruct (textSearch_numbered query Hmatch Hjoin H3 H2 H1) as [Hids Hscores].
    split; [exact Hids|]. split; [exact Hscores|].
    set (docs := documents Fixtures.numbered_db) in *.
    set (r1 := bm25 docs query (Fixtures.note "1" "weak")) in *.
    set (r2 := bm25 docs query (Fixtures.note "2" "fair")) in *.
    set (r3 := bm25 docs query (Fixtures.note "3" "strong")) in *.
    assert (N : forall r, r < 0 -> - (5 # 1) <= r ->
                          normalizeBm25 r == (- r) / 10).
    { intros r Hneg Hlow. unfold normalizeBm25, Qdiv.
      change (/ 10) with (1 # 10).
      rewrite Q.min_r by lra. apply Q.max_r. lra. }
    assert (N3 : 1 # 20 < normalizeBm25 r3).
    { unfold normalizeBm25, Qdiv. change (/ 10) with (1 # 10).
      apply Q.max_lt_iff. right. apply Q.min_glb_lt; lra. }
    split; [apply normalizeBm25_antitone; lra|].
    rewrite (N r2) by lra. unfold Qdiv. change (/ 10) with (1 # 10).
    split; [lra|]. split; [lra|].
    apply (negative_is_silent Fixtures.numbered_db query default_options);
      [|simpl; lra].
    intros f Hf _. cbn [Fixtures.numbered_db documents] in Hf. fold docs.
    destruct Hf as [<-|[<-|[<-|[]]]]; fold r1 r2 r3; lra.
  - intros o. unfold textSearch, textRows.
    replace (@joinFts Fixtures.sample_backend Fixtures.search_db "api")
      with (@nil (Document * Document)) by (vm_compute; reflexivity).
    simpl. destruct (limit o); reflexivity.
Qed.

(** The sample backend and its raw values -0.2, -0.4 and -8: the scores
    returned for a minimum of 0.5 are 0.02 and 0.04, and the note left out
    scores 0.8. *)
Lemma textSearch_returns_weakest_first_sample :
  map id (@textSearch Fixtures.sample_backend Fixtures.numbered_db "api"
                      (mkOptions 5 None (1 # 2))) = ["1"; "2"]%string /\
  map title (@textSearch Fixtures.sample_backend Fixtures.numbered_db "api"
                         (mkOptions 5 None (1 # 2))) = ["weak"; "fair"]%string /\
  map score (@textSearch Fixtures.sample_backend Fixtures.numbered_db "api"
                         (mkOptions 5 None (1 # 2))) = [0.02; 0.04] /\
  normalizeBm25 (Fixtures.sample_raw (Fixtures.note "3" "strong")) == 0.8 /\
  @textSearch Fixtures.sample_backend Fixtures.numbered_db "api"
              default_options = [].
Proof.
  destruct (proj1 (proj2 textSearch_returns_weakest_first)
              Fixtures.sample_backend "api"%string)
    as [Hids [Hscores [_ [_ [_ Hnone]]]]].
  - intros f _. reflexivity.
  - intros d f Hd Hf. cbn [Fixtures.numbered_db documents] in Hd, Hf.
    destruct Hd as [<-|[<-|[<-|[]]]]; destruct Hf as [<-|[<-|[<-|[]]]];
      reflexivity.
  - reflexivity.
  - discriminate.
  - reflexivity.
  - reflexivity.
  - split; [exact Hids|]. split; [vm_compute; reflexivity|].
    split; [vm_compute; reflexivity|]. split; [vm_compute; reflexivity|].
    exact Hnone.
Defined.

End SearchFacts.

(** ** The store: lookups, cleanup and the indexing pass *)

Module StoreLaws.
Import Db Collections Notions Fixtures ListFacts StoreFacts RemoveFacts IndexFacts
       ReachFacts.
Import Maintenance Terms Samples.

(** *** Insertion and lookup *)





(** *** Cleanup *)


(** *** What an indexing pass touches *)



(** *** Updating every collection *)

Lemma indexNext_loop `{FileSystem} (rows : list (Collection * nat)) :
  forall db,
    (forall row, In row rows -> In (fst row) (collections db)) ->
    exists db',
      fold_left indexNext rows (Ok db) = Ok db' /\
      collections db' = collections db /\
      embeddings db' = embeddings db /\
      (wf db -> wf db').
Proof.
  induction rows as [|row rows IH]; intros db Hreg; simpl.
  - exists db. auto.
  - assert (Hrow : has_collection (collections db) (col_name (fst row)) = true).
    { apply has_collection_In, Hreg. left. reflexivity. }
    destruct (findCollection_registered db _ Hrow) as [c [Hc _]].
    destruct (indexCollection db (col_name (fst row))) as [[db1 n]|e] eqn:E;
      [|unfold indexCollection in E; rewrite Hc in E; discriminate].
    destruct (indexCollection_tables db db1 _ n E)
      as [Hc1 [He1 _]].
    destruct (IH db1) as [db' [Hf [Hc' [He' Hwf']]]].
    { intros r Hr. rewrite Hc1. apply Hreg. right. exact Hr. }
    exists db'. split; [exact Hf|]. split; [congruence|].
    split; [congruence|].
    intros Hwf. apply Hwf'.
    pose proof (wf_indexCollection db (col_name (fst row)) Hwf) as H1.
    rewrite E in H1. exact H1.
Qed.

Lemma update_returns `{FileSystem} (db : Db.t) :
  exists db1,
    update db = Ok (cleanup db1) /\
    collections db1 = collections db /\
    embeddings db1 = embeddings db /\
    (wf db -> wf db1).
Proof.
  destruct (indexNext_loop (getCollections db) db) as [db1 [Hf Hrest]].
  { intros row Hrow. unfold getCollections in Hrow.
    apply in_map_iff in Hrow. destruct Hrow as [c [<- Hc]].
    apply sort_by_In in Hc. exact Hc. }
  exists db1. split; [|exact Hrest]. unfold update. rewrite Hf. reflexivity.
Qed.

(** [update] stays within the stores the program reaches: it is a run of
    indexing passes followed by a cleanup. *)
Lemma indexNext_thrown `{FileSystem} (rows : list (Collection * nat))
      (e : error) :
  fold_left indexNext rows (Throw e) = Throw e.
Proof. induction rows as [|row rows IH]; simpl; auto. Qed.

Lemma indexNext_reachable `{FileSystem} (rows : list (Collection * nat)) :
  forall db db',
    reachable db -> fold_left indexNext rows (Ok db) = Ok db' ->
    reachable db'.
Proof.
  induction rows as [|row rows IH]; intros db db' Hr Hf; simpl in Hf.
  - injection Hf as <-. exact Hr.
  - pose proof (reach_indexCollection _ db (col_name (fst row)) Hr) as H1.
    destruct (indexCollection db (col_name (fst row))) as [[db1 n]|e];
      [|rewrite indexNext_thrown in Hf; discriminate Hf].
    exact (IH db1 db' H1 Hf).
Qed.

Lemma update_reachable `{FileSystem} (db db' : Db.t) :
  reachable db -> update db = Ok db' -> reachable db'.
Proof.
  intros Hr Hu. unfold update in Hu.
  destruct (fold_left indexNext (getCollections db) (Ok db)) as [db1|e] eqn:E;
    [|discriminate Hu].
  injection Hu as <-. apply reach_cleanup.
  exact (indexNext_reachable _ db db1 Hr E).
Qed.


(** *** Unique keys *)

(** X5: On a store whose primary keys are unique, every operation of the two
    managers and of the search engine that writes leaves them unique. *)
Theorem store_keys_stay_unique `{FileSystem} `{Search.Backend}
        `{Embeddings.Natural} (db : Db.t) :
  wf db ->
  (forall name path mask, wf (addCollection db name path mask)) /\
  (forall d, wf (addDocument db d)) /\
  (forall id, wf (removeDocument db id)) /\
  wf (cleanup db) /\
  (forall name, wf (fst (remove db name))) /\
  (forall name, wf (db_after db (indexCollection db name))) /\
  (forall db', update db = Ok db' -> wf db') /\
  (forall e force, wf (fst (Search.generateEmbeddings db e force))).
Proof.
  intros Hwf.
  split; [intros; apply wf_addCollection; exact Hwf|].
  split; [intros; apply wf_addDocument; exact Hwf|].
  split; [intros; apply wf_removeDocument; exact Hwf|].
  split; [apply wf_cleanup; exact Hwf|].
  split.
  { intros name. pose proof (wf_removeCollection db name Hwf) as Hr.
    unfold remove. destruct (removeCollection db name) as [db1 changes].
    destruct (changes =? 0)%nat; exact Hr. }
  split; [intros; apply wf_indexCollection; exact Hwf|].
  split; [|intros; apply wf_generateEmbeddings; exact Hwf].
  intros db' Hu. destruct (update_returns db) as [db1 [Hu1 [_ [_ Hwf1]]]].
  rewrite Hu1 in Hu. injection Hu as <-. apply wf_cleanup, Hwf1, Hwf.
Qed.

Lemma wf_one_doc_db : wf one_doc_db.
Proof. repeat split; repeat constructor; simpl; intuition. Qed.

Lemma store_keys_stay_unique_witness :
  wf one_doc_db /\
  wf (db_after one_doc_db
               (@indexCollection (plain_fs disk_v1) one_doc_db "notes")).
Proof.
  split; [exact wf_one_doc_db|].
  exact (proj1 (proj2 (proj2 (proj2 (proj2 (proj2
           (@store_keys_stay_unique (plain_fs disk_v1) sample_backend
                                    sample_natural one_doc_db
                                    wf_one_doc_db))))))
           "notes").
Defined.

End StoreLaws.

(** ** Indexing a new collection twice *)

Module ReindexFacts.
Import Db Collections Notions Fixtures ListFacts StoreFacts IndexFacts.
Import Maintenance Terms Samples StoreLaws.




Section Fresh.
Context `{FileSystem}.
Variables (c : Collection) (existing : list Document) (doc : string -> Document).


End Fresh.



End ReindexFacts.

(** ** Listing the collections, and files shared between them *)

Module ListingFacts.
Import Db Collections Notions Fixtures ListFacts StoreFacts IndexFacts.
Import Maintenance Terms Samples StoreLaws.

(** *** The order of names *)



(** *** Counting the documents of the collections *)






(** *** A file matched by two collections *)



End ListingFacts.

(** ** The searches: what their results look like *)

Module ResultFacts.
Import Db Search Notions Terms ListFacts StoreFacts FusionFacts SearchFacts.

Local Open Scope Q_scope.

Section ByScore.
Context {A : Type} (key : A -> Q).

Lemma by_key_total (a b : A) :
  Qle_bool (key b) (key a) = true \/ Qle_bool (key a) (key b) = true.
Proof.
  rewrite !Qle_bool_iff.
  destruct (Qlt_le_dec (key a) (key b)) as [Hlt|Hle];
    [right; apply Qlt_le_weak; exact Hlt|left; exact Hle].
Qed.

Lemma by_key_trans (a b c : A) :
  Qle_bool (key b) (key a) = true -> Qle_bool (key c) (key b) = true ->
  Qle_bool (key c) (key a) = true.
Proof.
  rewrite !Qle_bool_iff. intros H1 H2. exact (Qle_trans _ _ _ H2 H1).
Qed.

(** Sorting by decreasing key. *)
Lemma sort_descending (l : list A) :
  StronglySorted (fun a b => key b <= key a)
                 (sort_by (fun a b => Qle_bool (key b) (key a)) l).
Proof.
  rewrite <- (map_id (sort_by _ l)).
  apply (StronglySorted_map (fun a b => Qle_bool (key b) (key a) = true)).
  - intros a b Hab. apply Qle_bool_iff. exact Hab.
  - apply (sort_by_sorted (fun a b => Qle_bool (key b) (key a))).
    + intros a b. apply by_key_total.
    + intros a b c. apply by_key_trans.
Qed.
End ByScore.

Lemma normalizeBm25_range (raw : Q) :
  0 <= normalizeBm25 raw <= 1.
Proof.
  unfold normalizeBm25. split; [apply Q.le_max_l|].
  apply Q.max_lub; [lra|apply Q.le_min_l].
Qed.

(** X9: [textSearch] returns at most [limit] results.  Each carries the id,
    path, title and collection of a stored document [d] that passes the
    collection filter, and the normalized [bm25] of an index row that
    matches the query, whose rowid equals the id of [d] for SQLite, and
    whose raw value is at least [-minScore].  The reported score lies
    between 0 and 1 and is at most a tenth of [minScore] (0 when
    [minScore] is negative); along the list the scores never decrease. *)
Theorem textSearch_results `{Backend} (db : Db.t) (query : string) (o : options) :
  let results := textSearch db query o in
  (List.length results <= limit o)%nat /\
  StronglySorted (fun r1 r2 => score r1 <= score r2) results /\
  forall res, In res results ->
    0 <= score res <= 1 /\
    score res <= Qmax 0 (minScore o / 10) /\
    exists d f, In d (documents db) /\ In f (documents db) /\
                id res = doc_id d /\ path res = doc_path d /\
                title res = doc_title d /\
                r_collection res = doc_collection d /\
                collection_filter (collection o) d = true /\
                fts_match query f = true /\
                text_equals_integer (doc_id d) (rowid f) = true /\
                - minScore o <= bm25 (documents db) query f /\
                score res = normalizeBm25 (bm25 (documents db) query f).
Proof.
  cbv zeta. split; [|split].
  - unfold textSearch, textRows. rewrite length_map. apply firstn_le_length.
  - apply textSearch_ascending.
  - intros res Hin. split; [|split].
    + unfold textSearch in Hin. apply in_map_iff in Hin.
      destruct Hin as [row [<- _]]. apply normalizeBm25_range.
    + exact (textSearch_scores_below db query o res Hin).
    + unfold textSearch in Hin. apply in_map_iff in Hin.
      destruct Hin as [[d f] [<- Hrow]]. simpl.
      unfold textRows in Hrow. apply In_firstn in Hrow.
      apply sort_by_In in Hrow. apply filter_In in Hrow.
      destruct Hrow as [Hrow Hraw]. apply filter_In in Hrow.
      destruct Hrow as [Hrow Hcol]. apply Qle_bool_iff in Hraw.
      unfold joinFts in Hrow. apply in_flat_map in Hrow.
      destruct Hrow as [f0 [Hf0 Hpair]]. apply in_map_iff in Hpair.
      destruct Hpair as [d0 [Epair Hd0]]. injection Epair as -> ->.
      apply filter_In in Hf0. destruct Hf0 as [Hf Hmatch].
      apply filter_In in Hd0. destruct Hd0 as [Hd Hjoin].
      exists d, f. repeat split; assumption.
Qed.

(** X10: [vectorSearch] returns no list: whatever the store, the query and the
    options, it rejects with the [TypeError] that the embedding of the
    query throws, before any row is read. *)
Theorem vectorSearch_returns_no_list `{Backend} `{Embeddings.Natural}
        (db : Db.t) (e : Embeddings.engine) (query : string) (o : options) :
  fst (vectorSearch db e query o) = Throw Embeddings.not_a_function /\
  (forall results, fst (vectorSearch db e query o) <> Ok results) /\
  Embeddings.documents (snd (vectorSearch db e query o))
  = Embeddings.documents e.
Proof.
  rewrite vectorSearch_outcome. split; [reflexivity|].
  split; [|reflexivity]. intros results E. discriminate E.
Qed.

(** X12: The fusion orders its results by the reciprocal-rank sum as it was
    before the boosts, largest first; the scores it returns include the
    boosts, and so need not decrease along the list: with the keyword list
    x, a, b and the vector list b, a the result a (ranks 2 and 2) precedes
    the result b (ranks 3 and 1), whose score is the higher. *)
Theorem fuseResults_ordered_before_boost :
  (forall (T V : list SearchResult) (q : string),
      exists entries,
        Permutation entries (map snd (resultMap T V)) /\
        StronglySorted (fun a b => rrfScore b <= rrfScore a) entries /\
        fuseResults T V q = map finalize entries) /\
  (exists (T V : list SearchResult) (q : string) (first second : SearchResult),
      NoDup (map id T) /\ NoDup (map id V) /\
      firstn 2 (fuseResults T V q) = [first; second] /\
      score first < score second).
Proof.
  split.
  - intros T V q.
    exists (sort_by (fun a b => Qle_bool (rrfScore b) (rrfScore a))
                    (map snd (resultMap T V))).
    split; [apply Permutation_sym, sort_by_perm|].
    split; [apply (sort_descending rrfScore)|reflexivity].
  - exists [Fixtures.hit "x" 0.9; Fixtures.hit "a" 0.5; Fixtures.hit "b" 0.4],
           [Fixtures.hit "b" 0.8; Fixtures.hit "a" 0.7], "q"%string.
    eexists. eexists.
    split; [repeat constructor; simpl; intuition discriminate|].
    split; [repeat constructor; simpl; intuition discriminate|].
    split; [vm_compute; reflexivity|]. vm_compute. reflexivity.
Qed.




(** *** Generating the embeddings *)

(** X14: [generateEmbeddings] writes nothing.  For every document it takes up,
    the embedding of the text throws, the [catch] of the loop logs the
    error, and the next document is tried: the call returns normally and
    the store is exactly as it was, with or without [force]; a store
    without embeddings stays without. *)
Theorem generateEmbeddings_writes_nothing `{Backend} `{Embeddings.Natural}
        (db : Db.t) (e : Embeddings.engine) (force : bool) :
  fst (generateEmbeddings db e force) = db /\
  embeddings (fst (generateEmbeddings db e force)) = embeddings db /\
  Embeddings.documents (snd (generateEmbeddings db e force))
  = Embeddings.documents e.
Proof.
  rewrite generateEmbeddings_store. split; [reflexivity|].
  split; [reflexivity|].
  unfold generateEmbeddings.
  generalize (if force then documents db
              else filter (fun d => negb (has_embedding (embeddings db)
                                                        (doc_id d)))
                          (documents db)).
  intros todo.
  assert (Hloop : forall (st : Db.t * Embeddings.engine),
             Embeddings.documents (snd (fold_left embedDocument todo st))
             = Embeddings.documents (snd st)).
  { induction todo as [|d todo IH]; intros st; cbn [fold_left];
      [reflexivity|].
    rewrite IH, embedDocument_outcome. reflexivity. }
  exact (Hloop (db, e)).
Qed.

End ResultFacts.

(** ** Reading a document back *)

Module LookupFacts.
Import Db Text Lookup Terms Notions Fixtures ListFacts StoreLaws.

(** *** Strings and slices *)

Lemma split_on_nonempty (sep : ascii) (s : string) : split_on sep s <> [].
Proof.
  destruct s as [|c s]; simpl; [discriminate|].
  destruct (Ascii.eqb c sep); [discriminate|].
  destruct (split_on sep s); discriminate.
Qed.

(** Joining the lines of a text gives the text back. *)
Lemma concat_split_on (s : string) :
  String.concat Search.newline (split_on (ascii_of_nat 10) s) = s.
Proof.
  induction s as [|c s IH]; simpl; [reflexivity|].
  destruct (Ascii.eqb c (ascii_of_nat 10)) eqn:E.
  - apply Ascii.eqb_eq in E. subst c.
    pose proof (split_on_nonempty (ascii_of_nat 10) s) as Hne.
    destruct (split_on (ascii_of_nat 10) s) as [|piece pieces]; [contradiction|].
    change (String.concat Search.newline (EmptyString :: piece :: pieces))
      with (Search.newline ++ String.concat Search.newline (piece :: pieces))%string.
    rewrite IH. reflexivity.
  - pose proof (split_on_nonempty (ascii_of_nat 10) s) as Hne.
    destruct (split_on (ascii_of_nat 10) s) as [|piece pieces]; [contradiction|].
    rewrite <- IH. destruct pieces; reflexivity.
Qed.

Lemma slice_from_start {A : Type} (start count : Z) (l : list A) :
  (0 <= start)%Z -> (0 < count)%Z ->
  slice start (start + count) l
  = firstn (Z.to_nat count) (skipn (Z.to_nat start) l).
Proof.
  intros Hs Hc. unfold slice, slice_index.
  set (len := Z.of_nat (List.length l)).
  destruct (start <? 0)%Z eqn:E1; [apply Z.ltb_lt in E1; lia|].
  destruct (start + count <? 0)%Z eqn:E2; [apply Z.ltb_lt in E2; lia|].
  destruct (Z_le_gt_dec len start) as [Hout|Hin].
  - rewrite (skipn_all2 l) by (subst len; lia).
    rewrite Z.min_r by lia. rewrite skipn_all2 by (subst len; lia).
    rewrite !firstn_nil. reflexivity.
  - rewrite (Z.min_l start len) by lia.
    destruct (Z_le_gt_dec (start + count) len) as [Hfit|Hover].
    + rewrite Z.min_l by lia. f_equal. lia.
    + rewrite Z.min_r by lia.
      rewrite !firstn_all2; [reflexivity| |];
        rewrite length_skipn; subst len; lia.
Qed.

Lemma slice_to_end {A : Type} (start : Z) (l : list A) :
  (0 <= start)%Z ->
  slice start (Z.of_nat (List.length l)) l = skipn (Z.to_nat start) l.
Proof.
  intros Hs. unfold slice, slice_index.
  set (len := Z.of_nat (List.length l)).
  destruct (start <? 0)%Z eqn:E1; [apply Z.ltb_lt in E1; lia|].
  destruct (len <? 0)%Z eqn:E2; [apply Z.ltb_lt in E2; subst len; lia|].
  rewrite (Z.min_id len).
  destruct (Z_le_gt_dec len start) as [Hout|Hin].
  - rewrite Z.min_r by lia.
    rewrite (skipn_all2 (n := Z.to_nat len)) by (subst len; lia).
    rewrite (skipn_all2 (n := Z.to_nat start)) by (subst len; lia).
    apply firstn_nil.
  - rewrite Z.min_l by lia. apply firstn_all2.
    rewrite length_skipn. subst len. lia.
Qed.

(** X15: The window of [getDocument]: with [maxLines = n > 0] and
    [fromLine = k >= 1] the content returned is the lines [k] to
    [k + n - 1] of the stored content, joined by line feeds; without
    [maxLines] it is the lines from [k] on.  In particular the default
    options, and any [maxLines] that covers all lines from line 1, return
    the content as it is stored. *)
Theorem window_is_the_requested_lines (content : string) (n k : Z) :
  (0 < n)%Z -> (1 <= k)%Z ->
  window content (mkGetOptions (Some n) k)
  = String.concat Search.newline
      (firstn (Z.to_nat n) (skipn (Z.to_nat (k - 1)) (lines_of content))) /\
  window content (mkGetOptions None k)
  = String.concat Search.newline (skipn (Z.to_nat (k - 1)) (lines_of content)) /\
  window content default_get = content /\
  (Z.of_nat (List.length (lines_of content)) <= n ->
   window content (mkGetOptions (Some n) 1) = content).
Proof.
  intros Hn Hk. unfold window, lines_of. simpl.
  assert (En : (n =? 0)%Z = false) by (apply Z.eqb_neq; lia).
  rewrite En. simpl.
  split; [|split; [|split]].
  - rewrite slice_from_start by lia. reflexivity.
  - destruct (1 <? k)%Z eqn:E.
    + rewrite slice_to_end by lia. reflexivity.
    + apply Z.ltb_ge in E. assert (k = 1%Z) by lia. subst k.
      simpl. symmetry. apply concat_split_on.
  - reflexivity.
  - intros Hall. rewrite (slice_from_start 0 n) by lia. simpl.
    rewrite firstn_all2 by lia. apply concat_split_on.
Qed.

Lemma window_is_the_requested_lines_witness :
  (0 < 1)%Z /\ (1 <= 2)%Z /\
  window ("one" ++ Search.newline ++ "two" ++ Search.newline ++ "three")
         (mkGetOptions (Some 1) 2)
  = "two".
Proof.
  assert (Hn : (0 < 1)%Z) by lia. assert (Hk : (1 <= 2)%Z) by lia.
  split; [exact Hn|]. split; [exact Hk|].
  exact (eq_trans
           (proj1 (window_is_the_requested_lines
                     ("one" ++ Search.newline ++ "two" ++ Search.newline ++ "three")
                     1 2 Hn Hk))
           eq_refl).
Defined.

(** *** Looking a document up *)





(** *** The pattern of the fuzzy path lookup *)








End LookupFacts.

(** ** Cosine similarity and normalization, as the doubles give them *)

Module SimilarityFacts.
Import Floats Binary64.

Local Open Scope float_scope.

(** *** Arithmetic of the doubles *)

Lemma SFmul_comm (prec emax : Z) (x y : SpecFloat.spec_float) :
  SpecFloat.SFmul prec emax x y = SpecFloat.SFmul prec emax y x.
Proof.
  destruct x as [sx|sx| |sx mx ex], y as [sy|sy| |sy my ey]; simpl;
    try reflexivity; try (rewrite xorb_comm; reflexivity).
  rewrite xorb_comm, Pos.mul_comm, Z.add_comm. reflexivity.
Qed.

Lemma mul_comm (x y : float) : x * y = y * x.
Proof.
  apply Prim2SF_inj. rewrite !mul_spec. apply SFmul_comm.
Qed.

Lemma zero_cases (x : float) : is_zero x = true -> x = 0 \/ x = -0.
Proof.
  unfold is_zero. rewrite eqb_spec. intros E.
  rewrite <- (SF2Prim_Prim2SF x).
  destruct (Prim2SF x) as [[|]|[|]| |s m e]; try discriminate E.
  - right. reflexivity.
  - left. reflexivity.
  - simpl in E. destruct s; discriminate.
Qed.

Lemma square_of_zero (x : float) : is_zero x = true -> x * x = 0.
Proof. intros Hz. destruct (zero_cases x Hz) as [-> | ->]; reflexivity. Qed.

(** *** The sums of the loop *)

Lemma accumulate_swap (a : list float) :
  forall b d na nb,
    fold_left accumulate (combine b a) (d, nb, na)
    = (let '(d', na', nb') := fold_left accumulate (combine a b) (d, na, nb) in
       (d', nb', na')).
Proof.
  induction a as [|x a IH]; intros [|y b] d na nb; try reflexivity.
  cbn [combine fold_left accumulate]. rewrite (mul_comm y x). apply IH.
Qed.

Lemma cosineSimilarity_sym (a b : list float) :
  cosineSimilarity a b = cosineSimilarity b a.
Proof.
  unfold cosineSimilarity. rewrite (Nat.eqb_sym (List.length b)).
  destruct (List.length a =? List.length b)%nat; [|reflexivity]. cbn [negb].
  rewrite (accumulate_swap a b 0 0 0).
  destruct (fold_left accumulate (combine a b) (0, 0, 0)) as [[d na] nb].
  rewrite orb_comm. rewrite (mul_comm (sqrt nb)). reflexivity.
Qed.

Lemma zero_vector_norm (a : list float) :
  forallb is_zero a = true ->
  forall b d nb,
    let '(_, na', _) := fold_left accumulate (combine a b) (d, 0, nb) in
    na' = 0.
Proof.
  induction a as [|x a IH]; intros Hz [|y b] d nb; try reflexivity.
  cbn [forallb] in Hz. apply andb_true_iff in Hz. destruct Hz as [Hx Ha].
  cbn [combine fold_left accumulate]. rewrite (square_of_zero x Hx).
  change (0 + 0) with 0. apply IH. exact Ha.
Qed.

Lemma cosineSimilarity_zero_l (a b : list float) :
  forallb is_zero a = true -> cosineSimilarity a b = 0.
Proof.
  intros Hz. unfold cosineSimilarity.
  destruct (List.length a =? List.length b)%nat; [|reflexivity]. cbn [negb].
  pose proof (zero_vector_norm a Hz b 0 0) as Hn.
  destruct (fold_left accumulate (combine a b) (0, 0, 0)) as [[d na] nb].
  rewrite Hn. reflexivity.
Qed.

(** X18: [cosineSimilarity] on doubles is symmetric, and 0 when the lengths
    differ or either vector holds zeros only.  It is not confined to the
    interval from -1 to 1, and a vector need not have similarity 1 to
    itself: for [1, 1, 1] with itself the result is 1.0000000000000002,
    for [1, 1] with itself 0.9999999999999998. *)
Theorem cosineSimilarity_on_doubles :
  (forall a b, cosineSimilarity a b = cosineSimilarity b a) /\
  (forall a b, List.length a <> List.length b -> cosineSimilarity a b = 0) /\
  (forall a b, forallb is_zero a = true \/ forallb is_zero b = true ->
               cosineSimilarity a b = 0) /\
  cosineSimilarity [1; 1; 1] [1; 1; 1] = 0x1.0000000000001p+0 /\
  (1 <? cosineSimilarity [1; 1; 1] [1; 1; 1]) = true /\
  cosineSimilarity [1; 1] [1; 1] = 0x1.ffffffffffffep-1 /\
  (cosineSimilarity [1; 1] [1; 1] <? 1) = true.
Proof.
  split; [exact cosineSimilarity_sym|]. split; [|split].
  - intros a b Hne. unfold cosineSimilarity.
    apply Nat.eqb_neq in Hne. rewrite Hne. reflexivity.
  - intros a b [Hz|Hz]; [|rewrite cosineSimilarity_sym];
      apply cosineSimilarity_zero_l; exact Hz.
  - repeat split; vm_compute; reflexivity.
Qed.

(** X19: [vector_distance_cosine] on doubles is 1 when either text fails to
    parse and is symmetric.  It can be negative, and the score
    [1 / (1 + distance)] of the vector search can then pass 1: for
    [1, 1, 1] against itself the distance is -2.220446049250313e-16 and
    the score 1.0000000000000002. *)
Theorem vector_distance_cosine_on_doubles :
  (forall a, vector_distance_cosine None a = 1 /\
             vector_distance_cosine a None = 1) /\
  (forall a b, vector_distance_cosine a b = vector_distance_cosine b a) /\
  (let distance :=
     vector_distance_cosine (Some [1; 1; 1]) (Some [1; 1; 1]) in
   distance = (- 0x1p-52) /\
   (distance <? 0) = true /\
   vectorScore distance = 0x1.0000000000001p+0 /\
   (1 <? vectorScore distance) = true).
Proof.
  split; [|split].
  - intros [a|]; split; reflexivity.
  - intros [a|] [b|]; try reflexivity. simpl.
    rewrite (cosineSimilarity_sym a b). reflexivity.
  - cbv zeta. repeat split; vm_compute; reflexivity.
Qed.

(** *** Normalizing *)

Lemma magnitude_zero (v : list float) :
  forallb is_zero v = true -> magnitude v = 0.
Proof.
  intros Hz. unfold magnitude.
  assert (E : fold_left (fun sum val => sum + val * val) v 0 = 0).
  { induction v as [|x v IH]; [reflexivity|].
    cbn [forallb] in Hz. apply andb_true_iff in Hz. destruct Hz as [Hx Hv].
    cbn [fold_left]. rewrite (square_of_zero x Hx). change (0 + 0) with 0.
    apply IH. exact Hv. }
  rewrite E. reflexivity.
Qed.

(** X20: [normalizeVector] on doubles keeps the number of components and
    returns a vector of zeros as it is.  It also returns as it is a vector
    so small that its squares underflow, such as [2^-600, 2^-600]; the
    result need not have magnitude 1 (for [1, 1] it has
    0.9999999999999999), and normalizing a second time can change it. *)
Theorem normalizeVector_on_doubles :
  (forall v, List.length (normalizeVector v) = List.length v) /\
  (forall v, forallb is_zero v = true -> normalizeVector v = v) /\
  normalizeVector [0x1p-600; 0x1p-600] = [0x1p-600; 0x1p-600] /\
  magnitude (normalizeVector [1; 1]) = 0x1.fffffffffffffp-1 /\
  (magnitude (normalizeVector [1; 1]) <? 1) = true /\
  normalizeVector (normalizeVector [1; 1]) <> normalizeVector [1; 1].
Proof.
  split; [|split; [|split; [|split; [|split]]]].
  - intros v. unfold normalizeVector.
    destruct (magnitude v =? 0); [reflexivity|apply length_map].
  - intros v Hz. unfold normalizeVector. rewrite (magnitude_zero v Hz).
    reflexivity.
  - vm_compute. reflexivity.
  - vm_compute. reflexivity.
  - vm_compute. reflexivity.
  - vm_compute. intros E. discriminate E.
Qed.

End SimilarityFacts.

(** ** The embedding engine: batches, nearest candidates, features *)

Module EngineFacts.
Import Embeddings Similarity Notions Terms ListFacts EmbeddingFacts.

Local Open Scope R_scope.

(** *** Batches *)

(** X21: [embedBatch] returns the empty list for no texts, and no list for any
    other input: the embedding of the first text throws, the loop ends
    there, and the corpus of the engine is as it was. *)
Theorem embedBatch_returns_no_vectors `{Natural} (e : engine)
        (texts : list string) :
  (texts = [] -> embedBatch e texts = (Ok [], e)) /\
  (texts <> [] ->
   fst (embedBatch e texts) = Throw not_a_function /\
   documents (snd (embedBatch e texts)) = documents e).
Proof.
  split.
  - intros ->. reflexivity.
  - intros Hne. destruct texts as [|text rest]; [contradiction|].
    rewrite embedBatch_outcome. split; reflexivity.
Qed.

(** *** The nearest candidates *)







(** *** The word-pattern features *)

Lemma tags_partition (tokens : list string) :
  (count_if (is_pos Noun) tokens + count_if (is_pos Verb) tokens
   + count_if (is_pos Adj) tokens + count_if (is_pos Other) tokens
   = List.length tokens)%nat.
Proof.
  unfold count_if, is_pos.
  induction tokens as [|t tokens IH]; simpl; [reflexivity|].
  destruct (tag t); simpl; lia.
Qed.

Lemma ratio_range (n d : nat) : (n <= d)%nat -> (0 < d)%nat -> 0 <= ratio n d <= 1.
Proof.
  intros Hle Hd. unfold ratio.
  assert (Hd' : 0 < INR d) by (apply lt_0_INR; exact Hd).
  assert (Hn : 0 <= INR n) by apply pos_INR.
  assert (Hnd : INR n <= INR d) by (apply le_INR; exact Hle).
  split.
  - apply Rmult_le_pos; [exact Hn|]. left. apply Rinv_0_lt_compat. exact Hd'.
  - apply (Rmult_le_reg_r (INR d)); [exact Hd'|].
    unfold Rdiv. rewrite Rmult_assoc, Rinv_l by lra. lra.
Qed.

Lemma count_if_le {A : Type} (p : A -> bool) (l : list A) :
  (count_if p l <= List.length l)%nat.
Proof. apply filter_length_le. Qed.

(** X23: [generateSemanticFeatures] of a non-empty token list: eight features.
    The first four are the numbers of tokens tagged noun, verb, adjective
    and other, each divided by the number of tokens; the four numbers add
    up to the number of tokens, and each quotient lies between 0 and 1.
    The seventh is the number of long words divided by the number of
    tokens, between 0 and 1 as well.  A token that ends in "ly" is never
    counted as a noun. *)
Theorem generateSemanticFeatures_shares (tokens : list string) :
  tokens <> [] ->
  exists (nouns verbs adjs others long : nat) (len dev uniq : R),
    let total := List.length tokens in
    generateSemanticFeatures tokens
    = [ratio nouns total; ratio verbs total; ratio adjs total;
       ratio others total; len; dev; ratio long total; uniq] /\
    (nouns + verbs + adjs + others = total)%nat /\
    (long <= total)%nat /\
    0 <= ratio nouns total <= 1 /\ 0 <= ratio verbs total <= 1 /\
    0 <= ratio adjs total <= 1 /\ 0 <= ratio others total <= 1 /\
    0 <= ratio long total <= 1 /\
    (forall token, endsWith token "ly" = true -> tag token <> Noun).
Proof.
  intros Hne. unfold generateSemanticFeatures.
  exists (count_if (is_pos Noun) tokens), (count_if (is_pos Verb) tokens),
         (count_if (is_pos Adj) tokens), (count_if (is_pos Other) tokens),
         (count_if (fun t => (6 <? String.length t)%nat) tokens).
  do 3 eexists. cbv zeta. split; [reflexivity|].
  assert (Hlen : (0 < List.length tokens)%nat)
    by (destruct tokens; [contradiction|simpl; lia]).
  split; [apply tags_partition|]. split; [apply count_if_le|].
  repeat split; try (apply ratio_range; [apply count_if_le|exact Hlen]).
  intros token Hly. unfold tag.
  destruct (endsWith token "ing" || endsWith token "ed" || endsWith token "s");
    [discriminate|].
  rewrite Hly. simpl. discriminate.
Qed.

Lemma generateSemanticFeatures_shares_witness :
  ["rotating"; "keys"; "daily"]%string <> [] /\
  exists (nouns verbs adjs others : nat),
    (nouns + verbs + adjs + others = 3)%nat /\
    firstn 4 (generateSemanticFeatures ["rotating"; "keys"; "daily"]%string)
    = [ratio nouns 3; ratio verbs 3; ratio adjs 3; ratio others 3].
Proof.
  assert (Hne : ["rotating"; "keys"; "daily"]%string <> []) by discriminate.
  split; [exact Hne|].
  destruct (generateSemanticFeatures_shares _ Hne)
    as [nouns [verbs [adjs [others [long [len [dev [uniq [E [Hsum _]]]]]]]]]].
  exists nouns, verbs, adjs, others. split; [exact Hsum|].
  rewrite E. reflexivity.
Defined.

End EngineFacts.

(** ** The text that is embedded *)

Module TextFacts.
Import Embeddings Terms ListFacts.

(** *** Characters *)

Ltac by_cases_on c :=
  destruct c as [[] [] [] [] [] [] [] []]; vm_compute; auto; discriminate.

Lemma softened_class (c : ascii) :
  let x := toLowerCase c in
  let y := if is_word x || is_space x then x else " "%char in
  plain y = true \/ is_space y = true.
Proof. cbv zeta. by_cases_on c. Qed.

Lemma plain_not_space (c : ascii) : plain c = true -> is_space c = false.
Proof. by_cases_on c. Qed.

Lemma plain_not_blank (c : ascii) : plain c = true -> Ascii.eqb c " " = false.
Proof. by_cases_on c. Qed.

Lemma plain_kept (c : ascii) :
  plain c = true ->
  (if is_word (toLowerCase c) || is_space (toLowerCase c)
   then toLowerCase c else " "%char) = c.
Proof. by_cases_on c. Qed.

Lemma blank_is_space (c : ascii) : Ascii.eqb c " " = true -> is_space c = true.
Proof. intros E. apply Ascii.eqb_eq in E. subst c. reflexivity. Qed.

Lemma space_not_blank (c : ascii) :
  is_space c = true -> Ascii.eqb c " " = false -> plain c = false.
Proof. by_cases_on c. Qed.

(** *** Collapsing and trimming *)

Lemma collapse_loose (l : list ascii) :
  Forall (fun c => plain c = true \/ is_space c = true) l ->
  forall in_run, loose in_run (collapse_spaces in_run l) = true.
Proof.
  induction 1 as [|c t Hc Ht IH]; intros in_run; simpl; [reflexivity|].
  destruct (is_space c) eqn:Es.
  - destruct in_run; [apply IH|]. simpl. apply IH.
  - destruct Hc as [Hp|Hs]; [|congruence]. simpl.
    rewrite (plain_not_blank c Hp), Hp. simpl. apply IH.
Qed.

Lemma loose_head (b : bool) (c : ascii) (t : list ascii) :
  loose b (c :: t) = true ->
  (Ascii.eqb c " " = true /\ b = false /\ loose true t = true) \/
  (Ascii.eqb c " " = false /\ plain c = true /\ loose false t = true).
Proof.
  simpl. destruct (Ascii.eqb c " ").
  - intros E. apply andb_true_iff in E. destruct E as [Eb Et].
    left. apply negb_true_iff in Eb. auto.
  - intros E. apply andb_true_iff in E. right. tauto.
Qed.

Lemma trim_start_tight (t : list ascii) :
  loose true t = true -> trim_start t = t.
Proof.
  destruct t as [|c t]; [reflexivity|]. intros E.
  destruct (loose_head _ _ _ E) as [[_ [Eb _]]|[_ [Hp _]]]; [discriminate|].
  simpl. rewrite (plain_not_space c Hp). reflexivity.
Qed.

Lemma trim_start_loose (b : bool) (l : list ascii) :
  loose b l = true -> loose true (trim_start l) = true.
Proof.
  destruct l as [|c t]; [reflexivity|]. intros E.
  destruct (loose_head _ _ _ E) as [[Ec [_ Et]]|[Ec [Hp Et]]].
  - simpl. rewrite (blank_is_space c Ec).
    rewrite (trim_start_tight t Et). exact Et.
  - simpl. rewrite (plain_not_space c Hp). simpl. rewrite Ec, Hp. exact Et.
Qed.

Lemma trim_start_snoc (l : list ascii) (c : ascii) :
  trim_start (l ++ [c])
  = match trim_start l with
    | [] => if is_space c then [] else [c]
    | kept => kept ++ [c]
    end.
Proof.
  induction l as [|x l IH]; simpl; [destruct (is_space c); reflexivity|].
  destruct (is_space x); [exact IH|reflexivity].
Qed.

(** [trim] drops the white space at the end after the white space at the
    start. *)
Lemma trim_end (l : list ascii) : rev (trim_start (rev l)) = strip_end l.
Proof.
  induction l as [|c t IH]; simpl; [reflexivity|].
  rewrite trim_start_snoc, <- IH.
  destruct (trim_start (rev t)) as [|x kept]; simpl.
  - destruct (is_space c); reflexivity.
  - rewrite rev_app_distr. simpl.
    destruct (rev kept ++ [x]) eqn:E; [|reflexivity].
    destruct (rev kept); discriminate E.
Qed.

Lemma strip_end_spaced (l : list ascii) :
  forall b, loose b l = true ->
    strip_end l = [] \/ spaced b (strip_end l) = true.
Proof.
  induction l as [|c t IH]; intros b E; [left; reflexivity|].
  destruct (loose_head _ _ _ E) as [[Ec [-> Et]]|[Ec [Hp Et]]]; simpl.
  - destruct (IH true Et) as [E0|Es].
    + rewrite E0, (blank_is_space c Ec). left. reflexivity.
    + destruct (strip_end t) as [|x rest] eqn:Er; [discriminate Es|].
      right. cbn [spaced]. rewrite Ec. exact Es.
  - destruct (IH false Et) as [E0|Es].
    + rewrite E0, (plain_not_space c Hp). right. simpl. rewrite Ec, Hp.
      reflexivity.
    + destruct (strip_end t) as [|x rest] eqn:Er.
      * rewrite (plain_not_space c Hp). right. simpl. rewrite Ec, Hp.
        reflexivity.
      * right. cbn [spaced]. rewrite Ec, Hp. exact Es.
Qed.

(** *** Normalized texts are left as they are *)

Lemma spaced_head (b : bool) (c : ascii) (t : list ascii) :
  spaced b (c :: t) = true ->
  (Ascii.eqb c " " = true /\ b = false /\ spaced true t = true) \/
  (Ascii.eqb c " " = false /\ plain c = true /\ spaced false t = true).
Proof.
  simpl. destruct (Ascii.eqb c " ").
  - intros E. apply andb_true_iff in E. destruct E as [Eb Et].
    left. apply negb_true_iff in Eb. auto.
  - intros E. apply andb_true_iff in E. right. tauto.
Qed.

Lemma spaced_loose (l : list ascii) :
  forall b, spaced b l = true -> loose b l = true.
Proof.
  induction l as [|c t IH]; intros b E; [reflexivity|].
  destruct (spaced_head _ _ _ E) as [[Ec [-> Et]]|[Ec [Hp Et]]]; simpl;
    rewrite Ec; [|rewrite Hp]; simpl; apply IH; exact Et.
Qed.

Lemma softened_id (l : list ascii) :
  forall b, loose b l = true ->
    map (fun c => if is_word c || is_space c then c else " "%char)
        (map toLowerCase l) = l.
Proof.
  induction l as [|c t IH]; intros b E; [reflexivity|].
  destruct (loose_head _ _ _ E) as [[Ec [_ Et]]|[_ [Hp Et]]]; simpl.
  - apply Ascii.eqb_eq in Ec. subst c. simpl. f_equal. exact (IH _ Et).
  - rewrite (plain_kept c Hp). f_equal. exact (IH _ Et).
Qed.

Lemma collapse_id (l : list ascii) :
  forall b, loose b l = true -> collapse_spaces b l = l.
Proof.
  induction l as [|c t IH]; intros b E; [reflexivity|].
  destruct (loose_head _ _ _ E) as [[Ec [-> Et]]|[_ [Hp Et]]]; simpl.
  - rewrite (blank_is_space c Ec). apply Ascii.eqb_eq in Ec. subst c.
    f_equal. exact (IH _ Et).
  - rewrite (plain_not_space c Hp). f_equal. exact (IH _ Et).
Qed.

Lemma loose_any_start (l : list ascii) :
  loose true l = true -> loose false l = true.
Proof.
  destruct l as [|c t]; [reflexivity|]. intros E.
  destruct (loose_head _ _ _ E) as [[_ [Eb _]]|[Ec [Hp Et]]]; [discriminate|].
  simpl. rewrite Ec, Hp. exact Et.
Qed.

Lemma strip_end_id (l : list ascii) :
  forall b, spaced b l = true -> strip_end l = l.
Proof.
  induction l as [|c t IH]; intros b E; [reflexivity|].
  destruct (spaced_head _ _ _ E) as [[Ec [-> Et]]|[Ec [Hp Et]]]; simpl.
  - rewrite (IH _ Et). destruct t; [discriminate Et|reflexivity].
  - rewrite (IH _ Et). destruct t; [|reflexivity].
    rewrite (plain_not_space c Hp). reflexivity.
Qed.

Lemma normal_fixed (l : list ascii) :
  l = [] \/ spaced true l = true ->
  trim (collapse_spaces false
          (map (fun c => if is_word c || is_space c then c else " "%char)
               (map toLowerCase l))) = l.
Proof.
  intros [->|Es]; [reflexivity|].
  pose proof (spaced_loose l true Es) as Hl.
  rewrite (softened_id l true Hl).
  rewrite (collapse_id l false (loose_any_start l Hl)).
  unfold trim. rewrite trim_end, (trim_start_tight l Hl).
  exact (strip_end_id l true Es).
Qed.

(** X24: [preprocessText] returns a normalized text: lower-case letters,
    digits and underscores in words, one blank between neighbouring words
    and none at either end, or the empty text.  It leaves every normalized
    text as it is, so applying it twice is applying it once. *)
Theorem preprocessText_normalizes (text : string) :
  normal (preprocessText text) = true /\
  preprocessText (preprocessText text) = preprocessText text /\
  (forall s, normal s = true -> preprocessText s = s).
Proof.
  assert (Hfix : forall s, normal s = true -> preprocessText s = s).
  { intros s Hs. unfold preprocessText. rewrite normal_fixed.
    - apply string_of_list_ascii_of_string.
    - unfold normal in Hs. destruct (list_ascii_of_string s); auto. }
  assert (Hnormal : normal (preprocessText text) = true).
  { unfold normal, preprocessText. rewrite list_ascii_of_string_of_list_ascii.
    set (soft := map (fun c => if is_word c || is_space c then c else " "%char)
                     (map toLowerCase (list_ascii_of_string text))).
    assert (Hsoft : Forall (fun c => plain c = true \/ is_space c = true) soft).
    { subst soft. rewrite map_map. apply Forall_forall. intros y Hy.
      apply in_map_iff in Hy. destruct Hy as [c [<- _]].
      apply softened_class. }
    pose proof (collapse_loose soft Hsoft false) as Hl.
    pose proof (trim_start_loose _ _ Hl) as Ht.
    unfold trim. rewrite trim_end.
    destruct (strip_end_spaced _ true Ht) as [E|E]; [rewrite E; reflexivity|].
    destruct (strip_end _); [reflexivity|exact E]. }
  split; [exact Hnormal|]. split; [apply Hfix; exact Hnormal|exact Hfix].
Qed.

End TextFacts.

(** ** The character features *)

Module FeatureFacts.
Import Embeddings Notions Terms ListFacts EmbeddingFacts EngineFacts.

Local Open Scope R_scope.

Section Totals.
Context {K : Type} (eqb : K -> K -> bool).

Lemma jsmap_set_total (k : K) (m : list (K * nat)) :
  forall n,
    list_sum (map snd (jsmap_set eqb k n m))
    = match jsmap_get eqb k m with
      | Some old => (list_sum (map snd m) - old + n)%nat
      | None => (list_sum (map snd m) + n)%nat
      end /\
    match jsmap_get eqb k m with
    | Some old => (old <= list_sum (map snd m))%nat
    | None => True
    end.
Proof.
  induction m as [|[k0 n0] m IH]; intros n; simpl; [split; [lia|exact I]|].
  destruct (eqb k0 k); simpl; [split; lia|].
  destruct (IH n) as [E Hle]. rewrite E.
  destruct (jsmap_get eqb k m); split; lia || exact I.
Qed.

Lemma count_into_total (m : list (K * nat)) (k : K) :
  list_sum (map snd (count_into eqb m k)) = S (list_sum (map snd m)).
Proof.
  unfold count_into.
  destruct (jsmap_get eqb k m) as [old|] eqn:E.
  - destruct (jsmap_set_total k m (old + 1)) as [Es Hle]. rewrite E in Es, Hle.
    rewrite Es. lia.
  - destruct (jsmap_set_total k m 1) as [Es _]. rewrite E in Es.
    rewrite Es. lia.
Qed.

(** The counts of a frequency table add up to the number of items. *)
Lemma frequencies_total (l : list K) :
  forall m,
    list_sum (map snd (fold_left (count_into eqb) l m))
    = (list_sum (map snd m) + List.length l)%nat.
Proof.
  induction l as [|k l IH]; intros m; simpl; [lia|].
  rewrite IH, count_into_total. lia.
Qed.
End Totals.

Lemma member_le_sum (l : list nat) (n : nat) :
  In n l -> (n <= list_sum l)%nat.
Proof.
  induction l as [|x l IH]; simpl; [intros []|].
  intros [->|Hin]; [lia|]. specialize (IH Hin). lia.
Qed.

Lemma ratio_positive (n d : nat) : (1 <= n)%nat -> (0 < d)%nat -> 0 < ratio n d.
Proof.
  intros Hn Hd. unfold ratio. apply Rdiv_lt_0_compat; apply lt_0_INR; lia.
Qed.

Lemma ratio_monotone (n n' d : nat) :
  (n <= n')%nat -> (0 < d)%nat -> ratio n d <= ratio n' d.
Proof.
  intros Hle Hd. unfold ratio, Rdiv. apply Rmult_le_compat_r.
  - left. apply Rinv_0_lt_compat, lt_0_INR. exact Hd.
  - apply le_INR. exact Hle.
Qed.

(** X25: [generateCharFeatures] of a non-empty text: the shares of its most
    frequent characters, at least one and at most 32 of them, the largest
    first, each positive and at most 1; then the length over 1000 and the
    shares of upper-case letters, digits and white space, each between 0
    and 1. *)
Theorem generateCharFeatures_shape (text : string) :
  text <> EmptyString ->
  exists shares upper digit space,
    generateCharFeatures text
    = shares ++ [INR (String.length text) / 1000; upper; digit; space] /\
    (1 <= List.length shares <= 32)%nat /\
    StronglySorted (fun a b => b <= a) shares /\
    (forall x, In x shares -> 0 < x <= 1) /\
    0 <= upper <= 1 /\ 0 <= digit <= 1 /\ 0 <= space <= 1.
Proof.
  intros Hne. unfold generateCharFeatures.
  set (chars := list_ascii_of_string text).
  set (total := List.length chars).
  set (freq := frequencies Ascii.eqb chars).
  set (ahead := fun a b : ascii * nat => (snd b <=? snd a)%nat).
  set (sorted := sort_by ahead freq).
  assert (Hchars : chars <> []).
  { subst chars. destruct text; [contradiction|discriminate]. }
  assert (Htotal : (0 < total)%nat).
  { subst total. destruct chars; [contradiction|simpl; lia]. }
  destruct (frequencies_positive Ascii.eqb chars []
              (fun kv (H : In kv []) => match H with end)
              (or_introl Hchars)) as [Hfne Hfpos].
  fold (frequencies Ascii.eqb chars) in Hfne, Hfpos. fold freq in Hfne, Hfpos.
  assert (Hsum : list_sum (map snd freq) = total).
  { unfold freq, frequencies. rewrite frequencies_total. reflexivity. }
  assert (Hmember : forall e, In e sorted -> (1 <= snd e <= total)%nat).
  { intros e He. apply sort_by_In in He. split; [apply Hfpos; exact He|].
    rewrite <- Hsum. apply member_le_sum. apply in_map. exact He. }
  exists (map (fun e => ratio (snd e) total) (firstn 32 sorted)).
  do 3 eexists. split; [reflexivity|].
  split; [|split; [|split]].
  - rewrite length_map, length_firstn. unfold sorted.
    rewrite sort_by_length. split; [|lia].
    destruct freq; [contradiction|simpl; lia].
  - apply (StronglySorted_map (fun a b => ahead a b = true)).
    + intros a b Hab. unfold ahead in Hab. apply Nat.leb_le in Hab.
      apply ratio_monotone; assumption.
    + apply StronglySorted_firstn. apply (sort_by_sorted ahead).
      * intros a b. unfold ahead. rewrite !Nat.leb_le. lia.
      * intros a b c. unfold ahead. rewrite !Nat.leb_le. lia.
  - intros x Hx. apply in_map_iff in Hx. destruct Hx as [e [<- He]].
    apply In_firstn in He. destruct (Hmember e He) as [H1 Ht]. split.
    + apply ratio_positive; assumption.
    + apply ratio_range; assumption.
  - repeat split; apply ratio_range; try exact Htotal; apply count_if_le.
Qed.

Lemma generateCharFeatures_shape_witness :
  "api keys" <> EmptyString /\
  exists shares upper digit space,
    generateCharFeatures "api keys"
    = shares ++ [INR (String.length "api keys") / 1000; upper; digit; space] /\
    (1 <= List.length shares <= 32)%nat.
Proof.
  assert (Hne : "api keys" <> EmptyString) by discriminate.
  split; [exact Hne|].
  destruct (generateCharFeatures_shape "api keys" Hne)
    as [shares [upper [digit [space [E [Hlen _]]]]]].
  exists shares, upper, digit, space. split; assumption.
Defined.

End FeatureFacts.

(** ** Dimensions that no text fills *)

Module LayoutFacts.
Import Embeddings Notions Terms ListFacts EmbeddingFacts.

Local Open Scope R_scope.

Lemma nth_write_from_after (fs : list R) :
  forall start v j,
    (start + List.length fs <= j)%nat ->
    nth j (write_from start fs v) 0 = nth j v 0.
Proof.
  induction fs as [|x fs IH]; intros start v j Hj; simpl in *; [reflexivity|].
  rewrite IH by lia. apply nth_set_at_other. lia.
Qed.

Lemma nth_fold_set_at {A : Type} (g : A -> nat) (h : A -> R -> R)
      (l : list A) (j : nat) :
  (forall a, In a l -> g a <> j) ->
  forall v, nth j (fold_left (fun v a => set_at (g a) (h a) v) l v) 0
            = nth j v 0.
Proof.
  induction l as [|a l IH]; intros Hg v; simpl; [reflexivity|].
  rewrite IH by (intros b Hb; apply Hg; right; exact Hb).
  apply nth_set_at_other. apply Hg. left. reflexivity.
Qed.

Lemma nth_zeros (n j : nat) : nth j (repeat 0 n) 0 = 0.
Proof.
  revert j. induction n as [|n IH]; intros [|j]; simpl; auto.
Qed.

Lemma generateCharFeatures_length (text : string) :
  (List.length (generateCharFeatures text) <= 36)%nat.
Proof.
  unfold generateCharFeatures. rewrite length_app, length_map.
  apply (Nat.le_trans _ (32 + 4)); [|lia].
  apply Nat.add_le_mono; [apply firstn_le_length|simpl; lia].
Qed.

Lemma createFeatureVector_gaps `{Natural} (docs : list (list string))
      (tokens : list string) (docIndex i : nat) :
  (292 <= i < 320)%nat \/ (328 <= i)%nat ->
  nth i (createFeatureVector docs tokens docIndex) 0 = 0.
Proof.
  intros Hi. unfold createFeatureVector.
  pose proof (generateCharFeatures_length (String.concat " " tokens)) as Hch.
  set (charFeatures := generateCharFeatures (String.concat " " tokens)) in *.
  assert (Hc64 : (List.length (firstn 64 charFeatures) <= 36)%nat).
  { rewrite length_firstn. lia. }
  assert (Hs64 : (List.length (firstn 64 (generateSemanticFeatures tokens))
                  <= 8)%nat).
  { rewrite length_firstn. simpl. lia. }
  assert (Ht : (List.length
                  (map (fun e => tfidf docs (fst e) docIndex)
                       (firstn 128 (frequencies String.eqb (map stem tokens))))
                <= 128)%nat).
  { rewrite length_map. apply firstn_le_length. }
  assert (Hsem : nth i (write_from 320 (firstn 64 (generateSemanticFeatures tokens))
                          (write_from 256 (firstn 64 charFeatures)
                             (fold_left
                                (fun v bigram =>
                                   set_at (128 + hashFeature bigram mod 128)
                                     (fun x => x + 1 / INR (List.length
                                                   (generateNGrams tokens 2))) v)
                                (generateNGrams tokens 2)
                                (write_from 0
                                   (map (fun e => tfidf docs (fst e) docIndex)
                                      (firstn 128 (frequencies String.eqb
                                                     (map stem tokens))))
                                   (repeat 0 dimensions))))) 0 = 0).
  { destruct Hi as [Hi|Hi].
    - rewrite nth_write_from_before by lia.
      rewrite nth_write_from_after by lia.
      rewrite (nth_fold_set_at (fun bigram => (128 + hashFeature bigram mod 128)%nat)).
      + rewrite nth_write_from_after by lia. apply nth_zeros.
      + intros a _. pose proof (Nat.mod_upper_bound (hashFeature a) 128). lia.
    - rewrite nth_write_from_after by lia.
      rewrite nth_write_from_after by lia.
      rewrite (nth_fold_set_at (fun bigram => (128 + hashFeature bigram mod 128)%nat)).
      + rewrite nth_write_from_after by lia. apply nth_zeros.
      + intros a _. pose proof (Nat.mod_upper_bound (hashFeature a) 128). lia. }
  exact Hsem.
Qed.

(** X26: Of the 384 components of the vector [createFeatureVector] builds,
    those at the positions 292 to 319 and 328 to 383 are 0 for every token
    list and corpus: the character features fill at most 36 of their 64
    places and the word-pattern features 8 of theirs. *)
Theorem createFeatureVector_leaves_dimensions_empty `{Natural}
        (docs : list (list string)) (tokens : list string)
        (docIndex i : nat) :
  (292 <= i < 320)%nat \/ (328 <= i < 384)%nat ->
  List.length (createFeatureVector docs tokens docIndex) = 384%nat /\
  nth i (createFeatureVector docs tokens docIndex) 0 = 0.
Proof.
  intros Hi. split; [apply createFeatureVector_length|].
  apply createFeatureVector_gaps. lia.
Qed.

Lemma createFeatureVector_leaves_dimensions_empty_witness :
  ((292 <= 300 < 320)%nat \/ (328 <= 300 < 384)%nat) /\
  nth 300 (@createFeatureVector Fixtures.sample_natural
             [["rotate"; "api"; "keys"]%string]
             ["rotate"; "api"; "keys"]%string 0) 0 = 0.
Proof.
  assert (Hi : (292 <= 300 < 320)%nat \/ (328 <= 300 < 384)%nat)
    by (left; lia).
  split; [exact Hi|].
  exact (proj2 (@createFeatureVector_leaves_dimensions_empty
                  Fixtures.sample_natural
                  [["rotate"; "api"; "keys"]%string]
                  ["rotate"; "api"; "keys"]%string 0%nat 300%nat Hi)).
Defined.

End LayoutFacts.

(** ** Parsing a file: title and cleaned content *)

Module MarkdownFacts.
Import Embeddings Text Markdown Terms ListFacts TextFacts LookupFacts.

(** *** Trimming *)

Lemma strip_end_head (c : ascii) (t : list ascii) :
  is_space c = false -> exists rest, strip_end (c :: t) = c :: rest.
Proof.
  intros Hc. simpl. destruct (strip_end t) as [|x rest].
  - rewrite Hc. exists []. reflexivity.
  - exists (x :: rest). reflexivity.
Qed.

Lemma strip_end_twice (l : list ascii) : strip_end (strip_end l) = strip_end l.
Proof.
  induction l as [|c t IH]; simpl; [reflexivity|].
  destruct (strip_end t) as [|x rest] eqn:E.
  - destruct (is_space c) eqn:Ec; [reflexivity|]. simpl. rewrite Ec. reflexivity.
  - simpl in *. rewrite IH. reflexivity.
Qed.

Lemma trim_start_head (l : list ascii) :
  trim_start l = [] \/
  exists c rest, trim_start l = c :: rest /\ is_space c = false.
Proof.
  induction l as [|c t IH]; simpl; [left; reflexivity|].
  destruct (is_space c) eqn:Ec; [exact IH|].
  right. exists c, t. auto.
Qed.

Lemma trim_value (l : list ascii) : trim l = strip_end (trim_start l).
Proof. unfold trim. apply trim_end. Qed.

(** A trimmed text has no white space at either end: trimming it again
    changes nothing. *)
Lemma trim_twice (l : list ascii) : trim (trim l) = trim l.
Proof.
  rewrite !trim_value.
  destruct (trim_start_head l) as [E|[c [rest [E Hc]]]]; rewrite E.
  - reflexivity.
  - destruct (strip_end_head c rest Hc) as [kept Ek]. rewrite Ek.
    simpl trim_start. rewrite Hc. rewrite <- Ek. apply strip_end_twice.
Qed.

(** *** The cleaned content *)

Lemma blank_is_white (c : ascii) : is_blank c = true -> is_space c = true.
Proof. by_cases_on c. Qed.

Lemma strip_blanks_tidy (l : list ascii) : tidy (strip_blanks l) = true.
Proof.
  induction l as [|c t IH]; simpl; [reflexivity|].
  destruct (is_blank c && match strip_blanks t with
                          | [] => true
                          | d :: _ => is_line_end d
                          end) eqn:E; [exact IH|].
  simpl. rewrite E, IH. reflexivity.
Qed.

Lemma tidy_tail (c : ascii) (t : list ascii) :
  tidy (c :: t) = true -> tidy t = true.
Proof. simpl. intros E. apply andb_true_iff in E. exact (proj2 E). Qed.

Lemma tidy_trim_start (l : list ascii) :
  tidy l = true -> tidy (trim_start l) = true.
Proof.
  induction l as [|c t IH]; intros Ht; [reflexivity|].
  simpl trim_start. destruct (is_space c); [|exact Ht].
  apply IH. exact (tidy_tail c t Ht).
Qed.

Lemma strip_end_first (t : list ascii) :
  match strip_end t with
  | [] => True
  | x :: _ => exists t', t = x :: t'
  end.
Proof.
  destruct t as [|c t]; simpl; [exact I|].
  destruct (strip_end t); [destruct (is_space c)|]; try exact I;
    exists t; reflexivity.
Qed.

Lemma tidy_strip_end (l : list ascii) :
  tidy l = true -> tidy (strip_end l) = true.
Proof.
  induction l as [|c t IH]; intros Ht; [reflexivity|].
  pose proof (tidy_tail c t Ht) as Ht'. specialize (IH Ht').
  simpl strip_end. pose proof (strip_end_first t) as Hfirst.
  destruct (strip_end t) as [|x rest] eqn:E.
  - destruct (is_space c) eqn:Ec; [reflexivity|]. simpl.
    destruct (is_blank c) eqn:Eb; [|reflexivity].
    rewrite (blank_is_white c Eb) in Ec. discriminate.
  - destruct Hfirst as [t' ->]. simpl in Ht. simpl.
    apply andb_true_iff in Ht. destruct Ht as [Hc _].
    rewrite Hc. exact IH.
Qed.

Lemma cleanUp_tidy (s : string) :
  trimmed (cleanUp s) = cleanUp s /\
  tidy (list_ascii_of_string (cleanUp s)) = true.
Proof.
  unfold trimmed, cleanUp. rewrite !list_ascii_of_string_of_list_ascii.
  split; [rewrite trim_twice; reflexivity|].
  rewrite trim_value. apply tidy_strip_end, tidy_trim_start, strip_blanks_tidy.
Qed.

(** X27: The cleaned content that [parseMarkdownFile] returns has no white
    space at its start or end, and no blank or tab right before a line feed
    or a carriage return. *)
Theorem parseMarkdownFile_content_is_tidy `{PathLib} (content filePath : string) :
  let cleanContent := snd (parseMarkdownFile content filePath) in
  trimmed cleanContent = cleanContent /\
  tidy (list_ascii_of_string cleanContent) = true.
Proof.
  cbv zeta. unfold parseMarkdownFile.
  destruct (findTitle _ 0 None) as [found contentStart]. simpl snd.
  apply cleanUp_tidy.
Qed.

(** *** The title *)

Lemma findTitle_step (raw : string) (rest : list string) (i : nat)
      (title : option string) :
  findTitle (raw :: rest) i title
  = if (5 <=? i)%nat then (title, 0%nat)
    else if prefix "# " (trimmed raw)
    then (Some (trimmed (substring 2 (String.length (trimmed raw))
                                   (trimmed raw))), (i + 1)%nat)
    else if match rest with
            | next :: _ => is_underline (trimmed next)
            | [] => false
            end
    then (Some (trimmed raw), (i + 2)%nat)
    else findTitle rest (i + 1)
                   (match frontmatter_title (trimmed raw) with
                    | Some t => Some t
                    | None => title
                    end).
Proof. reflexivity. Qed.

Lemma findTitle_silent (lines : list string) :
  forall i title,
    silent (5 - i) lines = true -> findTitle lines i title = (title, 0%nat).
Proof.
  induction lines as [|raw rest IH]; intros i title Hs; [reflexivity|].
  rewrite findTitle_step. destruct (5 <=? i)%nat eqn:E5; [reflexivity|].
  apply Nat.leb_gt in E5.
  replace (5 - i)%nat with (S (5 - (i + 1))) in Hs by lia.
  cbn [silent] in Hs. apply andb_true_iff in Hs. destruct Hs as [Hs Hrest].
  apply andb_true_iff in Hs. destruct Hs as [Hs Hfront].
  apply andb_true_iff in Hs. destruct Hs as [Hhead Hunder].
  apply negb_true_iff in Hhead, Hunder. rewrite Hhead, Hunder.
  destruct (frontmatter_title (trimmed raw)); [discriminate|].
  apply IH. exact Hrest.
Qed.

Lemma substring_all (s : string) :
  forall n, (String.length s <= n)%nat -> substring 0 n s = s.
Proof.
  induction s as [|c s IH]; intros [|n] Hn; simpl in *;
    try reflexivity; try lia.
  f_equal. apply IH. lia.
Qed.

Lemma trim_start_all_space (l : list ascii) :
  trim_start l = [] -> strip_end l = [].
Proof.
  induction l as [|c l IH]; simpl; [reflexivity|].
  destruct (is_space c) eqn:Ec; [|discriminate].
  intros E. rewrite (IH E). reflexivity.
Qed.

Lemma heading_text (line : string) :
  trimmed line = line -> prefix "# " line = true ->
  exists c t, trimmed (substring 2 (String.length line) line) = String c t.
Proof.
  intros Ht Hp. destruct line as [|a [|b rest]]; try discriminate.
  { cbn [prefix] in Hp. destruct (Ascii.ascii_dec "#" a); discriminate. }
  cbn [prefix] in Hp.
  destruct (Ascii.ascii_dec "#" a) as [<-|]; [|discriminate].
  destruct (Ascii.ascii_dec " " b) as [<-|]; [|discriminate].
  change (substring 2 (String.length (String "#" (String " " rest)))
                    (String "#" (String " " rest)))
    with (substring 0 (2 + String.length rest) rest).
  rewrite substring_all by lia.
  unfold trimmed in *. apply (f_equal list_ascii_of_string) in Ht.
  rewrite list_ascii_of_string_of_list_ascii in Ht. simpl in Ht.
  rewrite trim_value in Ht. simpl in Ht.
  set (r := list_ascii_of_string rest) in *.
  destruct (strip_end r) as [|x kept] eqn:Er; [discriminate Ht|].
  rewrite trim_value.
  destruct (trim_start_head r) as [E|[c [t [E Hc]]]].
  - exfalso. rewrite (trim_start_all_space r E) in Er. discriminate.
  - rewrite E. destruct (strip_end_head c t Hc) as [kept' Ek]. rewrite Ek.
    exists c, (string_of_list_ascii kept'). reflexivity.
Qed.

(** X28: The title that [parseMarkdownFile] returns for a text of ASCII
    characters.  When the first line, trimmed, starts with a number sign
    and a blank, the title is the rest of that line, trimmed and never
    empty, and the content is cleaned without the first line.  When none of
    the first five lines is a heading, is underlined with equal signs or is
    a title line of a front matter, the title is made from the file name,
    whatever the later lines hold, and the whole text is cleaned.  (Beyond
    ASCII, [trim] of JavaScript also strips the no-break space and the
    byte order mark, which [trimmed] leaves in place.) *)
Theorem parseMarkdownFile_title `{PathLib} (content filePath : string) :
  ascii_text content = true ->
  (forall first others,
      lines_of content = first :: others ->
      prefix "# " (trimmed first) = true ->
      exists c t,
        trimmed (substring 2 (String.length (trimmed first)) (trimmed first))
        = String c t /\
        parseMarkdownFile content filePath
        = (String c t, cleanUp (String.concat Search.newline others))) /\
  (silent 5 (lines_of content) = true ->
   parseMarkdownFile content filePath
   = (fallbackTitle (stem_of filePath), cleanUp content)).
Proof.
  intros _. unfold lines_of, parseMarkdownFile. split.
  - intros first others El Hp. rewrite El, findTitle_step.
    change (5 <=? 0)%nat with false. cbv iota. rewrite Hp.
    destruct (heading_text (trimmed first)) as [c [t E]].
    + unfold trimmed. rewrite list_ascii_of_string_of_list_ascii, trim_twice.
      reflexivity.
    + exact Hp.
    + exists c, t. split; [exact E|]. rewrite E. reflexivity.
  - intros Hs. rewrite (findTitle_silent _ 0 None Hs). simpl skipn.
    rewrite concat_split_on. reflexivity.
Qed.

Lemma parseMarkdownFile_title_witness :
  ascii_text ("# Hello " ++ Search.newline ++ "Body")%string = true /\
  @parseMarkdownFile {| stem_of := fun p => p |}
    ("# Hello " ++ Search.newline ++ "Body")%string "notes/a.md"
  = ("Hello", "Body").
Proof.
  split; [reflexivity|].
  destruct (proj1 (@parseMarkdownFile_title {| stem_of := fun p => p |}
                     ("# Hello " ++ Search.newline ++ "Body")%string
                     "notes/a.md" eq_refl)
                  "# Hello " ["Body"] eq_refl eq_refl) as [c [t [E1 E2]]].
  rewrite E2. vm_compute in E1. injection E1 as <- <-. reflexivity.
Defined.

(** A heading, trailing blanks and a run of empty lines. *)
Example parseMarkdownFile_heading `{PathLib} :
  let nl := Search.newline in
  parseMarkdownFile
    ("# Hello " ++ nl ++ nl ++ "Body text  " ++ nl ++ nl ++ nl ++ nl
     ++ "More" ++ nl)%string "notes/a.md"
  = ("Hello", ("Body text" ++ nl ++ nl ++ "More")%string).
Proof. reflexivity. Qed.

(** Lines that hold a blank only are emptied after the runs of line feeds
    were shortened, so they leave a longer run behind. *)
Example parseMarkdownFile_blank_lines `{PathLib} :
  let nl := Search.newline in
  snd (parseMarkdownFile
         ("a" ++ nl ++ " " ++ nl ++ " " ++ nl ++ " " ++ nl ++ "e")%string
         "notes/a.md")
  = ("a" ++ nl ++ nl ++ nl ++ nl ++ "e")%string.
Proof. reflexivity. Qed.

End MarkdownFacts.

(** ** [SimpleSearchEngine]: scores and ids of the matches *)

Module GrepFacts.
Import Text Grep ListFacts ResultFacts.

Local Open Scope Q_scope.

Lemma split_whitespace_nonempty (l : list ascii) : split_whitespace l <> [].
Proof.
  induction l as [|c t IH]; simpl; [discriminate|].
  destruct (Embeddings.is_space c).
  - destruct t as [|d t']; [discriminate|].
    destruct (Embeddings.is_space d); [exact IH|discriminate].
  - destruct (split_whitespace t); discriminate.
Qed.

Lemma fold_addTerm (title content : string) (terms : list string) :
  forall score,
    fold_left (addTerm title content) terms score
    = (score + 10 * List.length (filter (includes title) terms)
       + List.length (filter (includes content) terms))%nat.
Proof.
  induction terms as [|term terms IH]; intros score; simpl; [lia|].
  rewrite IH. unfold addTerm.
  destruct (includes title term); destruct (includes content term); simpl; lia.
Qed.

(** The points of a match: 10 for each term in the title, 3 for each term
    in the content. *)
Lemma points_value (terms : list string) (result : hit) :
  points terms result
  = (10 * List.length (filter (includes (lower (h_title result))) terms)
     + 3 * List.length (filter (includes (lower (h_content result))) terms))%nat.
Proof. unfold points. rewrite fold_addTerm. lia. Qed.

Lemma filter_all_length {A : Type} (p : A -> bool) (l : list A) :
  forallb p l = true -> List.length (filter p l) = List.length l.
Proof.
  intros H. rewrite filter_keeps_all; [reflexivity|].
  apply forallb_forall. exact H.
Qed.

Lemma filter_none_length {A : Type} (p : A -> bool) (l : list A) :
  existsb p l = false -> List.length (filter p l) = 0%nat.
Proof.
  intros H. rewrite filter_drops_all; [reflexivity|].
  apply existsb_false_forall. exact H.
Qed.

Lemma share_le (p n a b : nat) :
  (0 < n)%nat -> (p * b <= a * (n * 5))%nat ->
  inject_Z (Z.of_nat p) / inject_Z (Z.of_nat (n * 5))
  <= inject_Z (Z.of_nat a) / inject_Z (Z.of_nat b) \/ b = 0%nat.
Proof.
  intros Hn Hle. destruct b as [|b]; [right; reflexivity|left].
  apply Qle_shift_div_r.
  - change 0 with (inject_Z 0). rewrite <- Zlt_Qlt. lia.
  - unfold Qdiv. rewrite <- Qmult_assoc, (Qmult_comm (/ _)), Qmult_assoc.
    apply Qle_shift_div_l.
    + change 0 with (inject_Z 0). rewrite <- Zlt_Qlt. lia.
    + rewrite <- !inject_Z_mult, <- Zle_Qle. lia.
Qed.

Lemma share_ge_one (p n : nat) :
  (0 < n)%nat -> (n * 5 <= p)%nat ->
  1 <= inject_Z (Z.of_nat p) / inject_Z (Z.of_nat (n * 5)).
Proof.
  intros Hn Hle. apply Qle_shift_div_l.
  - change 0 with (inject_Z 0). rewrite <- Zlt_Qlt. lia.
  - rewrite Qmult_1_l, <- Zle_Qle. lia.
Qed.

Lemma share_nonneg (p n : nat) :
  (0 < n)%nat -> 0 <= inject_Z (Z.of_nat p) / inject_Z (Z.of_nat (n * 5)).
Proof.
  intros Hn. apply Qle_shift_div_l.
  - change 0 with (inject_Z 0). rewrite <- Zlt_Qlt. lia.
  - rewrite Qmult_0_l. change 0 with (inject_Z 0). rewrite <- Zle_Qle. lia.
Qed.

(** X29: [scoreResults] keeps the matches and orders them by the new score,
    the highest first.  Every score lies between 0 and 1; it is 1 as soon
    as the title contains every query term, at most 0.6 when the title
    contains none of them, and 0 when neither title nor content contains
    any.  Terms are compared in lower case. *)
Theorem scoreResults_scores (results : list hit) (query : string) :
  let out := scoreResults results query in
  let terms := queryTerms_of query in
  Permutation (map h_id results) (map h_id out) /\
  StronglySorted (fun a b => h_score b <= h_score a) out /\
  forall r, In r out ->
    0 <= h_score r <= 1 /\
    (forallb (includes (lower (h_title r))) terms = true -> h_score r == 1) /\
    (existsb (includes (lower (h_title r))) terms = false -> h_score r <= 3 # 5) /\
    (existsb (includes (lower (h_title r))) terms = false ->
     existsb (includes (lower (h_content r))) terms = false -> h_score r == 0).
Proof.
  cbv zeta. unfold scoreResults.
  set (terms := queryTerms_of query).
  set (rescore := fun result =>
         with_score result
           (Qmin 1 (inject_Z (Z.of_nat (points terms result))
                    / inject_Z (Z.of_nat (List.length terms * 5))))).
  assert (Hn : (0 < List.length terms)%nat).
  { pose proof (split_whitespace_nonempty
                  (list_ascii_of_string (lower query))) as Hne.
    unfold terms, queryTerms_of. destruct (split_whitespace _);
      [contradiction|simpl; lia]. }
  split; [|split].
  - eapply perm_trans; [|apply Permutation_map, sort_by_perm].
    rewrite map_map. apply Permutation_refl.
  - apply (sort_descending h_score).
  - intros r Hr. apply sort_by_In in Hr. apply in_map_iff in Hr.
    destruct Hr as [r0 [<- _]]. unfold rescore. simpl.
    rewrite points_value.
    set (ct := List.length (filter (includes (lower (h_title r0))) terms)).
    set (cc := List.length (filter (includes (lower (h_content r0))) terms)).
    assert (Hct : (ct <= List.length terms)%nat) by apply filter_length_le.
    assert (Hcc : (cc <= List.length terms)%nat) by apply filter_length_le.
    pose proof (share_nonneg (10 * ct + 3 * cc) (List.length terms) Hn) as H0.
    split; [split|split; [|split]].
    + apply Q.min_glb; [lra|exact H0].
    + apply Q.le_min_l.
    + intros Hall. apply Q.min_l. apply share_ge_one; [exact Hn|].
      unfold ct. rewrite (filter_all_length _ _ Hall). lia.
    + intros Hnone. eapply Qle_trans; [apply Q.le_min_r|].
      unfold ct. rewrite (filter_none_length _ _ Hnone).
      destruct (share_le (10 * 0 + 3 * cc) (List.length terms) 3 5 Hn)
        as [Hle|E]; [lia|exact Hle|discriminate].
    + intros Hnone Hnone'. unfold ct, cc.
      rewrite (filter_none_length _ _ Hnone), (filter_none_length _ _ Hnone').
      change (10 * 0 + 3 * 0)%nat with 0%nat.
      assert (E0 : inject_Z (Z.of_nat 0)
                   / inject_Z (Z.of_nat (List.length terms * 5)) == 0)
        by (unfold Qdiv; apply Qmult_0_l).
      apply Qle_antisym.
      * eapply Qle_trans; [apply Q.le_min_r|]. rewrite E0. lra.
      * apply Q.min_glb; [lra|]. rewrite E0. lra.
Qed.

(** *** Ids *)

Lemma substring_skip (a s : string) (k m : nat) :
  substring (String.length a + k) m (a ++ s) = substring k m s.
Proof. induction a as [|c a IH]; simpl; [reflexivity|exact IH]. Qed.

Lemma substring_length_le (s : string) :
  forall k m, (String.length (substring k m s) <= m)%nat.
Proof.
  induction s as [|c s IH]; intros [|k] [|m]; simpl; try lia.
  - specialize (IH 0%nat m). lia.
  - apply (IH k 0%nat).
  - apply (IH k (S m)).
Qed.

Lemma substring_tail (s : string) :
  forall k, (k <= String.length s)%nat ->
    exists front, s = (front ++ substring k (String.length s - k) s)%string.
Proof.
  induction s as [|c s IH]; intros [|k] Hk; simpl in *.
  - exists EmptyString. reflexivity.
  - lia.
  - exists EmptyString. simpl. f_equal.
    destruct (IH 0%nat) as [front Hf]; [lia|].
    rewrite Nat.sub_0_r in Hf.
    clear -s. induction s as [|d s IHs]; simpl; [reflexivity|].
    f_equal. exact IHs.
  - destruct (IH k) as [front Hf]; [lia|].
    exists (String c front). simpl. f_equal. exact Hf.
Qed.

(** X30: [generateId] is the last eight characters of the path followed by the
    line number (all of them if there are fewer): two matches whose paths
    end alike get the same id whatever their directories, as soon as the
    common ending and the line number make up eight characters. *)
Theorem generateId_is_the_ending (filePath : string) (lineNumber : Z) :
  (String.length (generateId filePath lineNumber) <= 8)%nat /\
  (exists front,
      (filePath ++ Collections.toString lineNumber
       = front ++ generateId filePath lineNumber)%string) /\
  (forall dir1 dir2 name,
      (8 <= String.length (name ++ Collections.toString lineNumber))%nat ->
      generateId (dir1 ++ name) lineNumber
      = generateId (dir2 ++ name) lineNumber).
Proof.
  unfold generateId. split; [|split].
  - set (hash := (filePath ++ Collections.toString lineNumber)%string).
    pose proof (substring_length_le hash (String.length hash - 8)
                  (String.length hash - (String.length hash - 8))).
    lia.
  - apply substring_tail. lia.
  - intros dir1 dir2 name Hlen.
    set (tail := (name ++ Collections.toString lineNumber)%string) in *.
    assert (Hgen : forall dir,
               let hash := ((dir ++ name) ++ Collections.toString lineNumber)%string in
               substring (String.length hash - 8)
                         (String.length hash - (String.length hash - 8)) hash
               = substring (String.length tail - 8) 8 tail).
    { intros dir. cbv zeta.
      assert (E : ((dir ++ name) ++ Collections.toString lineNumber
                   = dir ++ tail)%string).
      { subst tail. clear. induction dir as [|c dir IH]; simpl;
          [reflexivity|f_equal; exact IH]. }
      rewrite E.
      assert (El : String.length (dir ++ tail)
                   = (String.length dir + String.length tail)%nat).
      { clear. induction dir as [|c dir IH]; simpl; [reflexivity|].
        f_equal. exact IH. }
      rewrite El.
      replace (String.length dir + String.length tail - 8)%nat
        with (String.length dir + (String.length tail - 8))%nat by lia.
      rewrite substring_skip. f_equal. lia. }
    rewrite (Hgen dir1), (Hgen dir2). reflexivity.
Qed.

End GrepFacts.
